(** * SACSE [simcse/models.py]: pooling, memory bank and contrastive forward pass

    A shallow embedding of [src/simcse/models.py].

    Modelling conventions.
    - A [torch.Tensor] is a shape together with its row-major storage
      ([tensor]); every tensor is contiguous, so [.contiguous()] is the
      identity and [.view] only replaces the shape.  Shape errors raise the
      Python exception that PyTorch raises.
    - Floating-point tensors hold real numbers ([R]): rounding, infinities and
      NaN are not modelled.  Integer tensors ([torch.long]) hold [Z] with the
      64-bit wrap-around written out ([wrap64]).
    - Autograd is not modelled: [torch.no_grad], [.detach()] and [.clone()]
      do not change values.
    - Python exceptions are the constructors of [exn]; a computation over the
      model object threads the object explicitly ([M]) and an exception leaves
      the object as it was when the exception was raised.
    - The text encoder and the masked-token predictor are opaque functions
      stored in the model object. *)

From Stdlib Require Import ZArith Reals Lra Lia.
From stdpp Require Import base list strings gmap.

Set Default Proof Using "Type".

(** ** Python exceptions and the two monads *)

Inductive exn : Set :=
  | AssertionError
  | ZeroDivisionError
  | RuntimeError
  | IndexError
  | AttributeError
  | UnboundLocalError
  | NameError
  | NotImplementedError
  | TypeError
  | ValueError.

Inductive result (A : Type) : Type :=
  | Ok (a : A)
  | Raise (e : exn).
Arguments Ok {A} a.
Arguments Raise {A} e.

#[global] Instance result_ret : MRet result := @Ok.
#[global] Instance result_bind : MBind result := λ A B f m,
  match m with
  | Ok a => f a
  | Raise e => Raise e
  end.

(** A computation that reads and mutates an object of type [St] and may
    raise. *)
Definition M (St A : Type) : Type := St → result A * St.

#[global] Instance M_ret {St} : MRet (M St) := λ A a s, (Ok a, s).
#[global] Instance M_bind {St} : MBind (M St) := λ A B f m s,
  match m s with
  | (Ok a, s') => f a s'
  | (Raise e, s') => (Raise e, s')
  end.

Definition lift {St A} (r : result A) : M St A := λ s, (r, s).
Definition throw {St A} (e : exn) : M St A := λ s, (Raise e, s).
Definition get_self {St} : M St St := λ s, (Ok s, s).
Definition put_self {St} (s' : St) : M St unit := λ _, (Ok tt, s').

(** [assert c] *)
Definition py_assert (c : bool) : result unit :=
  if c then Ok tt else Raise AssertionError.

(** Python's [a % b] on integers: the sign follows the divisor, and a zero
    divisor raises. [Z.modulo] has the same sign convention. *)
Definition py_mod (a b : Z) : result Z :=
  if (b =? 0)%Z then Raise ZeroDivisionError else Ok (a mod b)%Z.

(** Two's-complement wrap-around of [torch.long] arithmetic. *)
Definition wrap64 (z : Z) : Z :=
  ((z + 2 ^ 63) mod 2 ^ 64 - 2 ^ 63)%Z.

#[global] Instance R_inhabited : Inhabited R := populate 0%R.

(** ** Tensors *)

Module torch.

Record tensor (A : Type) : Type := Tensor { shape : list nat; data : list A }.
Arguments Tensor {A} shape data.
Arguments shape {A} t.
Arguments data {A} t.

Definition numel (sh : list nat) : nat := foldr Nat.mul 1 sh.

Definition dim {A} (t : tensor A) : nat := length (shape t).

(** The element at storage offset [k]. *)
Definition get {A} `{Inhabited A} (t : tensor A) (k : nat) : A := data t !!! k.

(** The tensor of shape [sh] whose element at offset [k] is [f k]. *)
Definition tabulate {A} (sh : list nat) (f : nat → A) : tensor A :=
  Tensor sh (f <$> seq 0 (numel sh)).

(** A well-formed tensor has as many elements as its shape says. *)
Definition wf {A} (t : tensor A) : Prop := length (data t) = numel (shape t).

(** Normalisation of a possibly negative dimension or index. *)
Definition wrap_dim (n : nat) (d : Z) : result nat :=
  if ((0 <=? d) && (d <? Z.of_nat n))%Z then Ok (Z.to_nat d)
  else if ((- Z.of_nat n <=? d) && (d <? 0))%Z
  then Ok (Z.to_nat (Z.of_nat n + d))
  else Raise IndexError.

(** [t.size(d)] *)
Definition size {A} (t : tensor A) (d : Z) : result nat :=
  i ← wrap_dim (dim t) d;
  Ok (shape t !!! i).

(** For a dimension [i] of [sh], an offset splits as
    [(o * extent + e) * inner + j]. *)
Definition extent (sh : list nat) (i : nat) : nat := sh !!! i.
Definition inner (sh : list nat) (i : nat) : nat := numel (drop (S i) sh).
Definition remove_dim (sh : list nat) (i : nat) : list nat :=
  take i sh ++ drop (S i) sh.

(** Offset in [t] of element [k] of the tensor obtained by fixing
    dimension [i] at [e]. *)
Definition offset_at (sh : list nat) (i e k : nat) : nat :=
  (k / inner sh i * extent sh i + e) * inner sh i + k mod inner sh i.

(** [t.select(d, idx)]; [t[:, idx]] is [select t 1 idx] and [t[idx]] is
    [select t 0 idx]. *)
Definition select {A} `{Inhabited A} (t : tensor A) (d idx : Z)
    : result (tensor A) :=
  i ← wrap_dim (dim t) d;
  e ← wrap_dim (extent (shape t) i) idx;
  Ok (tabulate (remove_dim (shape t) i)
        (λ k, get t (offset_at (shape t) i e k))).

(** [t.unsqueeze(d)] *)
Definition unsqueeze {A} (t : tensor A) (d : Z) : result (tensor A) :=
  i ← wrap_dim (S (dim t)) d;
  Ok (Tensor (take i (shape t) ++ 1 :: drop i (shape t)) (data t)).

(** Shape inference of [view]: at most one [-1], which stands for the
    quotient of the number of elements by the product of the other sizes. *)
Definition infer_size (spec : list Z) (n : nat) : result (list nat) :=
  if bool_decide (Exists (λ z, z < -1)%Z spec) then Raise RuntimeError else
  let known := Z.to_nat <$> filter (λ z, z ≠ (-1)%Z) spec in
  let p := numel known in
  match length spec - length known with
  | 0 => if p =? n then Ok known else Raise RuntimeError
  | 1 =>
      if p =? 0 then Raise RuntimeError
      else if n mod p =? 0
      then Ok ((λ z, if bool_decide (z = (-1)%Z) then n / p else Z.to_nat z)
                 <$> spec)
      else Raise RuntimeError
  | _ => Raise RuntimeError
  end.

(** [t.view(spec)] *)
Definition view {A} (t : tensor A) (spec : list Z) : result (tensor A) :=
  sh ← infer_size spec (numel (shape t));
  Ok (Tensor sh (data t)).

(** *** Broadcasting *)

Definition pad_shape (n : nat) (sh : list nat) : list nat :=
  replicate (n - length sh) 1 ++ sh.

Fixpoint broadcast_aligned (s1 s2 : list nat) : result (list nat) :=
  match s1, s2 with
  | [], [] => Ok []
  | a :: s1', b :: s2' =>
      r ← broadcast_aligned s1' s2';
      if a =? b then Ok (a :: r)
      else if a =? 1 then Ok (b :: r)
      else if b =? 1 then Ok (a :: r)
      else Raise RuntimeError
  | _, _ => Raise RuntimeError
  end.

Definition broadcast_shapes (s1 s2 : list nat) : result (list nat) :=
  let n := length s1 `max` length s2 in
  broadcast_aligned (pad_shape n s1) (pad_shape n s2).

(** Offset in a tensor of shape [src] of the element that lands at offset
    [k] once the tensor is expanded to [tgt] (same rank). *)
Fixpoint bindex (src tgt : list nat) (k : nat) : nat :=
  match src, tgt with
  | d :: src', _ :: tgt' =>
      (if d =? 1 then 0 else k / numel tgt') * numel src'
      + bindex src' tgt' (k mod numel tgt')
  | _, _ => 0
  end.

Definition bget {A} `{Inhabited A} (t : tensor A) (tgt : list nat) (k : nat)
    : A :=
  get t (bindex (pad_shape (length tgt) (shape t)) tgt k).

(** An elementwise binary operation with broadcasting. *)
Definition map2 {A B C} `{Inhabited A, Inhabited B}
    (f : A → B → C) (a : tensor A) (b : tensor B) : result (tensor C) :=
  sh ← broadcast_shapes (shape a) (shape b);
  Ok (tabulate sh (λ k, f (bget a sh k) (bget b sh k))).

Definition map {A B} (f : A → B) (t : tensor A) : tensor B :=
  Tensor (shape t) (f <$> data t).

(** [v.expand(tgt)] as used by an indexed assignment: leading dimensions of
    size one of the value are dropped first. *)
Fixpoint strip_ones (sh : list nat) : list nat :=
  match sh with
  | 1 :: sh' => strip_ones sh'
  | _ => sh
  end.

Definition expand {A} `{Inhabited A} (v : tensor A) (tgt : list nat)
    : result (tensor A) :=
  let vs := strip_ones (shape v) in
  if bool_decide (length vs ≤ length tgt) then
    sh ← broadcast_shapes vs tgt;
    if bool_decide (sh = tgt)
    then Ok (tabulate tgt
               (λ k, get v (bindex (pad_shape (length tgt) vs) tgt k)))
    else Raise RuntimeError
  else Raise RuntimeError.

(** *** Reductions *)

(** Reduction of dimension [d] by [f], which receives the elements along
    that dimension in order. *)
Definition reduce_dim {A B} `{Inhabited A}
    (f : list A → B) (t : tensor A) (d : Z) : result (tensor B) :=
  i ← wrap_dim (dim t) d;
  Ok (tabulate (remove_dim (shape t) i)
        (λ k, f ((λ e, get t (offset_at (shape t) i e k))
                   <$> seq 0 (extent (shape t) i)))).

Definition Rsum (l : list R) : R := foldr Rplus 0%R l.
Definition Zsum64 (l : list Z) : Z := foldr (λ x acc, wrap64 (x + acc)) 0%Z l.

(** [t.sum(d)] on a float tensor and on a long tensor. *)
Definition sum (t : tensor R) (d : Z) : result (tensor R) :=
  reduce_dim Rsum t d.
Definition sum_long (t : tensor Z) (d : Z) : result (tensor Z) :=
  reduce_dim Zsum64 t d.

(** Index of the first maximal element. *)
Fixpoint argmax_from (best : R) (bi i : nat) (l : list R) : nat :=
  match l with
  | [] => bi
  | x :: l' =>
      if Rlt_dec best x then argmax_from x i (S i) l'
      else argmax_from best bi (S i) l'
  end.
Definition argmax_list (l : list R) : Z :=
  match l with
  | [] => 0%Z
  | x :: l' => Z.of_nat (argmax_from x 0 1 l')
  end.

(** [t.argmax(d)]; an empty reduction dimension is an error. *)
Definition argmax (t : tensor R) (d : Z) : result (tensor Z) :=
  i ← wrap_dim (dim t) d;
  if extent (shape t) i =? 0 then Raise IndexError
  else reduce_dim argmax_list t d.

(** *** Slices and indexed assignment *)

(** Bounds of the Python slice [start:stop] on a dimension of size [n]. *)
Definition clamp_index (n : nat) (z : Z) : nat :=
  Z.to_nat (Z.max 0 (Z.min (Z.of_nat n)
                            (if (z <? 0)%Z then z + Z.of_nat n else z)%Z)).
Definition slice_bounds (n : nat) (start stop : Z) : nat * nat :=
  let lo := clamp_index n start in (lo, lo `max` clamp_index n stop).

(** [t[start:stop]] *)
Definition slice0 {A} (t : tensor A) (start stop : Z) : result (tensor A) :=
  match shape t with
  | [] => Raise IndexError
  | n :: rest =>
      let '(lo, hi) := slice_bounds n start stop in
      Ok (Tensor ((hi - lo) :: rest)
            (take ((hi - lo) * numel rest) (drop (lo * numel rest) (data t))))
  end.

(** [t[start:stop, :] = v] *)
Definition setitem_rows {A} `{Inhabited A}
    (t : tensor A) (start stop : Z) (v : tensor A) : result (tensor A) :=
  match shape t with
  | n :: m :: rest =>
      let '(lo, hi) := slice_bounds n start stop in
      v' ← expand v ((hi - lo) :: m :: rest);
      Ok (Tensor (shape t)
            (take (lo * numel (m :: rest)) (data t) ++ data v'
             ++ drop (hi * numel (m :: rest)) (data t)))
  | _ => Raise IndexError
  end.

(** [t.select(d, idx).fill_(c)]; [t[:, idx] = c] is [fill_select t 1 idx c]. *)
Definition fill_select {A} `{Inhabited A}
    (t : tensor A) (d idx : Z) (c : A) : result (tensor A) :=
  i ← wrap_dim (dim t) d;
  e ← wrap_dim (extent (shape t) i) idx;
  Ok (tabulate (shape t)
        (λ k, if bool_decide
                   ((k / inner (shape t) i) mod extent (shape t) i = e)
              then c else get t k)).

(** [t[range(n), range(n)]] with [n = t.shape[0]] *)
Definition index_diag {A} `{Inhabited A} (t : tensor A) : result (tensor A) :=
  match shape t with
  | n :: m :: rest =>
      if bool_decide (n = 0 ∨ n ≤ m)
      then Ok (tabulate (n :: rest)
                 (λ k, get t ((k / numel rest * m + k / numel rest)
                              * numel rest + k mod numel rest)))
      else Raise IndexError
  | _ => Raise IndexError
  end.

(** [torch.cat(ts, 0)] *)
Definition cat0 {A} (ts : list (tensor A)) : result (tensor A) :=
  match ts with
  | [] => Raise RuntimeError
  | t0 :: _ =>
      match shape t0 with
      | [] => Raise RuntimeError
      | _ :: rest =>
          if bool_decide (Forall (λ t, tail (shape t) = rest
                                       ∧ shape t ≠ []) ts)
          then Ok (Tensor (sum_list ((λ t, default 0 (head (shape t))) <$> ts)
                             :: rest)
                          (mjoin (data <$> ts)))
          else Raise RuntimeError
      end
  end.

(** [torch.arange(n)] *)
Definition arange (n : nat) : tensor Z := tabulate [n] Z.of_nat.

(** *** Linear algebra and pointwise functions *)

(** [x.t()] *)
Definition t_ {A} `{Inhabited A} (x : tensor A) : result (tensor A) :=
  match shape x with
  | [] | [_] => Ok x
  | [m; n] => Ok (tabulate [n; m] (λ k, get x (k mod m * n + k / m)))
  | _ => Raise RuntimeError
  end.

(** [torch.mm(a, b)] *)
Definition mm (a b : tensor R) : result (tensor R) :=
  match shape a, shape b with
  | [n; k], [k'; m] =>
      if k =? k'
      then Ok (tabulate [n; m]
                 (λ o, Rsum ((λ l, get a (o / m * k + l)
                                   * get b (l * m + o mod m))%R
                             <$> seq 0 k)))
      else Raise RuntimeError
  | _, _ => Raise RuntimeError
  end.

(** [nn.Softmax()] is built without a dimension: the legacy rule picks
    dimension 0 for inputs of rank 0, 1 or 3 and dimension 1 otherwise. *)
Definition softmax_implicit_dim (rank : nat) : Z :=
  match rank with
  | 0 | 1 | 3 => 0
  | _ => 1
  end.

(** [torch.softmax(t, d)] *)
Definition softmax (t : tensor R) (d : Z) : result (tensor R) :=
  i ← wrap_dim (dim t) d;
  let sh := shape t in
  Ok (tabulate sh
        (λ k, exp (get t k)
              / Rsum ((λ e, exp (get t
                           ((k / (extent sh i * inner sh i) * extent sh i + e)
                            * inner sh i + k mod inner sh i)))
                      <$> seq 0 (extent sh i)))%R).

(** [torch.log] and [abs] *)
Definition log (t : tensor R) : tensor R := map ln t.
Definition abs (t : tensor R) : tensor R := map Rabs t.

(** Type promotion of a long tensor in arithmetic with a float tensor. *)
Definition to_float (t : tensor Z) : tensor R := map IZR t.

(** [nn.CosineSimilarity(dim=-1)(x, y)]: both arguments are broadcast to a
    common shape and the last dimension is reduced to
    [x.y / sqrt (max (|x|^2 * |y|^2, eps^2))], [eps = 1e-8]. *)
Definition cos_eps : R := (/ 100000000)%R.

Definition cosine_similarity (x y : tensor R) : result (tensor R) :=
  sh ← broadcast_shapes (shape x) (shape y);
  match reverse sh with
  | [] => Raise IndexError
  | d :: _ =>
      let along (f : nat → R) (k : nat) : R :=
        Rsum ((λ e, f (k * d + e)) <$> seq 0 d) in
      Ok (tabulate (take (length sh - 1) sh)
            (λ k,
               along (λ o, bget x sh o * bget y sh o) k
               / sqrt (Rmax (along (λ o, bget x sh o * bget x sh o) k
                             * along (λ o, bget y sh o * bget y sh o) k)
                            (cos_eps * cos_eps)))%R)
  end.

(** [F.linear(x, weight, bias)] with [weight] of shape [[out; inp]]. *)
Definition linear (x weight bias : tensor R) : result (tensor R) :=
  match shape weight, reverse (shape x) with
  | [out; inp], d :: _ =>
      if bool_decide (d = inp ∧ shape bias = [out])
      then Ok (tabulate (take (dim x - 1) (shape x) ++ [out])
                 (λ k, Rsum ((λ i, get x (k / out * inp + i)
                                   * get weight (k mod out * inp + i))%R
                             <$> seq 0 inp)
                       + get bias (k mod out))%R)
      else Raise RuntimeError
  | _, _ => Raise RuntimeError
  end.

(** [nn.CrossEntropyLoss()(input, target)] with the default mean reduction:
    the mean over the rows [i] of
    [log (sum_j exp input[i][j]) - input[i][target[i]]]. *)
Definition cross_entropy (input : tensor R) (target : tensor Z)
    : result (tensor R) :=
  match shape input, shape target with
  | [n; c], [n'] =>
      if negb (n =? n') then Raise RuntimeError
      else if bool_decide (Forall (λ y, 0 ≤ y < Z.of_nat c)%Z
                             (take n (data target)))
      then Ok (Tensor []
                 [(Rsum ((λ i,
                     ln (Rsum ((λ j, exp (get input (i * c + j)))
                               <$> seq 0 c))
                     - get input (i * c + Z.to_nat (get target i)))%R
                   <$> seq 0 n) / INR n)%R])
      else Raise IndexError
  | _, _ => Raise RuntimeError
  end.

(** Python's builtin [sum(t)]: iterates over the first dimension and adds
    from the left, starting from the integer [0]. *)
Definition py_sum (t : tensor R) : result (tensor R) :=
  match shape t with
  | [] => Raise TypeError
  | n :: rest =>
      Ok (tabulate rest
            (λ k, foldl Rplus 0%R
                    ((λ i, get t (i * numel rest + k)) <$> seq 0 n)))
  end.

End torch.

Import torch.

(** Indexing of a Python tuple or list. *)
Definition py_index {A} (l : list A) (i : Z) : result A :=
  k ← wrap_dim (length l) i;
  match l !! k with
  | Some x => Ok x
  | None => Raise IndexError
  end.

(** Reading an attribute that the object may not have. *)
Definition getattr {A} (a : option A) : result A :=
  match a with
  | Some x => Ok x
  | None => Raise AttributeError
  end.

(** Subscripting a value that may be [None]. *)
Definition subscriptable {A} (a : option A) : result A :=
  match a with
  | Some x => Ok x
  | None => Raise TypeError
  end.

(** Reading a local variable that may not have been assigned. *)
Definition local {A} (a : option A) : result A :=
  match a with
  | Some x => Ok x
  | None => Raise UnboundLocalError
  end.

(** Reading, in the body of a list comprehension, a variable of the enclosing
    function that may not have been assigned.  The comprehension is a scope
    of its own in which the name is free, and the read raises [NameError]
    ("free variable referenced before assignment in enclosing scope").  From
    Python 3.12 on comprehensions are inlined and the exception is
    [UnboundLocalError], which is a subclass of [NameError]. *)
Definition free_variable {A} (a : option A) : result A :=
  match a with
  | Some x => Ok x
  | None => Raise NameError
  end.

(** [int(t)] for a long tensor. *)
Definition py_int (t : tensor Z) : result Z :=
  match data t with
  | [z] => Ok z
  | _ => Raise ValueError
  end.

(** ** Collaborators: encoder, masked-token predictor, process group *)

(** The fields of the encoder's result the module reads. *)
Record EncoderOutput : Type := {
  last_hidden_state : tensor R;
  pooler_output : option (tensor R);
  hidden_states : option (list (tensor R));
  attentions : option (list (tensor R));
}.

Inductive flag_value : Type :=
  | FlagBool (b : bool)
  | FlagStr (s : string)
  | FlagFloat (r : R).

(** The encoder as a function of its augmentation flags, the token ids, the
    attention mask, the token-type ids and [output_hidden_states].  The
    arguments [position_ids], [head_mask], [inputs_embeds] and
    [output_attentions] are passed through unchanged by every caller and are
    part of the function. *)
Definition encoder_fn : Type :=
  gmap string flag_value → tensor Z → tensor Z → option (tensor Z) → bool →
  result EncoderOutput.

(** An encoder object.  Modelled from the spec: the encoder class and its
    [set_flag] method are not part of this module; the spec describes the
    flags as named augmentation switches that [set_flag] stores in the
    encoder's internal state before it is invoked, so the object carries its
    flags and its forward function reads them. *)
Record BertModel : Type := {
  flags : gmap string flag_value;
  encoder_forward : encoder_fn;
}.

(** The masked-token predictor, already projected to its logits
    ([generator(ids, mask)[0]]). *)
Definition generator_fn : Type := tensor Z → tensor Z → result (tensor R).

(** [torch.distributed] when a process group is initialised:
    [all_gather z] is what the collective leaves in the tensor list. *)
Record ProcessGroup : Type := {
  world_size : nat;
  rank : nat;
  all_gather : tensor R → list (tensor R);
}.

(** ** [MLPLayer] *)

Record MLPLayer : Type := { dense_weight : tensor R; dense_bias : tensor R }.

Definition MLPLayer_forward (self : MLPLayer) (features : tensor R)
    : result (tensor R) :=
  x ← linear features (dense_weight self) (dense_bias self);
  Ok (torch.map tanh x).

(** ** [Similarity] *)

Record Similarity : Type := { sim_temp : R }.

Definition Similarity_forward (self : Similarity) (x y : tensor R)
    : result (tensor R) :=
  c ← cosine_similarity x y;
  Ok (torch.map (λ v, v / sim_temp self)%R c).

(** ** [Pooler] *)

Record Pooler : Type := { pooler_pooler_type : string }.

Definition Pooler_init (pooler_type : string) : result Pooler :=
  _ ← py_assert (bool_decide
         (pooler_type ∈ ["cls"; "cls_before_pooler"; "avg"; "avg_top2";
                         "avg_first_last"]));
  Ok {| pooler_pooler_type := pooler_type |}.

(** The expression shared by the three averaging modes:
    [(x * attention_mask.unsqueeze(-1)).sum(1)
     / attention_mask.sum(-1).unsqueeze(-1)]. *)
Definition masked_mean (x : tensor R) (attention_mask : tensor Z)
    : result (tensor R) :=
  m ← unsqueeze attention_mask (-1);
  xm ← map2 Rmult x (to_float m);
  num ← sum xm 1;
  cnt ← sum_long attention_mask (-1);
  den ← unsqueeze cnt (-1);
  map2 Rdiv num (to_float den).

Definition Pooler_forward (self : Pooler) (attention_mask : tensor Z)
    (outputs : EncoderOutput) : result (tensor R) :=
  let last_hidden := last_hidden_state outputs in
  let hidden_states := hidden_states outputs in
  let pooler_type := pooler_pooler_type self in
  if bool_decide (pooler_type ∈ ["cls_before_pooler"; "cls"]) then
    select last_hidden 1 0
  else if bool_decide (pooler_type = "avg") then
    masked_mean last_hidden attention_mask
  else if bool_decide (pooler_type = "avg_first_last") then
    hs ← subscriptable hidden_states;
    first_hidden ← py_index hs 1;
    last_hidden ← py_index hs (-1);
    s ← map2 Rplus first_hidden last_hidden;
    masked_mean (torch.map (λ v, v / 2)%R s) attention_mask
  else if bool_decide (pooler_type = "avg_top2") then
    hs ← subscriptable hidden_states;
    second_last_hidden ← py_index hs (-2);
    last_hidden ← py_index hs (-1);
    s ← map2 Rplus last_hidden second_last_hidden;
    masked_mean (torch.map (λ v, v / 2)%R s) attention_mask
  else Raise NotImplementedError.

(** ** The model object *)

(** The options of [model_args] the module reads. *)
Record ModelArgs : Type := {
  pooler_type : string;
  temp : R;
  bank_size : Z;
  hidden_len : Z;
  do_mlm : bool;
  do_stronger : bool;
  mlm_weight : R;
  cutoff_rate : R;
  mlp_only_train : bool;
}.

(** What construction takes from outside the module: the configuration
    default of [return_dict], the encoders, the initial projection weights,
    the pretrained masked-token predictor and the samples of [torch.randn]. *)
Record Pretrained : Type := {
  config_use_return_dict : bool;
  pretrained_encoder : encoder_fn;
  pretrained_encoder_q : encoder_fn;
  pretrained_dense_weight : tensor R;
  pretrained_dense_bias : tensor R;
  pretrained_generator : generator_fn;
  randn : nat → R;
}.

(** A [BertForCL] or [RobertaForCL] instance.  An attribute that only one of
    the classes (or only one configuration) creates is an option. *)
Record CLModel : Type := {
  use_return_dict : bool;
  model_args : ModelArgs;
  training : bool;
  bert : option BertModel;
  encoder_q : option BertModel;
  roberta : option BertModel;
  queue : option (tensor R);
  queue_ptr : option (tensor Z);
  cls_pooler_type : string;
  pooler : Pooler;
  mlp : option MLPLayer;
  sim : Similarity;
  generator : generator_fn;
}.

Definition set_queue (q : tensor R) (cls : CLModel) : CLModel :=
  {| use_return_dict := use_return_dict cls; model_args := model_args cls;
     training := training cls; bert := bert cls; encoder_q := encoder_q cls;
     roberta := roberta cls; queue := Some q; queue_ptr := queue_ptr cls;
     cls_pooler_type := cls_pooler_type cls; pooler := pooler cls;
     mlp := mlp cls; sim := sim cls; generator := generator cls |}.

Definition set_queue_ptr (p : tensor Z) (cls : CLModel) : CLModel :=
  {| use_return_dict := use_return_dict cls; model_args := model_args cls;
     training := training cls; bert := bert cls; encoder_q := encoder_q cls;
     roberta := roberta cls; queue := queue cls; queue_ptr := Some p;
     cls_pooler_type := cls_pooler_type cls; pooler := pooler cls;
     mlp := mlp cls; sim := sim cls; generator := generator cls |}.

Definition set_bert (b : BertModel) (cls : CLModel) : CLModel :=
  {| use_return_dict := use_return_dict cls; model_args := model_args cls;
     training := training cls; bert := Some b; encoder_q := encoder_q cls;
     roberta := roberta cls; queue := queue cls; queue_ptr := queue_ptr cls;
     cls_pooler_type := cls_pooler_type cls; pooler := pooler cls;
     mlp := mlp cls; sim := sim cls; generator := generator cls |}.

(** The encoder argument of the two forward functions is a reference to an
    attribute of the model object. *)
Inductive encoder_ref : Set := self_bert | self_roberta.

Definition deref (e : encoder_ref) (cls : CLModel) : option BertModel :=
  match e with
  | self_bert => bert cls
  | self_roberta => roberta cls
  end.

(** [encoder(input_ids, attention_mask=..., token_type_ids=...,
    output_hidden_states=..., return_dict=True)].  Modelled from the spec:
    the encoder's forward function is a parameter, applied to the flags the
    object holds and to the arguments of the call. *)
Definition call_encoder (e : encoder_ref) (input_ids attention_mask : tensor Z)
    (token_type_ids : option (tensor Z)) (output_hidden_states : bool)
    : M CLModel EncoderOutput := λ cls,
  (enc ← getattr (deref e cls);
   encoder_forward enc (flags enc) input_ids attention_mask token_type_ids
     output_hidden_states, cls).

(** [cls.bert.set_flag(name, value)].  Modelled from the spec: the call
    stores the flag in the internal state of the encoder object. *)
Definition bert_set_flag (name : string) (v : flag_value) : M CLModel unit :=
  λ cls,
  match bert cls with
  | Some b =>
      (Ok tt, set_bert {| flags := <[name := v]> (flags b);
                          encoder_forward := encoder_forward b |} cls)
  | None => (Raise AttributeError, cls)
  end.

(** [F.normalize(t, dim=1)] on a matrix: every row is divided by
    [max (its 2-norm, 1e-12)]. *)
Definition normalize_rows (t : tensor R) : result (tensor R) :=
  match shape t with
  | [n; d] =>
      Ok (tabulate [n; d]
            (λ k, get t k
                  / Rmax (sqrt (Rsum ((λ e, get t (k / d * d + e)
                                            * get t (k / d * d + e))
                                      <$> seq 0 d)))
                         (/ 1000000000000))%R)
  | _ => Raise IndexError
  end.

(** A size argument of a tensor constructor must not be negative. *)
Definition py_size (z : Z) : result nat :=
  if (z <? 0)%Z then Raise RuntimeError else Ok (Z.to_nat z).

(** [cl_init]: the attributes it adds to the object under construction. *)
Definition cl_init (args : ModelArgs) (pre : Pretrained)
    : result (string * Pooler * option MLPLayer * Similarity * generator_fn) :=
  p ← Pooler_init (pooler_type args);
  let mlp :=
    if bool_decide (pooler_type args = "cls")
    then Some {| dense_weight := pretrained_dense_weight pre;
                 dense_bias := pretrained_dense_bias pre |}
    else None in
  Ok (pooler_type args, p, mlp, {| sim_temp := temp args |},
      pretrained_generator pre).

(** [BertForCL.__init__] *)
Definition BertForCL_init (args : ModelArgs) (pre : Pretrained)
    : result CLModel :=
  n ← py_size (bank_size args);
  d ← py_size (hidden_len args);
  q ← normalize_rows (tabulate [n; d] (randn pre));
  '(pt, p, m, s, g) ← cl_init args pre;
  Ok {| use_return_dict := config_use_return_dict pre;
        model_args := args;
        training := true;
        bert := Some {| flags := ∅; encoder_forward := pretrained_encoder pre |};
        encoder_q := Some {| flags := ∅;
                             encoder_forward := pretrained_encoder_q pre |};
        roberta := None;
        queue := Some q;
        queue_ptr := Some (Tensor [1] [0%Z]);
        cls_pooler_type := pt; pooler := p; mlp := m; sim := s;
        generator := g |}.

(** [RobertaForCL.__init__] *)
Definition RobertaForCL_init (args : ModelArgs) (pre : Pretrained)
    : result CLModel :=
  '(pt, p, m, s, g) ← cl_init args pre;
  Ok {| use_return_dict := config_use_return_dict pre;
        model_args := args;
        training := true;
        bert := None;
        encoder_q := None;
        roberta := Some {| flags := ∅;
                           encoder_forward := pretrained_encoder pre |};
        queue := None;
        queue_ptr := None;
        cls_pooler_type := pt; pooler := p; mlp := m; sim := s;
        generator := g |}.

(** ** The memory bank: [dequeue_and_enqueue] *)

(** [t[0] = z] on a long tensor of rank one. *)
Definition setitem0_long (t : tensor Z) (z : Z) : result (tensor Z) :=
  match shape t with
  | [n] =>
      if n =? 0 then Raise IndexError
      else if bool_decide (- 2 ^ 63 ≤ z < 2 ^ 63)%Z
      then Ok (Tensor [n] (<[0 := z]> (data t)))
      else Raise RuntimeError
  | _ => Raise RuntimeError
  end.

Definition dequeue_and_enqueue (keys : tensor R) : M CLModel unit :=
  batch_size ← lift (py_index (shape keys) 0);
  let batch_size := Z.of_nat batch_size in
  cls ← get_self;
  ptr ← lift (qp ← getattr (queue_ptr cls); py_int qp);
  _ ← lift (r ← py_mod (bank_size (model_args cls)) batch_size;
            py_assert (r =? 0)%Z);
  q ← lift (getattr (queue cls));
  q' ← lift (setitem_rows q ptr (ptr + batch_size) keys);
  _ ← put_self (set_queue q' cls);
  ptr ← lift (py_mod (ptr + batch_size) (bank_size (model_args cls)));
  cls ← get_self;
  qp ← lift (qp ← getattr (queue_ptr cls); setitem0_long qp ptr);
  put_self (set_queue_ptr qp cls).

(** ** The contrastive forward pass: [cl_forward] *)

(** A Python value in a returned tuple. *)
Inductive py_value : Type :=
  | VTensor (t : tensor R)
  | VTensors (ts : list (tensor R)).

(** [outputs.to_tuple()]: the fields that are not [None], in order. *)
Definition to_tuple (o : EncoderOutput) : list py_value :=
  [VTensor (last_hidden_state o)]
  ++ option_list (VTensor <$> pooler_output o)
  ++ option_list (VTensors <$> hidden_states o)
  ++ option_list (VTensors <$> attentions o).

(** What [cl_forward] returns: a plain tuple or a
    [SequenceClassifierOutput]. *)
Inductive CLOutput : Type :=
  | CLTuple (items : list py_value)
  | SequenceClassifierOutput (loss logits : tensor R)
      (hidden_states attentions : option (list (tensor R))).

Definition needs_hidden_states (pooler_type : string) : bool :=
  bool_decide (pooler_type ∈ ["avg_top2"; "avg_first_last"]).

(** [x[:, i]] on an optional argument that is sliced only when given. *)
Definition option_mapM {A B} (f : A → result B) (a : option A)
    : result (option B) :=
  match a with
  | Some x => y ← f x; Ok (Some y)
  | None => Ok None
  end.

(** Lines 141-186: the stronger view.  Returns [stronger_pooler_output]
    (unassigned when [do_stronger] is off) and the rebound [input_ids],
    [attention_mask] and [token_type_ids]. *)
Definition cl_stronger (input_ids attention_mask : tensor Z)
    (token_type_ids : option (tensor Z))
    : M CLModel (option (tensor R) * tensor Z * tensor Z * option (tensor Z)) :=
  cls ← get_self;
  if do_stronger (model_args cls) then
    _ ← bert_set_flag "data_aug_shuffle" (FlagBool true);
    _ ← bert_set_flag "data_aug_cutoff" (FlagBool true);
    _ ← bert_set_flag "data_aug_cutoff.direction" (FlagStr "column");
    _ ← bert_set_flag "data_aug_cutoff.rate"
          (FlagFloat (cutoff_rate (model_args cls)));
    stronger_input_ids ← lift (select input_ids 1 2);
    stronger_attention_mask ← lift (select attention_mask 1 2);
    stronger_token_type_ids ←
      lift (option_mapM (λ t, select t 1 2) token_type_ids);
    stronger_token_type_ids ← lift (local stronger_token_type_ids);
    stronger_outputs ←
      call_encoder self_bert stronger_input_ids stronger_attention_mask
        (Some stronger_token_type_ids)
        (needs_hidden_states (pooler_type (model_args cls)));
    stronger_pooler_output ←
      lift (Pooler_forward (pooler cls) attention_mask stronger_outputs);
    stronger_pooler_output ←
      (if bool_decide (cls_pooler_type cls = "cls")
       then lift (m ← getattr (mlp cls);
                  MLPLayer_forward m stronger_pooler_output)
       else mret stronger_pooler_output);
    input_ids ← lift (select input_ids 1 0);
    attention_mask ← lift (select attention_mask 1 0);
    token_type_ids ← lift (option_mapM (λ t, select t 1 0) token_type_ids);
    mret (Some stronger_pooler_output, input_ids, attention_mask,
          token_type_ids)
  else mret (None, input_ids, attention_mask, token_type_ids).

(** [t.view((-1, t.size(-1)))] *)
Definition flatten_views (t : tensor Z) : result (tensor Z) :=
  n ← size t (-1);
  view t [(-1)%Z; Z.of_nat n].

(** Lines 188-249: encode, pool and split.  Returns [outputs], the
    flattened [attention_mask] and [token_type_ids], [num_sent], and the
    representations [z1] and [z2]. *)
Definition cl_encode (encoder : encoder_ref) (batch_size : nat)
    (input_ids attention_mask : tensor Z) (token_type_ids : option (tensor Z))
    : M CLModel (EncoderOutput * tensor Z * option (tensor Z) * nat
                 * tensor R * tensor R) :=
  cls ← get_self;
  num_sent ← lift (size input_ids 1);
  input_ids ← lift (flatten_views input_ids);
  attention_mask ← lift (flatten_views attention_mask);
  token_type_ids ← lift (option_mapM flatten_views token_type_ids);
  outputs ←
    call_encoder encoder input_ids attention_mask token_type_ids
      (needs_hidden_states (pooler_type (model_args cls)));
  pooler_output ← lift (Pooler_forward (pooler cls) attention_mask outputs);
  pooler_output ←
    lift (h ← size pooler_output (-1);
          view pooler_output
            [Z.of_nat batch_size; Z.of_nat num_sent; Z.of_nat h]);
  pooler_output ←
    (if bool_decide (cls_pooler_type cls = "cls")
     then lift (m ← getattr (mlp cls); MLPLayer_forward m pooler_output)
     else mret pooler_output);
  z1 ← lift (select pooler_output 1 0);
  z2 ← lift (select pooler_output 1 1);
  mret (outputs, attention_mask, token_type_ids, num_sent, z1, z2).

(** Lines 256-302: the masked-prediction view.  The predictor's arg-max
    ids, with position 0 forced to [cls_token] and masked by the attention
    mask, are encoded and pooled. *)
Definition cl_mlm_encode (encoder : encoder_ref) (batch_size : nat)
    (attention_mask : tensor Z) (token_type_ids : option (tensor Z))
    (mlm_input_ids : tensor Z) (cls_token : Z) : M CLModel (tensor R) :=
  cls ← get_self;
  mlm_input_ids ← lift (select mlm_input_ids 1 0);
  attention_mask ← lift (slice0 attention_mask 0 (Z.of_nat batch_size));
  token_type_ids ←
    lift (option_mapM (λ t, slice0 t 0 (Z.of_nat batch_size)) token_type_ids);
  g_pred ← lift (logits ← generator cls mlm_input_ids attention_mask;
                 argmax logits (-1));
  g_pred ← lift (fill_select g_pred 1 0 cls_token);
  e_inputs ← lift (map2 (λ a b, wrap64 (a * b)) g_pred attention_mask);
  mlm_outputs ←
    call_encoder encoder e_inputs attention_mask token_type_ids
      (needs_hidden_states (pooler_type (model_args cls)));
  pooler_mlm_outputs ←
    lift (Pooler_forward (pooler cls) attention_mask mlm_outputs);
  mret pooler_mlm_outputs.

(** Lines 255-308: the two auxiliary branches.  Returns [z3], which stays
    unassigned when neither branch runs. *)
Definition cl_auxiliary (encoder : encoder_ref) (batch_size : nat)
    (attention_mask : tensor Z) (token_type_ids : option (tensor Z))
    (mlm_input_ids : option (tensor Z)) (cls_token : Z)
    (stronger_pooler_output : option (tensor R)) (z1 : tensor R)
    : M CLModel (option (tensor R)) :=
  cls ← get_self;
  z3 ←
    match mlm_input_ids with
    | Some mlm_input_ids =>
        z3 ← cl_mlm_encode encoder batch_size attention_mask token_type_ids
               mlm_input_ids cls_token;
        _ ← dequeue_and_enqueue z1;
        mret (Some z3)
    | None => mret None
    end;
  if do_stronger (model_args cls) then
    z3 ← lift (s ← local stronger_pooler_output; select s 1 0);
    _ ← dequeue_and_enqueue z1;
    mret (Some z3)
  else mret z3.

(** [z_list = [zeros_like(z) ...]; all_gather(z_list, z);
    z_list[rank] = z; torch.cat(z_list, 0)] *)
Definition gather_with_grad (pg : ProcessGroup) (z : tensor R)
    : result (tensor R) :=
  let z_list := all_gather pg z in
  if bool_decide (rank pg < length z_list)
  then cat0 (<[rank pg := z]> z_list)
  else Raise IndexError.

(** Lines 311-332: gathering across workers.  [dist] is the initialised
    process group, if any.  Line 314 reads [z3] in the body of a
    comprehension over [range(dist.get_world_size())]; with no worker the
    body does not run and the first read of [z3] is the one of line 315, in
    the function itself. *)
Definition cl_gather (dist : option ProcessGroup) (training : bool)
    (num_sent : nat) (z1 z2 : tensor R) (z3 : option (tensor R))
    : result (tensor R * tensor R * option (tensor R)) :=
  match dist with
  | Some pg =>
      if training then
        z3 ← (if 3 <=? num_sent
              then z3 ← (if world_size pg =? 0 then local z3
                         else free_variable z3);
                   z3 ← gather_with_grad pg z3; Ok (Some z3)
              else Ok z3);
        z1 ← gather_with_grad pg z1;
        z2 ← gather_with_grad pg z2;
        Ok (z1, z2, z3)
      else Ok (z1, z2, z3)
  | None => Ok (z1, z2, z3)
  end.

(** [cls.sim(a.unsqueeze(1), b.unsqueeze(0))] *)
Definition pairwise_sim (s : Similarity) (a b : tensor R)
    : result (tensor R) :=
  a' ← unsqueeze a 1;
  b' ← unsqueeze b 0;
  Similarity_forward s a' b'.

(** [nn.Softmax()(t)] *)
Definition Softmax_forward (t : tensor R) : result (tensor R) :=
  softmax t (softmax_implicit_dim (dim t)).

(** Lines 345-356: the distillation term against the memory bank.  Returns
    [z2_bank_cos], [z3_bank_cos] and [ld_loss]. *)
Definition cl_ld_loss (cls : CLModel) (z2 : tensor R)
    : result (tensor R * tensor R * tensor R) :=
  z2_bank_cos ← (q ← getattr (queue cls); pairwise_sim (sim cls) z2 q);
  z3_bank_cos ← (q ← getattr (queue cls); pairwise_sim (sim cls) z2 q);
  z2_bank_cos_softmax ← Softmax_forward z2_bank_cos;
  z3_bank_cos_softmax ← Softmax_forward z3_bank_cos;
  z3_bank_cos_log ← t_ (log z3_bank_cos_softmax);
  ld_loss_tenser ← mm z2_bank_cos_softmax z3_bank_cos_log;
  n ← py_index (shape ld_loss_tenser) 0;
  ld_loss ← index_diag ld_loss_tenser;
  total ← py_sum ld_loss;
  (* the sum of no elements is the integer 0, and [0 / 0] raises *)
  _ ← (if n =? 0 then Raise ZeroDivisionError else Ok tt);
  Ok (z2_bank_cos, z3_bank_cos,
      abs (torch.map (λ v, v / INR n)%R total)).

(** Lines 334-380: similarity matrix and loss.  Returns [loss] and
    [cos_sim]. *)
Definition cl_loss (cls : CLModel) (z1 z2 : tensor R)
    : result (tensor R * tensor R) :=
  cos_sim ← pairwise_sim (sim cls) z1 z2;
  let aux := do_stronger (model_args cls) || do_mlm (model_args cls) in
  ld_loss ← (if aux
             then '(_, _, ld_loss) ← cl_ld_loss cls z2; Ok (Some ld_loss)
             else Ok None);
  n ← size cos_sim 0;
  let labels := arange n in
  loss ← cross_entropy cos_sim labels;
  loss ← (if aux
          then ld_loss ← local ld_loss;
               map2 Rplus loss
                 (torch.map (λ v, mlm_weight (model_args cls) * v)%R ld_loss)
          else Ok loss);
  Ok (loss, cos_sim).

Definition cl_forward (dist : option ProcessGroup) (encoder : encoder_ref)
    (input_ids attention_mask : tensor Z) (token_type_ids : option (tensor Z))
    (return_dict : option bool) (mlm_input_ids : option (tensor Z))
    (cls_token : Z) : M CLModel CLOutput :=
  cls ← get_self;
  let return_dict := default (use_return_dict cls) return_dict in
  batch_size ← lift (size input_ids 0);
  '(stronger_pooler_output, input_ids, attention_mask, token_type_ids) ←
    cl_stronger input_ids attention_mask token_type_ids;
  '(outputs, attention_mask, token_type_ids, num_sent, z1, z2) ←
    cl_encode encoder batch_size input_ids attention_mask token_type_ids;
  z3 ← cl_auxiliary encoder batch_size attention_mask token_type_ids
         mlm_input_ids cls_token stronger_pooler_output z1;
  cls ← get_self;
  '(z1, z2, z3) ← lift (cl_gather dist (training cls) num_sent z1 z2 z3);
  '(loss, cos_sim) ← lift (cl_loss cls z1 z2);
  if negb return_dict
  then mret (CLTuple (VTensor loss :: VTensor cos_sim
                        :: drop 2 (to_tuple outputs)))
  else mret (SequenceClassifierOutput loss cos_sim
               (hidden_states outputs) (attentions outputs)).

(** ** The inference pass: [sentemb_forward] *)

Inductive SentEmbOutput : Type :=
  | SentEmbTuple (items : list py_value)
  | BaseModelOutputWithPoolingAndCrossAttentions
      (pooler_output last_hidden_state : tensor R)
      (hidden_states : option (list (tensor R))).

Definition sentemb_forward (encoder : encoder_ref)
    (input_ids attention_mask : tensor Z) (token_type_ids : option (tensor Z))
    (return_dict : option bool) : M CLModel SentEmbOutput :=
  cls ← get_self;
  let return_dict := default (use_return_dict cls) return_dict in
  outputs ←
    call_encoder encoder input_ids attention_mask token_type_ids
      (needs_hidden_states (cls_pooler_type cls));
  pooler_output ← lift (Pooler_forward (pooler cls) attention_mask outputs);
  pooler_output ←
    (if bool_decide (cls_pooler_type cls = "cls")
        && negb (mlp_only_train (model_args cls))
     then lift (m ← getattr (mlp cls); MLPLayer_forward m pooler_output)
     else mret pooler_output);
  if negb return_dict
  then
    first ← lift (py_index (to_tuple outputs) 0);
    mret (SentEmbTuple (first :: VTensor pooler_output
                          :: drop 2 (to_tuple outputs)))
  else mret (BaseModelOutputWithPoolingAndCrossAttentions pooler_output
               (last_hidden_state outputs) (hidden_states outputs)).

(** ** [BertForCL.forward] and [RobertaForCL.forward] *)

Inductive ForwardOutput : Type :=
  | OfSentEmb (o : SentEmbOutput)
  | OfCL (o : CLOutput).

Definition forward_with (encoder : encoder_ref)
    (dist : option ProcessGroup)
    (input_ids attention_mask : tensor Z) (token_type_ids : option (tensor Z))
    (return_dict : option bool) (sent_emb : bool)
    (mlm_input_ids : option (tensor Z)) : M CLModel ForwardOutput :=
  if sent_emb
  then o ← sentemb_forward encoder input_ids attention_mask token_type_ids
             return_dict;
       mret (OfSentEmb o)
  else o ← cl_forward dist encoder input_ids attention_mask token_type_ids
             return_dict mlm_input_ids 101;
       mret (OfCL o).

Definition BertForCL_forward := forward_with self_bert.
Definition RobertaForCL_forward := forward_with self_roberta.

(** ** Specification vocabulary

    The definitions below are not part of the module; the theorems are
    stated with them. *)

(** *** Outcomes *)

(** A computation that raises, and one that leaves the object alone. *)
Definition fails {St A} (m : M St A) (s : St) : Prop :=
  ∃ e s', m s = (Raise e, s').

Definition pure {St A} (m : M St A) : Prop :=
  ∀ s r s', m s = (r, s') → s' = s.

(** *** The memory bank *)

(** The bank of a model: [K] rows of [D] numbers with storage [rows], and
    the write pointer at row [p].  [bank_size] is the number of rows and
    fits a [torch.long]. *)
Definition bank_inv (cls : CLModel) (K D : nat) (rows : list R) (p : nat)
    : Prop :=
  queue cls = Some (Tensor [K; D] rows) ∧ length rows = K * D ∧
  queue_ptr cls = Some (Tensor [1] [Z.of_nat p]) ∧
  bank_size (model_args cls) = Z.of_nat K ∧ 0 < K ∧ (Z.of_nat K < 2 ^ 63)%Z.

(** Row [i] of a matrix with [D] columns stored in [rows]. *)
Definition row {A} (D : nat) (rows : list A) (i : nat) : list A :=
  take D (drop (i * D) rows).

(** The rows that an enqueue call starting at [ptr] with [b] keys writes:
    the slice [ptr:ptr + b]. *)
Definition write_window (ptr : Z) (b : nat) : list nat := seq (Z.to_nat ptr) b.

(** Successive enqueue calls, one per batch of keys; returns the write
    pointer each call started from. *)
Fixpoint enqueue_all (ks : list (tensor R)) : M CLModel (list Z) :=
  match ks with
  | [] => mret []
  | keys :: ks' =>
      cls ← get_self;
      ptr ← lift (qp ← getattr (queue_ptr cls); py_int qp);
      _ ← dequeue_and_enqueue keys;
      ptrs ← enqueue_all ks';
      mret (ptr :: ptrs)
  end.

(** Every attribute of the model other than the bank and its pointer. *)
Definition other_attributes (cls : CLModel) :=
  (use_return_dict cls, model_args cls, training cls, bert cls, encoder_q cls,
   roberta cls, cls_pooler_type cls, pooler cls, mlp cls, sim cls,
   generator cls).

(** *** Pooling *)

Definition Zsum (l : list Z) : Z := foldr Z.add 0%Z l.

(** The mask-weighted mean over the [S] sequence positions, for example [b]
    and hidden coordinate [h], of a batch whose element at offset [o] is
    [x o]: [sum_s x[b,s,h] * mask[b,s] / sum_s mask[b,s]]. *)
Definition weighted_mean (x : nat → R) (mask : tensor Z) (S W b h : nat) : R :=
  (Rsum ((λ s, x ((b * S + s) * W + h)%nat * IZR (get mask (b * S + s)%nat))
         <$> seq 0 S)
   / IZR (Zsum ((λ s, get mask (b * S + s)) <$> seq 0 S)))%R.

(** An attention mask holds zeros and ones. *)
Definition binary_mask (mask : tensor Z) : Prop :=
  Forall (λ z, z = 0 ∨ z = 1)%Z (data mask).

Definition avg_pooler : Pooler := {| pooler_pooler_type := "avg" |}.

Definition avg_first_last_pooler : Pooler :=
  {| pooler_pooler_type := "avg_first_last" |}.

(** [avg_first_last] as the specification words it: the first layer is
    index 0 of the hidden-state stack. *)
Definition avg_first_last_spec (mask : tensor Z) (outputs : EncoderOutput)
    : result (tensor R) :=
  hs ← subscriptable (hidden_states outputs);
  embedding_layer ← py_index hs 0;
  final_layer ← py_index hs (-1);
  s ← map2 Rplus embedding_layer final_layer;
  masked_mean (torch.map (λ v, v / 2)%R s) mask.

(** The pooling modes [Pooler.__init__] accepts. *)
Definition valid_pooler_types : list string :=
  ["cls"; "cls_before_pooler"; "avg"; "avg_top2"; "avg_first_last"].

(** *** Contracts of the collaborators *)

(** What the module relies on from an encoder result for an input of [N]
    sequences of length [S] and hidden size [W]: per-token hidden states,
    and the stack of layers when it was requested. *)
Definition encoder_output_ok (o : EncoderOutput) (N S W : nat) (ohs : bool)
    : Prop :=
  shape (last_hidden_state o) = [N; S; W]
  ∧ (ohs = true →
     ∃ hs, hidden_states o = Some hs ∧ 2 ≤ length hs
           ∧ Forall (λ t, shape t = [N; S; W]) hs).

(** An encoder whose results, when it returns, have these shapes. *)
Definition encoder_shapes (f : encoder_fn) (W : nat) : Prop :=
  ∀ fl ids mask tti ohs N S o,
    shape ids = [N; S] → f fl ids mask tti ohs = Ok o →
    encoder_output_ok o N S W ohs.

(** An encoder that returns such a result on every batch of sequences. *)
Definition encoder_total (f : encoder_fn) (W : nat) : Prop :=
  ∀ fl ids mask tti ohs N S,
    shape ids = [N; S] →
    ∃ o, f fl ids mask tti ohs = Ok o ∧ encoder_output_ok o N S W ohs.

Definition mlp_ok (m : MLPLayer) (W : nat) : Prop :=
  shape (dense_weight m) = [W; W] ∧ shape (dense_bias m) = [W].

(** What [cl_init] establishes: the three copies of the pooling mode agree
    and the mode is one [Pooler.__init__] accepts. *)
Definition model_consistent (cls : CLModel) : Prop :=
  pooler cls = {| pooler_pooler_type := cls_pooler_type cls |}
  ∧ pooler_type (model_args cls) = cls_pooler_type cls
  ∧ cls_pooler_type cls ∈ valid_pooler_types.

(** With mode [cls] the projection head exists and fits the hidden size. *)
Definition projection_ok (cls : CLModel) (W : nat) : Prop :=
  cls_pooler_type cls = "cls" → ∃ m, mlp cls = Some m ∧ mlp_ok m W.

(** *** The two forward passes *)

(** The contrastive pass raises on every input. *)
Definition forward_fails (cls : CLModel) (enc : encoder_ref) : Prop :=
  ∀ dist ids mask tti rd mlm tok,
    fails (cl_forward dist enc ids mask tti rd mlm tok) cls.

(** Cosine similarity of two vectors of length [D], as PyTorch computes
    it. *)
Definition cosine (x y : nat → R) (D : nat) : R :=
  (Rsum ((λ e, x e * y e) <$> seq 0 D)
   / sqrt (Rmax (Rsum ((λ e, x e * x e) <$> seq 0 D)
                 * Rsum ((λ e, y e * y e) <$> seq 0 D))
                (cos_eps * cos_eps)))%R.

(** Temperature-scaled cosine similarity of row [i] of [a] and row [j] of
    [b]. *)
Definition sim_entry (s : Similarity) (a b : tensor R) (D i j : nat) : R :=
  (cosine (λ e, get a (i * D + e)) (λ e, get b (j * D + e)) D / sim_temp s)%R.

(** Entry [(i, j)] of the row-wise softmax of a matrix with [K] columns. *)
Definition softmax_entry (c : tensor R) (K i j : nat) : R :=
  (exp (get c (i * K + j))
   / Rsum ((λ e, exp (get c (i * K + e))) <$> seq 0 K))%R.

(** Entry [(i, i)] of [softmax(c) @ log(softmax(c)).t()]. *)
Definition distill_diag (c : tensor R) (K i : nat) : R :=
  Rsum ((λ k, softmax_entry c K i k * ln (softmax_entry c K i k))%R
        <$> seq 0 K).

(** The absolute value of the average of that diagonal over the [n]
    examples. *)
Definition ld_loss_value (c : tensor R) (n K : nat) : R :=
  Rabs (foldl Rplus 0%R (distill_diag c K <$> seq 0 n) / INR n).

(** The pooled vector in what [sentemb_forward] returns. *)
Definition sentemb_pooled (out : SentEmbOutput) : option (tensor R) :=
  match out with
  | SentEmbTuple (_ :: VTensor p :: _) => Some p
  | SentEmbTuple _ => None
  | BaseModelOutputWithPoolingAndCrossAttentions p _ _ => Some p
  end.

(** The projection [sentemb_forward] applies after pooling. *)
Definition sentemb_projection (cls : CLModel) (p : tensor R)
    : result (tensor R) :=
  if bool_decide (cls_pooler_type cls = "cls")
     && negb (mlp_only_train (model_args cls))
  then m ← getattr (mlp cls); MLPLayer_forward m p
  else Ok p.

(** The projection [cl_forward] applies after pooling. *)
Definition cl_projection (cls : CLModel) (p : tensor R) : result (tensor R) :=
  if bool_decide (cls_pooler_type cls = "cls")
  then m ← getattr (mlp cls); MLPLayer_forward m p
  else Ok p.

(** *** Concrete inputs *)

(** An encoder with hidden size [W] whose hidden state at offset [k] is
    [k]. *)
Definition example_encoder (W : nat) : encoder_fn := λ _ input_ids _ _ ohs,
  match shape input_ids with
  | [N; L] =>
      let layer := tabulate [N; L; W] (λ k, INR k) in
      Ok {| last_hidden_state := layer; pooler_output := None;
            hidden_states := if ohs then Some [layer; layer; layer] else None;
            attentions := None |}
  | _ => Raise RuntimeError
  end.

(** A predictor with a vocabulary of one token. *)
Definition example_generator : generator_fn := λ input_ids _,
  match shape input_ids with
  | [N; L] => Ok (tabulate [N; L; 1] (λ _, 0%R))
  | _ => Raise RuntimeError
  end.

Definition example_args (pt : string) (stronger mlm : bool) (K D : nat)
    : ModelArgs :=
  {| pooler_type := pt; temp := 1; bank_size := Z.of_nat K;
     hidden_len := Z.of_nat D; do_mlm := mlm; do_stronger := stronger;
     mlm_weight := 1; cutoff_rate := 0; mlp_only_train := false |}.

Definition example_pretrained (W : nat) : Pretrained :=
  {| config_use_return_dict := true;
     pretrained_encoder := example_encoder W;
     pretrained_encoder_q := example_encoder W;
     pretrained_dense_weight := tabulate [W; W] (λ _, 0%R);
     pretrained_dense_bias := tabulate [W] (λ _, 0%R);
     pretrained_generator := example_generator;
     randn := λ k, INR (S k) |}.

(** A [BertForCL] object whose bank of [K] rows holds zeros, with the
    pointer at row 0. *)
Definition example_bert (pt : string) (stronger mlm : bool) (K D : nat)
    : CLModel :=
  {| use_return_dict := true;
     model_args := example_args pt stronger mlm K D;
     training := true;
     bert := Some {| flags := ∅; encoder_forward := example_encoder D |};
     encoder_q := Some {| flags := ∅; encoder_forward := example_encoder D |};
     roberta := None;
     queue := Some (tabulate [K; D] (λ _, 0%R));
     queue_ptr := Some (Tensor [1] [0%Z]);
     cls_pooler_type := pt;
     pooler := {| pooler_pooler_type := pt |};
     mlp := (if bool_decide (pt = "cls")
             then Some {| dense_weight := tabulate [D; D] (λ _, 0%R);
                          dense_bias := tabulate [D] (λ _, 0%R) |}
             else None);
     sim := {| sim_temp := 1 |};
     generator := example_generator |}.

(** Two examples, three views, two tokens each, with nothing masked. *)
Definition three_views : tensor Z := tabulate [2; 3; 2] Z.of_nat.
Definition three_views_mask : tensor Z := tabulate [2; 3; 2] (λ _, 1%Z).

(** One token per view. *)
Definition three_short_views : tensor Z := tabulate [2; 3; 1] Z.of_nat.
Definition three_short_views_mask : tensor Z :=
  tabulate [2; 3; 1] (λ _, 1%Z).

(** A batch of [b] keys of width [D] filled with [v]. *)
Definition constant_keys (b D : nat) (v : R) : list R := replicate (b * D) v.

(** Two examples of two views, two tokens each, with nothing masked. *)
Definition two_views : tensor Z := tabulate [2; 2; 2] Z.of_nat.
Definition two_views_mask : tensor Z := tabulate [2; 2; 2] (λ _, 1%Z).

(** A [BertForCL] object in mode [cls] whose projection head is for training
    only ([mlp_only_train]). *)
Definition example_bert_mlp_only_train (K D : nat) : CLModel :=
  {| use_return_dict := true;
     model_args :=
       {| pooler_type := "cls"; temp := 1; bank_size := Z.of_nat K;
          hidden_len := Z.of_nat D; do_mlm := false; do_stronger := false;
          mlm_weight := 1; cutoff_rate := 0; mlp_only_train := true |};
     training := true;
     bert := Some {| flags := ∅; encoder_forward := example_encoder D |};
     encoder_q := Some {| flags := ∅; encoder_forward := example_encoder D |};
     roberta := None;
     queue := Some (tabulate [K; D] (λ _, 0%R));
     queue_ptr := Some (Tensor [1] [0%Z]);
     cls_pooler_type := "cls";
     pooler := {| pooler_pooler_type := "cls" |};
     mlp := Some {| dense_weight := tabulate [D; D] (λ _, 0%R);
                    dense_bias := tabulate [D] (λ _, 0%R) |};
     sim := {| sim_temp := 1 |};
     generator := example_generator |}.

(** One example of one token and hidden size one, with three layers. *)
Definition layer (v : R) : tensor R := Tensor [1; 1; 1] [v].

Definition example_outputs : EncoderOutput :=
  {| last_hidden_state := layer 5; pooler_output := None;
     hidden_states := Some [layer 1; layer 3; layer 5]; attentions := None |}.

Definition example_mask : tensor Z := Tensor [1; 1] [1%Z].

(** ** Vocabulary of the further properties *)

(** *** Outcomes *)

(** A computation that leaves one given object alone. *)
Definition pure_at {St A} (m : M St A) (s : St) : Prop :=
  ∀ r s', m s = (r, s') → s' = s.

(** A computation that keeps a part of the object, whatever its outcome. *)
Definition keeps {St A X} (proj : St → X) (m : M St A) : Prop :=
  ∀ s r s', m s = (r, s') → proj s' = proj s.

(** The exceptions a shape or index mismatch raises. *)
Definition shape_error (e : exn) : Prop :=
  e = IndexError ∨ e = RuntimeError ∨ e = TypeError.

(** *** The memory bank *)

(** A model whose bank has [K] rows of zeros and whose pointer is at row
    [p]. *)
Definition example_bert_at (K D p : nat) : CLModel :=
  set_queue_ptr (Tensor [1] [Z.of_nat p]) (example_bert "avg" false true K D).

(** The squared 2-norm of row [i] of a matrix with [D] columns. *)
Definition row_norm2 (t : tensor R) (D i : nat) : R :=
  Rsum ((λ e, get t (i * D + e) * get t (i * D + e))%R <$> seq 0 D).

(** *** Pooling *)

Definition avg_top2_pooler : Pooler := {| pooler_pooler_type := "avg_top2" |}.

(** *** The forward passes *)

(** Every attribute other than [bert], [queue] and [queue_ptr]. *)
Definition fixed_attributes (cls : CLModel) :=
  (use_return_dict cls, model_args cls, training cls, encoder_q cls,
   roberta cls, cls_pooler_type cls, pooler cls, mlp cls, sim cls,
   generator cls).

(** The loss and the logits in what [cl_forward] returns. *)
Definition cl_output_loss (out : CLOutput) : option (tensor R) :=
  match out with
  | CLTuple (VTensor loss :: _) => Some loss
  | CLTuple _ => None
  | SequenceClassifierOutput loss _ _ _ => Some loss
  end.

Definition cl_output_logits (out : CLOutput) : option (tensor R) :=
  match out with
  | CLTuple (_ :: VTensor logits :: _) => Some logits
  | CLTuple _ => None
  | SequenceClassifierOutput _ logits _ _ => Some logits
  end.

(** Lines 266-270: the arg-max prediction with position 0 forced to
    [cls_token], masked by the attention mask. *)
Definition reconstruct_ids (logits : tensor R) (attention_mask : tensor Z)
    (cls_token : Z) : result (tensor Z) :=
  g_pred ← argmax logits (-1);
  g_pred ← fill_select g_pred 1 0 cls_token;
  map2 (λ a b, wrap64 (a * b)) g_pred attention_mask.

(** Block [k] of [n] elements of a flat list: with [n = B * D], the rows a
    worker contributes to a gathered matrix. *)
Definition block {A} (n : nat) (l : list A) (k : nat) : list A :=
  take n (drop (k * n) l).

(** *** The loss *)

(** The mean over the [n] rows of [-log softmax(c)[i][i]]. *)
Definition info_nce (c : tensor R) (n : nat) : R :=
  (Rsum ((λ i, - ln (softmax_entry c n i i)) <$> seq 0 n) / INR n)%R.

(** The entropy of row [i] of [softmax(c)]. *)
Definition row_entropy (c : tensor R) (K i : nat) : R :=
  Rsum ((λ k, - (softmax_entry c K i k * ln (softmax_entry c K i k)))%R
        <$> seq 0 K).

(** *** Further concrete inputs *)

(** Two examples of four views and of one view, three tokens each. *)
Definition four_views : tensor Z := tabulate [2; 4; 3] Z.of_nat.
Definition one_view : tensor Z := tabulate [2; 1; 3] Z.of_nat.

(** Two workers; this one has rank 1 and receives zeros from the other. *)
Definition example_group : ProcessGroup :=
  {| world_size := 2; rank := 1;
     all_gather := λ z, [torch.map (λ _, 0%R) z; z] |}.

(** ** Tensor operations *)

Lemma get_tabulate {A} `{Inhabited A} sh (f : nat → A) k :
  k < numel sh → get (tabulate sh f) k = f k.
Proof.
  intros Hk. unfold get, tabulate. simpl.
  apply list_lookup_total_correct.
  rewrite list_lookup_fmap, lookup_seq_lt by done. done.
Qed.

Lemma wf_tabulate {A} sh (f : nat → A) : wf (tabulate sh f).
Proof. unfold wf, tabulate. simpl. by rewrite length_fmap, length_seq. Qed.

Lemma get_map {A B} `{Inhabited A, Inhabited B} (f : A → B) (t : tensor A) k :
  k < length (data t) → get (torch.map f t) k = f (get t k).
Proof.
  intros Hk. unfold get, torch.map. simpl.
  apply list_lookup_total_correct. rewrite list_lookup_fmap.
  by rewrite (list_lookup_lookup_total_lt (data t) k Hk).
Qed.

Lemma div_mod_offset o n j : j < n → (o * n + j) / n = o ∧ (o * n + j) mod n = j.
Proof.
  intros Hj. split.
  - symmetry. apply (Nat.div_unique _ _ _ j); lia.
  - symmetry. apply (Nat.mod_unique _ _ o); lia.
Qed.

Lemma wrap_dim_nonneg n (d : Z) :
  (0 ≤ d < Z.of_nat n)%Z → wrap_dim n d = Ok (Z.to_nat d).
Proof.
  intros Hd. unfold wrap_dim.
  replace ((0 <=? d)%Z && (d <? Z.of_nat n)%Z) with true; [done|].
  symmetry. apply andb_true_iff. split; [apply Z.leb_le|apply Z.ltb_lt]; lia.
Qed.

Lemma wrap_dim_neg n (d : Z) :
  (- Z.of_nat n ≤ d < 0)%Z → wrap_dim n d = Ok (Z.to_nat (Z.of_nat n + d)).
Proof.
  intros Hd. unfold wrap_dim.
  replace ((0 <=? d)%Z && (d <? Z.of_nat n)%Z) with false.
  2:{ symmetry. apply andb_false_iff. left. apply Z.leb_gt. lia. }
  replace ((- Z.of_nat n <=? d)%Z && (d <? 0)%Z) with true; [done|].
  symmetry. apply andb_true_iff. split; [apply Z.leb_le|apply Z.ltb_lt]; lia.
Qed.

Lemma broadcast_last_one (pre : list nat) W :
  broadcast_aligned (pre ++ [W]) (pre ++ [1]) = Ok (pre ++ [W]).
Proof.
  induction pre as [|d pre IH]; simpl.
  - destruct (W =? 1) eqn:E; [|done]. simpl.
    apply Nat.eqb_eq in E. by subst.
  - rewrite IH. simpl. by rewrite Nat.eqb_refl.
Qed.

Lemma unsqueeze_last {A} (t : tensor A) :
  unsqueeze t (-1) = Ok (Tensor (shape t ++ [1]) (data t)).
Proof.
  unfold unsqueeze. rewrite wrap_dim_neg by lia. simpl.
  replace (Z.to_nat (Z.of_nat (S (dim t)) + -1)) with (length (shape t))
    by (unfold dim; lia).
  by rewrite take_ge, drop_ge by done.
Qed.

Lemma map2_eval {A B C} `{Inhabited A, Inhabited B}
    (f : A → B → C) (a : tensor A) (b : tensor B) sh :
  broadcast_shapes (shape a) (shape b) = Ok sh →
  map2 f a b = Ok (tabulate sh (λ k, f (bget a sh k) (bget b sh k))).
Proof. intros Hsh. unfold map2. by rewrite Hsh. Qed.

Lemma reduce_dim_eval {A B} `{Inhabited A} (f : list A → B) (t : tensor A)
    d i :
  wrap_dim (dim t) d = Ok i →
  reduce_dim f t d =
    Ok (tabulate (remove_dim (shape t) i)
          (λ k, f ((λ e, get t (offset_at (shape t) i e k))
                     <$> seq 0 (extent (shape t) i)))).
Proof. intros Hd. unfold reduce_dim. by rewrite Hd. Qed.

Lemma bindex_id sh k : k < numel sh → bindex sh sh k = k.
Proof.
  revert k. induction sh as [|d sh IH]; intros k Hk; simpl in *.
  - lia.
  - destruct (Nat.eq_dec (numel sh) 0) as [Hz|Hz].
    { rewrite Hz in Hk. lia. }
    rewrite IH by (apply Nat.mod_upper_bound; done).
    destruct (d =? 1) eqn:Hd.
    + apply Nat.eqb_eq in Hd. subst d.
      rewrite Nat.mod_small by lia. lia.
    + pose proof (Nat.div_mod_eq k (numel sh)). lia.
Qed.

Lemma pad_shape_same sh : pad_shape (length sh) sh = sh.
Proof. unfold pad_shape. by rewrite Nat.sub_diag. Qed.

Lemma bget_same {A} `{Inhabited A} (t : tensor A) sh k :
  shape t = sh → k < numel sh → bget t sh k = get t k.
Proof.
  intros <- Hk. unfold bget. by rewrite pad_shape_same, bindex_id.
Qed.

Lemma numel_app sh1 sh2 : numel (sh1 ++ sh2) = numel sh1 * numel sh2.
Proof.
  induction sh1 as [|d sh1 IH]; simpl; [lia|]. rewrite IH. lia.
Qed.

Lemma bindex_last_one pre W o h :
  o < numel pre → h < W → bindex (pre ++ [1]) (pre ++ [W]) (o * W + h) = o.
Proof.
  revert o. induction pre as [|d pre IH]; intros o Ho Hh.
  - simpl in *. lia.
  - cbn [app bindex]. rewrite !numel_app.
    change (numel (d :: pre)) with (d * numel pre) in Ho.
    change (numel [1]) with (1 * 1). change (numel [W]) with (W * 1).
    rewrite !Nat.mul_1_r.
    set (P := numel pre) in *.
    assert (HP : 0 < P) by (destruct P; lia).
    pose proof (Nat.div_mod_eq o P) as Ho'.
    pose proof (Nat.mod_upper_bound o P ltac:(lia)) as Hr.
    set (q := o / P) in *. set (r := o mod P) in *.
    assert (Hk : o * W + h = q * (P * W) + (r * W + h)) by nia.
    destruct (div_mod_offset q (P * W) (r * W + h) ltac:(nia)) as [Hq Hm].
    rewrite Hk, Hq, Hm, IH by done.
    destruct (d =? 1) eqn:Hd; [|lia].
    apply Nat.eqb_eq in Hd. subst d. assert (q = 0) by nia. lia.
Qed.

Lemma bget_last_one {A} `{Inhabited A} (t : tensor A) pre W o h :
  shape t = pre ++ [1] → o < numel pre → h < W →
  bget t (pre ++ [W]) (o * W + h) = get t o.
Proof.
  intros Ht Ho Hh. unfold bget. rewrite Ht.
  replace (length (pre ++ [W])) with (length (pre ++ [1]))
    by (by rewrite !length_app).
  by rewrite pad_shape_same, bindex_last_one.
Qed.

Lemma get_to_float (t : tensor Z) k :
  k < length (data t) → get (to_float t) k = IZR (get t k).
Proof. apply get_map. Qed.

Lemma get_reshape {A} `{Inhabited A} sh (t : tensor A) k :
  get (Tensor sh (data t)) k = get t k.
Proof. done. Qed.

Lemma offset2_lt b B s S : b < B → s < S → b * S + s < B * S.
Proof. intros. nia. Qed.

Lemma offset3_lt b B s S h W :
  b < B → s < S → h < W → (b * S + s) * W + h < numel [B; S; W].
Proof.
  intros. pose proof (offset2_lt b B s S). cbn [numel foldr].
  apply (Nat.lt_le_trans _ (B * S * W)); [|lia].
  apply offset2_lt; auto.
Qed.

Lemma offset_at_mid B S W e b h :
  h < W → offset_at [B; S; W] 1 e (b * W + h) = (b * S + e) * W + h.
Proof.
  intros Hh. unfold offset_at, inner, extent. cbn [drop numel foldr].
  rewrite Nat.mul_1_r.
  destruct (div_mod_offset b W h Hh) as [-> ->]. done.
Qed.

Lemma offset_at_last B S e b : offset_at [B; S] 1 e b = b * S + e.
Proof.
  unfold offset_at, inner, extent. cbn [drop numel foldr].
  rewrite Nat.div_1_r, Nat.mod_1_r.
  change ([B; S] !!! 1) with S. lia.
Qed.

Lemma fmap_lookup_total_seq {A} `{Inhabited A} (l : list A) :
  (λ k, l !!! k) <$> seq 0 (length l) = l.
Proof.
  apply list_eq. intros i. rewrite list_lookup_fmap.
  destruct (decide (i < length l)) as [Hi|Hi].
  - rewrite lookup_seq_lt by done. simpl.
    symmetry. by apply list_lookup_lookup_total_lt.
  - rewrite lookup_seq_ge by lia. simpl. symmetry.
    apply lookup_ge_None. lia.
Qed.

Lemma tabulate_data {A} `{Inhabited A} sh (f : nat → A) (l : list A) :
  length l = numel sh →
  (∀ k, k < numel sh → f k = l !!! k) →
  tabulate sh f = Tensor sh l.
Proof.
  intros Hl Hf. unfold tabulate. f_equal.
  etrans; [|apply (fmap_lookup_total_seq l)]. rewrite Hl.
  apply list_fmap_ext. intros i k Hk.
  apply lookup_seq in Hk as [-> Hk]. by apply Hf.
Qed.

Lemma length_strip_ones sh : length (strip_ones sh) ≤ length sh.
Proof.
  induction sh as [|d sh IH]; simpl; [lia|].
  destruct d as [|[|d]]; simpl; lia.
Qed.

Lemma pad_strip_ones sh : pad_shape (length sh) (strip_ones sh) = sh.
Proof.
  unfold pad_shape. induction sh as [|d sh IH]; simpl; [done|].
  destruct d as [|[|d]]; simpl; try (by rewrite Nat.sub_diag).
  pose proof (length_strip_ones sh).
  replace (S (length sh) - length (strip_ones sh))
    with (S (length sh - length (strip_ones sh))) by lia.
  simpl. by rewrite IH.
Qed.

Lemma broadcast_aligned_refl sh : broadcast_aligned sh sh = Ok sh.
Proof.
  induction sh as [|d sh IH]; simpl; [done|].
  rewrite IH. simpl. by rewrite Nat.eqb_refl.
Qed.

Lemma broadcast_strip_ones sh : broadcast_shapes (strip_ones sh) sh = Ok sh.
Proof.
  unfold broadcast_shapes. pose proof (length_strip_ones sh).
  rewrite Nat.max_r by done.
  rewrite pad_strip_ones, pad_shape_same. apply broadcast_aligned_refl.
Qed.

Lemma expand_same {A} `{Inhabited A} (v : tensor A) :
  wf v → expand v (shape v) = Ok v.
Proof.
  intros Hwf. unfold expand.
  rewrite bool_decide_eq_true_2 by apply length_strip_ones.
  rewrite broadcast_strip_ones. simpl.
  rewrite bool_decide_eq_true_2 by done.
  f_equal. destruct v as [sh l]. simpl in *.
  apply tabulate_data; [done|].
  intros k Hk. unfold get. simpl.
  by rewrite pad_strip_ones, bindex_id.
Qed.

Lemma clamp_index_in n i : i ≤ n → clamp_index n (Z.of_nat i) = i.
Proof.
  intros Hi. unfold clamp_index.
  replace (Z.of_nat i <? 0)%Z with false by (symmetry; apply Z.ltb_ge; lia).
  lia.
Qed.

Lemma slice_bounds_in n lo hi :
  lo ≤ hi → hi ≤ n → slice_bounds n (Z.of_nat lo) (Z.of_nat hi) = (lo, hi).
Proof.
  intros H1 H2. unfold slice_bounds.
  rewrite !clamp_index_in by lia. f_equal. lia.
Qed.

(** ** Running a computation step by step *)

Section monad_steps.
Context {St A B : Type}.
Implicit Types (f : A → M St B) (s : St).

Lemma bind_lift_Ok (r : result A) f s a :
  r = Ok a → (lift r ≫= f) s = f a s.
Proof. by intros ->. Qed.

Lemma bind_lift_Raise (r : result A) f s e :
  r = Raise e → (lift r ≫= f) s = (Raise e, s).
Proof. by intros ->. Qed.

Lemma bind_mret (a : A) f s : (mret a ≫= f) s = f a s.
Proof. done. Qed.
End monad_steps.

Lemma bind_get_self {St B} (f : St → M St B) s : (get_self ≫= f) s = f s s.
Proof. done. Qed.

Lemma bind_put_self {St B} (f : unit → M St B) s s' :
  (put_self s' ≫= f) s = f tt s'.
Proof. done. Qed.

(** ** The memory bank *)

Lemma dequeue_and_enqueue_ok cls K D rows p b kd :
  bank_inv cls K D rows p →
  0 < b → (Z.of_nat K mod Z.of_nat b = 0)%Z → p + b ≤ K →
  length kd = b * D →
  dequeue_and_enqueue (Tensor [b; D] kd) cls =
    (Ok tt,
     set_queue_ptr (Tensor [1] [((Z.of_nat p + Z.of_nat b) mod Z.of_nat K)%Z])
       (set_queue (Tensor [K; D]
                     (take (p * D) rows ++ kd ++ drop ((p + b) * D) rows))
          cls)).
Proof.
  intros (Hq & Hlen & Hp & HK & HK0 & HK63) Hb Hdiv Hpb Hkd.
  unfold dequeue_and_enqueue.
  rewrite (bind_lift_Ok _ _ _ b) by done.
  rewrite bind_get_self.
  rewrite (bind_lift_Ok _ _ _ (Z.of_nat p)) by (by rewrite Hp).
  rewrite (bind_lift_Ok _ _ _ tt).
  2:{ rewrite HK. unfold py_mod.
      replace (Z.of_nat b =? 0)%Z with false
        by (symmetry; apply Z.eqb_neq; lia).
      simpl. by rewrite Hdiv. }
  rewrite (bind_lift_Ok _ _ _ (Tensor [K; D] rows)) by (by rewrite Hq).
  rewrite (bind_lift_Ok _ _ _
    (Tensor [K; D] (take (p * D) rows ++ kd ++ drop ((p + b) * D) rows))).
  2:{ unfold setitem_rows. cbn [shape].
      rewrite <- Nat2Z.inj_add, slice_bounds_in by lia.
      replace (p + b - p) with b by lia.
      rewrite (expand_same (Tensor [b; D] kd)) by (unfold wf; simpl; lia).
      simpl. by rewrite !Nat.mul_1_r. }
  rewrite bind_put_self.
  rewrite (bind_lift_Ok _ _ _ ((Z.of_nat p + Z.of_nat b) mod Z.of_nat K)%Z).
  2:{ rewrite HK. unfold py_mod.
      by replace (Z.of_nat K =? 0)%Z with false
        by (symmetry; apply Z.eqb_neq; lia). }
  rewrite bind_get_self.
  rewrite (bind_lift_Ok _ _ _
    (Tensor [1] [((Z.of_nat p + Z.of_nat b) mod Z.of_nat K)%Z])).
  2:{ cbn [set_queue queue_ptr]. rewrite Hp. cbn -[Z.modulo Z.pow].
      rewrite bool_decide_eq_true_2; [done|].
      pose proof (Z.mod_pos_bound (Z.of_nat p + Z.of_nat b) (Z.of_nat K)).
      lia. }
  done.
Qed.

Lemma bank_inv_enqueued cls K D rows p b kd :
  bank_inv cls K D rows p → p + b ≤ K → length kd = b * D →
  bank_inv
    (set_queue_ptr (Tensor [1] [((Z.of_nat p + Z.of_nat b) mod Z.of_nat K)%Z])
       (set_queue (Tensor [K; D]
                     (take (p * D) rows ++ kd ++ drop ((p + b) * D) rows))
          cls))
    K D (take (p * D) rows ++ kd ++ drop ((p + b) * D) rows)
    ((p + b) mod K).
Proof.
  intros (Hq & Hlen & Hp & HK & HK0 & HK63) Hpb Hkd.
  repeat split; simpl; try done.
  - rewrite !length_app, length_take, length_drop. nia.
  - by rewrite Nat2Z.inj_mod, Nat2Z.inj_add.
Qed.

Lemma enqueue_all_cons keys ks cls ptr cls1 :
  (qp ← getattr (queue_ptr cls); py_int qp) = Ok ptr →
  dequeue_and_enqueue keys cls = (Ok tt, cls1) →
  enqueue_all (keys :: ks) cls =
    match enqueue_all ks cls1 with
    | (Ok ptrs, s) => (Ok (ptr :: ptrs), s)
    | (Raise e, s) => (Raise e, s)
    end.
Proof.
  intros Hptr Hrun. cbn [enqueue_all]. rewrite bind_get_self.
  rewrite (bind_lift_Ok _ _ _ ptr) by done.
  unfold mbind at 1, M_bind at 1. rewrite Hrun.
  unfold mbind at 1, M_bind at 1. by destruct (enqueue_all ks cls1) as [[]].
Qed.

Lemma enqueue_all_ok ks : ∀ cls K D rows p b,
  bank_inv cls K D rows p →
  0 < b → (Z.of_nat K mod Z.of_nat b = 0)%Z →
  p + length ks * b ≤ K →
  Forall (λ kd, length kd = b * D) ks →
  ∃ cls',
    enqueue_all (Tensor [b; D] <$> ks) cls =
      (Ok ((λ j, Z.of_nat (p + j * b)) <$> seq 0 (length ks)), cls')
    ∧ bank_inv cls' K D
        (take (p * D) rows ++ mjoin ks
         ++ drop ((p + length ks * b) * D) rows)
        (if decide (ks = []) then p else (p + length ks * b) mod K)
    ∧ other_attributes cls' = other_attributes cls.
Proof.
  induction ks as [|kd ks IH]; intros cls K D rows p b Hinv Hb Hdiv Hfit Hks.
  - exists cls. simpl. split; [done|]. split; [|done].
    rewrite Nat.add_0_r, take_drop. done.
  - apply Forall_cons in Hks as [Hkd Hks]. simpl in Hfit.
    pose proof (bank_inv_enqueued cls K D rows p b kd Hinv ltac:(lia) Hkd)
      as Hinv'.
    pose proof Hinv as (Hq & Hlen & Hp & HK & HK0 & HK63).
    rewrite fmap_cons.
    rewrite (enqueue_all_cons _ _ _ (Z.of_nat p) _ ltac:(by rewrite Hp)
               (dequeue_and_enqueue_ok cls K D rows p b kd Hinv Hb Hdiv
                  ltac:(lia) Hkd)).
    destruct (decide (ks = [])) as [->|Hne].
    + eexists. simpl. split; [by rewrite Nat.add_0_r|].
      split; [|done].
      rewrite app_nil_r. by replace (p + (b + 0)) with (p + b) by lia.
    + assert (0 < length ks) by (destruct ks; simpl; [done|lia]).
      assert (Hsmall : (p + b) mod K = p + b) by (apply Nat.mod_small; nia).
      rewrite Hsmall in Hinv'.
      destruct (IH _ K D _ (p + b) b Hinv' Hb Hdiv ltac:(lia) Hks)
        as (cls' & Hrun & Hinv'' & Hoth).
      exists cls'. rewrite Hrun.
      split; [|split].
      * do 2 f_equal. cbn [length seq fmap list_fmap]. f_equal; [f_equal; lia|].
        rewrite <- fmap_S_seq, <- list_fmap_compose.
        apply list_fmap_ext. intros; simpl. f_equal. lia.
      * rewrite decide_False by done.
        change (mjoin (kd :: ks)) with (kd ++ mjoin ks). cbn [length].
        change (S (length ks) * b) with (b + length ks * b).
        replace (p + b + length ks * b) with (p + (b + length ks * b))
          in Hinv'' by lia.
        assert (Hl1 : length (take (p * D) rows) = p * D)
          by (rewrite length_take; nia).
        replace (take ((p + b) * D)
                   (take (p * D) rows ++ kd ++ drop ((p + b) * D) rows))
          with (take (p * D) rows ++ kd) in Hinv''.
        2:{ rewrite app_assoc. rewrite take_app_length'; [done|].
            rewrite length_app. lia. }
        replace (drop ((p + (b + length ks * b)) * D)
                   (take (p * D) rows ++ kd ++ drop ((p + b) * D) rows))
          with (drop ((p + (b + length ks * b)) * D) rows) in Hinv''.
        2:{ rewrite app_assoc.
            rewrite drop_app_ge by (rewrite length_app; nia).
            rewrite length_app, Hl1, Hkd, drop_drop. f_equal. nia. }
        rewrite <- !app_assoc in Hinv''. by rewrite <- app_assoc.
      * rewrite Hoth. done.
Qed.

Lemma row_outside {A} (D lo hi : nat) (rows v : list A) i :
  lo * D ≤ length rows → length v = (hi - lo) * D → lo ≤ hi →
  i < lo ∨ hi ≤ i →
  row D (take (lo * D) rows ++ v ++ drop (hi * D) rows) i = row D rows i.
Proof.
  intros Hlen Hv Hle [Hi|Hi]; unfold row.
  - assert (Hl : length (take (lo * D) rows) = lo * D)
      by (rewrite length_take; lia).
    rewrite drop_app_le by nia.
    rewrite take_app_le by (rewrite length_drop; nia).
    rewrite !take_drop_commute.
    by rewrite take_take, Nat.min_l by nia.
  - assert (Hl : length (take (lo * D) rows ++ v) = hi * D)
      by (rewrite length_app, length_take; nia).
    rewrite app_assoc, drop_app_ge by nia.
    rewrite Hl, drop_drop. do 2 f_equal. nia.
Qed.

Lemma expand_Ok {A} `{Inhabited A} (v v' : tensor A) tgt :
  expand v tgt = Ok v' → shape v' = tgt ∧ length (data v') = numel tgt.
Proof.
  unfold expand. case_bool_decide; [|done].
  destruct (broadcast_shapes _ _) as [sh|]; [|done]. simpl.
  case_bool_decide; [|done]. intros [= <-]. simpl.
  by rewrite length_fmap, length_seq.
Qed.

Lemma clamp_index_nat n i : clamp_index n (Z.of_nat i) = i `min` n.
Proof.
  unfold clamp_index.
  replace (Z.of_nat i <? 0)%Z with false by (symmetry; apply Z.ltb_ge; lia).
  lia.
Qed.

(** The bank of [example_bert]. *)
Lemma example_bert_bank pt stronger mlm K D :
  0 < K → (Z.of_nat K < 2 ^ 63)%Z →
  bank_inv (example_bert pt stronger mlm K D) K D
    ((λ _, 0%R) <$> seq 0 (K * (D * 1))) 0.
Proof.
  intros HK HK63. repeat split; try done.
  rewrite length_fmap, length_seq. lia.
Qed.

(** C10: an enqueue call with [b] keys, [b] dividing [bank_size], and the
    pointer at row [p] leaves every bank row outside [p, p + b) as it was,
    and changes no attribute of the model other than [queue] and
    [queue_ptr]. *)
Theorem enqueue_frame cls K D rows p keys b r cls' :
  bank_inv cls K D rows p →
  py_index (shape keys) 0 = Ok b →
  0 < b → (Z.of_nat K mod Z.of_nat b = 0)%Z →
  dequeue_and_enqueue keys cls = (r, cls') →
  other_attributes cls' = other_attributes cls
  ∧ ∃ rows' ptr',
      queue cls' = Some (Tensor [K; D] rows')
      ∧ length rows' = K * D
      ∧ queue_ptr cls' = Some (Tensor [1] [ptr'])
      ∧ ∀ i, i < K → ¬ (p ≤ i < p + b) → row D rows' i = row D rows i.
Proof.
  intros Hinv Hb0 Hb Hdiv.
  pose proof Hinv as (Hq & Hlen & Hp & HK & HK0 & HK63).
  assert (Hsame : other_attributes cls = other_attributes cls
    ∧ ∃ rows' ptr',
        queue cls = Some (Tensor [K; D] rows')
        ∧ length rows' = K * D
        ∧ queue_ptr cls = Some (Tensor [1] [ptr'])
        ∧ ∀ i, i < K → ¬ (p ≤ i < p + b) → row D rows' i = row D rows i)
    by (split; [done|]; by exists rows, (Z.of_nat p)).
  unfold dequeue_and_enqueue.
  rewrite (bind_lift_Ok _ _ _ b) by done.
  rewrite bind_get_self.
  rewrite (bind_lift_Ok _ _ _ (Z.of_nat p)) by (by rewrite Hp).
  rewrite (bind_lift_Ok _ _ _ tt).
  2:{ rewrite HK. unfold py_mod.
      replace (Z.of_nat b =? 0)%Z with false
        by (symmetry; apply Z.eqb_neq; lia).
      simpl. by rewrite Hdiv. }
  rewrite (bind_lift_Ok _ _ _ (Tensor [K; D] rows)) by (by rewrite Hq).
  destruct (setitem_rows (Tensor [K; D] rows) (Z.of_nat p)
              (Z.of_nat p + Z.of_nat b) keys) as [q'|e] eqn:Hset.
  2:{ rewrite (bind_lift_Raise _ _ _ e) by done. by intros [= <- <-]. }
  rewrite (bind_lift_Ok _ _ _ q') by done.
  unfold setitem_rows in Hset. cbn [shape] in Hset.
  rewrite <- Nat2Z.inj_add in Hset. unfold slice_bounds in Hset.
  rewrite !clamp_index_nat in Hset.
  set (lo := p `min` K) in *.
  set (hi := lo `max` ((p + b) `min` K)) in *.
  destruct (expand keys [hi - lo; D]) as [v'|] eqn:Hexp; [|done].
  apply expand_Ok in Hexp as [_ Hv']. simpl in Hv', Hset.
  rewrite !Nat.mul_1_r in *. injection Hset as <-.
  rewrite bind_put_self.
  rewrite (bind_lift_Ok _ _ _ ((Z.of_nat p + Z.of_nat b) mod Z.of_nat K)%Z).
  2:{ rewrite HK. unfold py_mod.
      by replace (Z.of_nat K =? 0)%Z with false
        by (symmetry; apply Z.eqb_neq; lia). }
  rewrite bind_get_self.
  rewrite (bind_lift_Ok _ _ _
    (Tensor [1] [((Z.of_nat p + Z.of_nat b) mod Z.of_nat K)%Z])).
  2:{ cbn [set_queue queue_ptr]. rewrite Hp. cbn -[Z.modulo Z.pow].
      rewrite bool_decide_eq_true_2; [done|].
      pose proof (Z.mod_pos_bound (Z.of_nat p + Z.of_nat b) (Z.of_nat K)).
      lia. }
  intros [= <- <-]. split; [done|].
  eexists _, _. cbn [set_queue set_queue_ptr queue queue_ptr].
  split; [done|]. split; [|split; [done|]].
  - rewrite !length_app, length_take, length_drop. nia.
  - intros i Hi Hout. apply row_outside; [nia|nia|lia|lia].
Qed.

Lemma enqueue_frame_witness :
  let cls := example_bert "avg" false true 16 8 in
  let cls' := (dequeue_and_enqueue (Tensor [4; 8] (constant_keys 4 8 1)) cls).2
  in other_attributes cls' = other_attributes cls.
Proof.
  intros cls cls'.
  apply (enqueue_frame cls 16 8 _ 0 (Tensor [4; 8] (constant_keys 4 8 1)) 4
           (dequeue_and_enqueue (Tensor [4; 8] (constant_keys 4 8 1)) cls).1
           cls'
           (example_bert_bank "avg" false true 16 8 ltac:(lia) eq_refl)
           eq_refl ltac:(lia) eq_refl).
  unfold cls'. by destruct (dequeue_and_enqueue _ cls).
Defined.

(** C5: an enqueue call with [b] keys, [b] not dividing [bank_size],
    raises and leaves the model, so the bank and the pointer, unchanged.
    The exception is [AssertionError] from line 103, or [ZeroDivisionError]
    from the modulo when the batch is empty. *)
Theorem enqueue_indivisible cls keys b :
  py_index (shape keys) 0 = Ok b →
  ¬ (Z.of_nat b | bank_size (model_args cls))%Z →
  ∃ e, dequeue_and_enqueue keys cls = (Raise e, cls)
       ∧ ∀ ptr, (qp ← getattr (queue_ptr cls); py_int qp) = Ok ptr →
                e = if b =? 0 then ZeroDivisionError else AssertionError.
Proof.
  intros Hb Hndiv. unfold dequeue_and_enqueue.
  rewrite (bind_lift_Ok _ _ _ b) by done.
  rewrite bind_get_self.
  destruct (qp ← getattr (queue_ptr cls); py_int qp) as [ptr|e] eqn:Hptr.
  2:{ exists e. rewrite (bind_lift_Raise _ _ _ e) by done. done. }
  rewrite (bind_lift_Ok _ _ _ ptr) by done.
  exists (if b =? 0 then ZeroDivisionError else AssertionError).
  split; [|done].
  apply bind_lift_Raise. unfold py_mod.
  destruct (b =? 0) eqn:Hb0.
  - apply Nat.eqb_eq in Hb0. by subst b.
  - apply Nat.eqb_neq in Hb0.
    replace (Z.of_nat b =? 0)%Z with false
      by (symmetry; apply Z.eqb_neq; lia).
    simpl. unfold py_assert.
    destruct (_ =? 0)%Z eqn:Hm; [|done].
    apply Z.eqb_eq in Hm. destruct Hndiv.
    apply Z.mod_divide; [lia|done].
Qed.

Lemma enqueue_indivisible_witness :
  ∃ e, dequeue_and_enqueue (Tensor [3; 8] (constant_keys 3 8 1))
         (example_bert "avg" false true 16 8)
       = (Raise e, example_bert "avg" false true 16 8)
       ∧ e = AssertionError.
Proof.
  destruct (enqueue_indivisible (example_bert "avg" false true 16 8)
              (Tensor [3; 8] (constant_keys 3 8 1)) 3 eq_refl)
    as (e & Hrun & He).
  { intros [k Hk]. simpl in Hk. lia. }
  exists e. split; [exact Hrun|]. apply (He 0%Z eq_refl).
Defined.

Lemma join_write_windows b n a :
  mjoin ((λ ptr, write_window ptr b)
           <$> ((λ j, Z.of_nat (a + j * b)) <$> seq 0 n))
  = seq a (n * b).
Proof.
  revert a. induction n as [|n IH]; intros a; [done|].
  cbn [seq fmap list_fmap mjoin list_join].
  rewrite <- fmap_S_seq, <- !list_fmap_compose.
  unfold write_window at 1. rewrite Nat2Z.id, Nat.add_0_r.
  change (S n * b) with (b + n * b). rewrite seq_app. f_equal.
  rewrite <- (IH (a + b)). rewrite <- list_fmap_compose.
  f_equal. apply list_fmap_ext. intros _ j _. simpl. do 2 f_equal. lia.
Qed.

(** C2: with the pointer at row 0 and [b] dividing [bank_size], one
    enqueue call of [b] keys leaves the keys in rows [0, b) and the pointer
    at [b mod bank_size]; after [bank_size / b] successive calls the pointer
    is back at 0, the bank holds the batches in order, and the written
    windows together list every row once. *)
Theorem enqueue_cycle cls K D rows b :
  bank_inv cls K D rows 0 →
  0 < b → (Z.of_nat K mod Z.of_nat b = 0)%Z →
  (∀ kd, length kd = b * D →
     ∃ cls' rows',
       dequeue_and_enqueue (Tensor [b; D] kd) cls = (Ok tt, cls')
       ∧ queue cls' = Some (Tensor [K; D] rows')
       ∧ take (b * D) rows' = kd
       ∧ queue_ptr cls' = Some (Tensor [1] [(Z.of_nat b mod Z.of_nat K)%Z]))
  ∧ (∀ ks, length ks = K / b → Forall (λ kd, length kd = b * D) ks →
     ∃ ptrs cls',
       enqueue_all (Tensor [b; D] <$> ks) cls = (Ok ptrs, cls')
       ∧ queue_ptr cls' = Some (Tensor [1] [0%Z])
       ∧ queue cls' = Some (Tensor [K; D] (mjoin ks))
       ∧ mjoin ((λ ptr, write_window ptr b) <$> ptrs) = seq 0 K).
Proof.
  intros Hinv Hb Hdiv.
  pose proof Hinv as (Hq & Hlen & Hp & HK & HK0 & HK63).
  assert (HKb : K = K / b * b).
  { rewrite <- Nat2Z.inj_mod in Hdiv.
    pose proof (Nat.div_mod_eq K b). lia. }
  assert (b ≤ K) by (destruct (K / b); [lia|nia]).
  split.
  - intros kd Hkd. eexists _, _.
    split; [by apply (dequeue_and_enqueue_ok cls K D rows 0 b kd)|].
    cbn [set_queue set_queue_ptr queue queue_ptr].
    split; [done|]. split; [|done].
    simpl. by rewrite take_app_length'.
  - intros ks Hn Hks.
    destruct (enqueue_all_ok ks cls K D rows 0 b Hinv Hb Hdiv
                ltac:(lia) Hks) as (cls' & Hrun & Hinv' & _).
    eexists _, cls'. split; [exact Hrun|].
    rewrite join_write_windows, Hn, <- HKb.
    destruct Hinv' as (Hq' & _ & Hp' & _).
    rewrite Hq', Hp'. rewrite Nat.add_0_l, Hn, <- HKb in *.
    rewrite drop_ge by lia. rewrite app_nil_r. simpl.
    split; [|done].
    destruct (decide (ks = [])); [done|].
    by rewrite Nat.Div0.mod_same.
Qed.

(** A bank of 16 rows of width 8 and four batches of four keys filled with
    1, 2, 3 and 4. *)
Lemma enqueue_cycle_witness :
  ∃ ptrs cls',
    enqueue_all (Tensor [4; 8] <$> (constant_keys 4 8 <$> [1; 2; 3; 4]%R))
      (example_bert "avg" false true 16 8) = (Ok ptrs, cls')
    ∧ queue_ptr cls' = Some (Tensor [1] [0%Z])
    ∧ queue cls'
      = Some (Tensor [16; 8]
                (constant_keys 4 8 1 ++ constant_keys 4 8 2
                 ++ constant_keys 4 8 3 ++ constant_keys 4 8 4))
    ∧ mjoin ((λ ptr, write_window ptr 4) <$> ptrs) = seq 0 16.
Proof.
  destruct (enqueue_cycle (example_bert "avg" false true 16 8) 16 8 _ 4
              (example_bert_bank "avg" false true 16 8 ltac:(lia) eq_refl)
              ltac:(lia) eq_refl) as [_ Hall].
  destruct (Hall (constant_keys 4 8 <$> [1; 2; 3; 4]%R))
    as (ptrs & cls' & Hrun & Hp & Hq & Hw).
  { reflexivity. }
  { repeat (constructor; [reflexivity|]). constructor. }
  exists ptrs, cls'. split; [exact Hrun|]. split; [exact Hp|].
  split; [|exact Hw]. rewrite Hq. cbn [mjoin list_join fmap list_fmap].
  by rewrite app_nil_r.
Defined.

(** ** Pooling *)

(** Masked mean, entry by entry. *)
Lemma masked_mean_spec (x : tensor R) (mask : tensor Z) B S W :
  shape x = [B; S; W] → shape mask = [B; S] →
  ∃ t, masked_mean x mask = Ok t ∧ shape t = [B; W] ∧ wf t
    ∧ ∀ b h, wf x → wf mask → b < B → h < W →
        get t (b * W + h) =
          (Rsum ((λ s, get x ((b * S + s) * W + h)
                       * IZR (get mask (b * S + s)))%R <$> seq 0 S)
           / IZR (Zsum64 ((λ s, get mask (b * S + s)) <$> seq 0 S)))%R.
Proof.
  intros Hx Hm. unfold masked_mean, sum, sum_long.
  rewrite unsqueeze_last. cbn [mbind result_bind].
  erewrite map2_eval.
  2:{ cbn [shape to_float torch.map]. rewrite Hx, Hm.
      apply (broadcast_last_one [B; S] W). }
  cbn [mbind result_bind].
  erewrite (reduce_dim_eval Rsum _ 1 1) by done.
  cbn [mbind result_bind].
  erewrite (reduce_dim_eval Zsum64 mask (-1) 1)
    by (unfold dim; by rewrite Hm).
  cbn [mbind result_bind]. rewrite unsqueeze_last.
  cbn [mbind result_bind].
  erewrite map2_eval.
  2:{ cbn [shape to_float torch.map tabulate]. rewrite Hm.
      apply (broadcast_last_one [B] W). }
  eexists. split; [done|]. split; [done|]. split; [apply wf_tabulate|].
  intros b h Wx Wm Hb Hh.
  unfold wf in Wx, Wm. rewrite Hx in Wx. rewrite Hm in Wm.
  cbn [numel foldr] in Wx, Wm.
  rewrite get_tabulate by (cbn [app numel foldr]; nia).
  rewrite bget_same; [|done|cbn [app numel foldr]; nia].
  rewrite get_tabulate
    by (cbn [shape tabulate remove_dim take drop app numel foldr]; nia).
  rewrite (bget_last_one _ [B] W b h);
    [|by cbn [shape tabulate]; rewrite Hm|simpl; lia|done].
  rewrite get_to_float
    by (cbn [data tabulate]; rewrite length_fmap, length_seq, Hm; simpl; lia).
  rewrite (get_reshape _ (tabulate _ _)).
  rewrite get_tabulate by (rewrite Hm; simpl; lia).
  rewrite Hm. cbn [shape tabulate app].
  change (extent [B; S; W] 1) with S. change (extent [B; S] 1) with S.
  f_equal.
  - f_equal. apply list_fmap_ext. intros i e He.
    apply lookup_seq in He as [-> He]. cbn [Nat.add].
    rewrite offset_at_mid by done.
    rewrite get_tabulate by (by apply offset3_lt).
    rewrite bget_same; [|done|by apply offset3_lt].
    rewrite (bget_last_one _ [B; S] W (b * S + i) h);
      [|done|cbn [numel foldr]; nia|done].
    rewrite get_to_float by (cbn [data]; nia). done.
  - do 2 f_equal. apply list_fmap_ext. intros i e He.
    by rewrite offset_at_last.
Qed.

Lemma wrap64_small z : (- 2 ^ 63 ≤ z < 2 ^ 63)%Z → wrap64 z = z.
Proof.
  intros Hz. unfold wrap64.
  rewrite Z.mod_small by lia. lia.
Qed.

Lemma Zsum64_binary (l : list Z) :
  Forall (λ z, z = 0 ∨ z = 1)%Z l → (Z.of_nat (length l) < 2 ^ 63)%Z →
  Zsum64 l = Zsum l ∧ (0 ≤ Zsum l ≤ Z.of_nat (length l))%Z.
Proof.
  induction 1 as [|z l Hz Hl IH]; intros Hlen; simpl in *; [lia|].
  destruct IH as [IH1 IH2]; [lia|].
  rewrite IH1. rewrite wrap64_small by lia. lia.
Qed.

Lemma get_binary (mask : tensor Z) k :
  binary_mask mask → k < length (data mask) →
  (get mask k = 0 ∨ get mask k = 1)%Z.
Proof.
  intros Hb Hk. unfold get.
  apply (Forall_lookup_1 (λ z, z = 0 ∨ z = 1)%Z (data mask) k); [exact Hb|].
  by apply list_lookup_lookup_total_lt.
Qed.

Lemma masked_mean_weighted (x : tensor R) (mask : tensor Z) B S W :
  shape x = [B; S; W] → shape mask = [B; S] → wf x → wf mask →
  binary_mask mask → (Z.of_nat S < 2 ^ 63)%Z →
  ∃ t, masked_mean x mask = Ok t ∧ shape t = [B; W] ∧ wf t
    ∧ ∀ b h, b < B → h < W →
        get t (b * W + h) = weighted_mean (get x) mask S W b h.
Proof.
  intros Hx Hm Wx Wm Hbin HS.
  destruct (masked_mean_spec x mask B S W Hx Hm)
    as (t & Ht & Hsh & Wt & Hget).
  exists t. repeat split; try done.
  intros b h Hb Hh. rewrite Hget by done. unfold weighted_mean.
  do 2 f_equal.
  apply Zsum64_binary; [|by rewrite length_fmap, length_seq].
  apply Forall_fmap, Forall_forall. intros s Hs%elem_of_seq. simpl.
  apply get_binary; [done|].
  unfold wf in Wm. rewrite Wm, Hm. cbn [numel foldr]. nia.
Qed.

Lemma Rsum_mul_one (f : nat → R) (m : nat → Z) l :
  (∀ s, s ∈ l → m s = 1%Z) →
  Rsum ((λ s, f s * IZR (m s))%R <$> l) = Rsum (f <$> l).
Proof.
  intros Hm. f_equal. apply list_fmap_ext. intros i s Hs.
  rewrite Hm by (by eapply list_elem_of_lookup_2). simpl. lra.
Qed.

Lemma Zsum_const_one (m : nat → Z) l :
  (∀ s, s ∈ l → m s = 1%Z) → Zsum (m <$> l) = Z.of_nat (length l).
Proof.
  induction l as [|s l IH]; intros Hm; [done|].
  cbn [fmap list_fmap Zsum foldr length].
  rewrite Hm by left. fold (Zsum (m <$> l)).
  rewrite IH by (intros; apply Hm; by right). lia.
Qed.

Lemma Rsum_indicator (f : nat → R) (m : nat → Z) k a n :
  (∀ s, a ≤ s < a + n → m s = if decide (s = k) then 1%Z else 0%Z) →
  Rsum ((λ s, f s * IZR (m s))%R <$> seq a n)
  = if decide (a ≤ k < a + n) then f k else 0%R.
Proof.
  revert a. induction n as [|n IH]; intros a Hm.
  - simpl. case_decide; [lia|done].
  - cbn [seq fmap list_fmap Rsum foldr].
    fold (Rsum ((λ s, f s * IZR (m s))%R <$> seq (S a) n)).
    rewrite IH by (intros; apply Hm; lia).
    rewrite Hm by lia.
    destruct (decide (a = k)) as [->|Hne].
    + rewrite decide_False by lia. rewrite decide_True by lia. simpl. lra.
    + destruct (decide (S a ≤ k < S a + n)).
      * rewrite decide_True by lia. simpl. lra.
      * rewrite decide_False by lia. simpl. lra.
Qed.

Lemma Zsum_indicator (m : nat → Z) k a n :
  (∀ s, a ≤ s < a + n → m s = if decide (s = k) then 1%Z else 0%Z) →
  Zsum (m <$> seq a n) = if decide (a ≤ k < a + n) then 1%Z else 0%Z.
Proof.
  revert a. induction n as [|n IH]; intros a Hm.
  - simpl. case_decide; [lia|done].
  - cbn [seq fmap list_fmap Zsum foldr].
    fold (Zsum (m <$> seq (S a) n)).
    rewrite IH by (intros; apply Hm; lia).
    rewrite Hm by lia.
    destruct (decide (a = k)) as [->|Hne].
    + rewrite decide_False by lia. by rewrite decide_True by lia.
    + destruct (decide (S a ≤ k < S a + n)).
      * by rewrite decide_True by lia.
      * by rewrite decide_False by lia.
Qed.

(** C7: in mode [avg], for a mask of zeros and ones with a one in every
    example, the pooled output for example [b] and coordinate [h] is
    [sum_s hidden[b,s,h] * mask[b,s] / sum_s mask[b,s]]; with a mask of ones
    it is the mean over the positions, and with a single one at position [k]
    it is [hidden[b,k,h]]. *)
Theorem avg_pooling (outputs : EncoderOutput) (mask : tensor Z) B S W :
  shape (last_hidden_state outputs) = [B; S; W] → wf (last_hidden_state outputs) →
  shape mask = [B; S] → wf mask →
  binary_mask mask → (Z.of_nat S < 2 ^ 63)%Z →
  (∀ b, b < B → ∃ s, s < S ∧ get mask (b * S + s) = 1%Z) →
  ∃ t, Pooler_forward avg_pooler mask outputs = Ok t
    ∧ shape t = [B; W]
    ∧ ∀ b h, b < B → h < W →
        let x := last_hidden_state outputs in
        get t (b * W + h) = weighted_mean (get x) mask S W b h
        ∧ ((∀ s, s < S → get mask (b * S + s) = 1%Z) →
           get t (b * W + h)
           = (Rsum ((λ s, get x ((b * S + s) * W + h)) <$> seq 0 S)
              / INR S)%R)
        ∧ (∀ k, k < S →
           (∀ s, s < S →
              get mask (b * S + s) = if decide (s = k) then 1%Z else 0%Z) →
           get t (b * W + h) = get x ((b * S + k) * W + h)).
Proof.
  intros Hx Wx Hm Wm Hbin HS Hne.
  destruct (masked_mean_weighted _ mask B S W Hx Hm Wx Wm Hbin HS)
    as (t & Ht & Hsh & Wt & Hget).
  exists t. split; [exact Ht|]. split; [done|].
  intros b h Hb Hh x. rewrite Hget by done. split; [done|]. split.
  - intros Hall. unfold weighted_mean.
    rewrite (Rsum_mul_one (λ s, get x ((b * S + s) * W + h))
               (λ s, get mask (b * S + s)))
      by (intros s Hs%elem_of_seq; apply Hall; lia).
    rewrite (Zsum_const_one (λ s, get mask (b * S + s)))
      by (intros s Hs%elem_of_seq; apply Hall; lia).
    by rewrite length_seq, INR_IZR_INZ.
  - intros k Hk Hone. unfold weighted_mean.
    rewrite (Rsum_indicator (λ s, get x ((b * S + s) * W + h))
               (λ s, get mask (b * S + s)) k)
      by (intros; apply Hone; lia).
    rewrite (Zsum_indicator (λ s, get mask (b * S + s)) k)
      by (intros; apply Hone; lia).
    rewrite !decide_True by lia. lra.
Qed.

Lemma example_mask_binary : binary_mask example_mask.
Proof. unfold binary_mask. simpl. constructor; [by right|constructor]. Qed.

Lemma avg_pooling_witness :
  ∃ t, Pooler_forward avg_pooler example_mask example_outputs = Ok t
    ∧ get t 0 = get (layer 5) 0.
Proof.
  assert (Hne : ∀ b, b < 1 → ∃ s, s < 1 ∧ get example_mask (b * 1 + s) = 1%Z).
  { intros b Hb. exists 0. split; [lia|]. by replace b with 0 by lia. }
  destruct (avg_pooling example_outputs example_mask 1 1 1
              eq_refl eq_refl eq_refl eq_refl example_mask_binary eq_refl Hne)
    as (t & Ht & _ & Hget).
  exists t. split; [exact Ht|].
  destruct (Hget 0 0 ltac:(lia) ltac:(lia)) as (_ & _ & Hone).
  apply (Hone 0); [lia|]. intros s Hs. by replace s with 0 by lia.
Defined.

Lemma weighted_mean_ext (x x' : nat → R) mask B S W b h :
  b < B → h < W →
  (∀ o, o < numel [B; S; W] → x o = x' o) →
  weighted_mean x mask S W b h = weighted_mean x' mask S W b h.
Proof.
  intros Hb Hh Hx. unfold weighted_mean. do 2 f_equal.
  apply list_fmap_ext. intros i s [-> Hs]%lookup_seq. cbn [Nat.add].
  by rewrite Hx by (by apply offset3_lt).
Qed.

Lemma broadcast_shapes_refl sh : broadcast_shapes sh sh = Ok sh.
Proof.
  unfold broadcast_shapes. rewrite Nat.max_id, pad_shape_same.
  apply broadcast_aligned_refl.
Qed.

Lemma py_index_nonneg {A} (l : list A) (i : nat) x :
  l !! i = Some x → py_index l (Z.of_nat i) = Ok x.
Proof.
  intros Hx. unfold py_index.
  rewrite wrap_dim_nonneg by (apply lookup_lt_Some in Hx; lia).
  simpl. by rewrite Nat2Z.id, Hx.
Qed.

Lemma py_index_last {A} (l : list A) x :
  last l = Some x → py_index l (-1) = Ok x.
Proof.
  intros Hx. unfold py_index.
  assert (0 < length l) by (destruct l; [done|simpl; lia]).
  rewrite wrap_dim_neg by lia. simpl.
  rewrite last_lookup in Hx.
  replace (Z.to_nat (Z.of_nat (length l) + -1)) with (pred (length l)) by lia.
  by rewrite Hx.
Qed.

(** C6 (amended): in mode [avg_first_last] the pooled output is the
    mask-weighted mean over the positions of [(first + last) / 2], where
    [first] is index 1 of the hidden-state stack (the output of the first
    encoder layer; index 0, the embedding layer, is not read) and [last] is
    its final index. *)
Theorem avg_first_last_pooling (outputs : EncoderOutput) (mask : tensor Z)
    hs first_hidden last_hidden B S W :
  hidden_states outputs = Some hs →
  hs !! 1 = Some first_hidden → last hs = Some last_hidden →
  shape first_hidden = [B; S; W] → wf first_hidden →
  shape last_hidden = [B; S; W] → wf last_hidden →
  shape mask = [B; S] → wf mask →
  binary_mask mask → (Z.of_nat S < 2 ^ 63)%Z →
  ∃ t, Pooler_forward avg_first_last_pooler mask outputs = Ok t
    ∧ shape t = [B; W]
    ∧ ∀ b h, b < B → h < W →
        get t (b * W + h)
        = weighted_mean (λ o, (get first_hidden o + get last_hidden o) / 2)%R
            mask S W b h.
Proof.
  intros Hhs Hf Hl Sf Wf Sl Wl Hm Wm Hbin HS.
  set (s := tabulate [B; S; W]
              (λ k, (bget first_hidden [B; S; W] k
                     + bget last_hidden [B; S; W] k)%R)).
  destruct (masked_mean_weighted (torch.map (λ v, v / 2)%R s) mask B S W)
    as (t & Ht & Hsh & Wt & Hget); try done.
  { unfold wf. simpl. by rewrite !length_fmap, length_seq. }
  exists t. split; [|split; [done|]].
  - unfold Pooler_forward, avg_first_last_pooler. cbn [pooler_pooler_type].
    rewrite Hhs. cbn -[py_index map2 masked_mean].
    replace (py_index hs 1) with (Ok first_hidden)
      by (symmetry; by apply (py_index_nonneg hs 1)).
    cbn -[py_index map2 masked_mean].
    rewrite (py_index_last hs last_hidden Hl).
    cbn -[py_index map2 masked_mean].
    erewrite map2_eval by (rewrite Sf, Sl; apply broadcast_shapes_refl).
    exact Ht.
  - intros b h Hb Hh. rewrite Hget by done.
    apply (weighted_mean_ext _ _ mask B); [done|done|].
    intros o Ho. rewrite get_map
      by (simpl; by rewrite length_fmap, length_seq).
    unfold s. rewrite get_tabulate by done.
    by rewrite !bget_same by done.
Qed.

Lemma avg_first_last_pooling_witness :
  ∃ t, Pooler_forward avg_first_last_pooler example_mask example_outputs = Ok t
    ∧ get t 0
      = weighted_mean (λ o, (get (layer 3) o + get (layer 5) o) / 2)%R
          example_mask 1 1 0 0.
Proof.
  destruct (avg_first_last_pooling example_outputs example_mask
              [layer 1; layer 3; layer 5] (layer 3) (layer 5) 1 1 1
              eq_refl eq_refl eq_refl eq_refl eq_refl eq_refl eq_refl
              eq_refl eq_refl example_mask_binary eq_refl)
    as (t & Ht & _ & Hget).
  exists t. split; [exact Ht|]. apply (Hget 0 0); lia.
Defined.

(** A stack of three layers with values 1, 3 and 5: the module returns
    (3 + 5) / 2, and pooling index 0 with the last layer gives (1 + 5) / 2. *)
Lemma avg_first_last_skips_embedding_layer :
  Pooler_forward avg_first_last_pooler example_mask example_outputs
  = Ok (Tensor [1; 1] [4%R])
  ∧ avg_first_last_spec example_mask example_outputs
    = Ok (Tensor [1; 1] [3%R])
  ∧ Pooler_forward avg_first_last_pooler example_mask example_outputs
    ≠ avg_first_last_spec example_mask example_outputs.
Proof.
  assert (H1 : Pooler_forward avg_first_last_pooler example_mask
                 example_outputs = Ok (Tensor [1; 1] [4%R])).
  { vm_compute. do 3 f_equal. lra. }
  assert (H2 : avg_first_last_spec example_mask example_outputs
               = Ok (Tensor [1; 1] [3%R])).
  { vm_compute. do 3 f_equal. lra. }
  split; [done|]. split; [done|].
  rewrite H1, H2. intros [= H]. lra.
Qed.
(** ** The contrastive pass without auxiliary branch *)

Lemma select_3d_mid {A} `{Inhabited A} (t : tensor A) B V S (i : nat) :
  shape t = [B; V; S] → i < V →
  ∃ t', select t 1 (Z.of_nat i) = Ok t' ∧ shape t' = [B; S].
Proof.
  intros Hsh Hi. unfold select, dim. rewrite Hsh.
  change (wrap_dim (length [B; V; S]) 1) with (@Ok nat 1).
  cbn [mbind result_bind]. change (extent [B; V; S] 1) with V.
  rewrite wrap_dim_nonneg by lia. cbn [mbind result_bind].
  eexists. split; [done|]. done.
Qed.

Lemma filter_of_nat (sh : list nat) :
  filter (λ z, z ≠ (-1)%Z) (Z.of_nat <$> sh) = Z.of_nat <$> sh.
Proof.
  induction sh as [|d sh IH]; [done|]. cbn [fmap list_fmap] in *.
  rewrite filter_cons_True by lia. by f_equal.
Qed.

Lemma to_nat_of_nat (sh : list nat) : Z.to_nat <$> (Z.of_nat <$> sh) = sh.
Proof.
  induction sh as [|d sh IH]; [done|]. cbn [fmap list_fmap] in *.
  by rewrite Nat2Z.id, IH.
Qed.

Lemma infer_size_exact (sh : list nat) n :
  numel sh = n → infer_size (Z.of_nat <$> sh) n = Ok sh.
Proof.
  intros Hn. unfold infer_size.
  rewrite bool_decide_eq_false_2.
  2:{ rewrite Exists_fmap. apply Forall_Exists_neg, Forall_forall.
      intros x _. unfold compose. lia. }
  rewrite filter_of_nat, to_nat_of_nat, length_fmap, Nat.sub_diag.
  rewrite Hn, Nat.eqb_refl. done.
Qed.

Lemma infer_size_mismatch (sh : list nat) n :
  numel sh ≠ n → infer_size (Z.of_nat <$> sh) n = Raise RuntimeError.
Proof.
  intros Hn. unfold infer_size.
  rewrite bool_decide_eq_false_2.
  2:{ rewrite Exists_fmap. apply Forall_Exists_neg, Forall_forall.
      intros x _. unfold compose. lia. }
  rewrite filter_of_nat, to_nat_of_nat, length_fmap, Nat.sub_diag.
  by apply Nat.eqb_neq in Hn as ->.
Qed.

Lemma infer_size_rows (S n : nat) :
  0 < S → infer_size [(-1)%Z; Z.of_nat S] (n * S) = Ok [n; S].
Proof.
  intros HS. unfold infer_size.
  rewrite bool_decide_eq_false_2.
  2:{ intros Hex. apply Exists_cons in Hex as [?|Hex]; [lia|].
      apply Exists_cons in Hex as [?|Hex]; [lia|]. by apply Exists_nil in Hex. }
  rewrite filter_cons_False by (intros ?; done).
  rewrite filter_cons_True by lia. rewrite filter_nil.
  cbn [fmap list_fmap length Nat.sub numel foldr].
  rewrite Nat2Z.id, Nat.mul_1_r.
  replace (S =? 0) with false by (symmetry; apply Nat.eqb_neq; lia).
  rewrite Nat.Div0.mod_mul, Nat.eqb_refl.
  rewrite bool_decide_eq_true_2 by done.
  rewrite bool_decide_eq_false_2 by lia.
  by rewrite Nat.div_mul by lia.
Qed.

Lemma flatten_views_3d (t : tensor Z) B V S :
  shape t = [B; V; S] → 0 < S →
  flatten_views t = Ok (Tensor [B * V; S] (data t)).
Proof.
  intros Hsh HS. unfold flatten_views, size, dim. rewrite Hsh.
  change (wrap_dim (length [B; V; S]) (-1)) with (@Ok nat 2).
  cbn [mbind result_bind]. change ([B; V; S] !!! 2) with S.
  unfold view. rewrite Hsh.
  replace (numel [B; V; S]) with (B * V * S) by (simpl; lia).
  by rewrite infer_size_rows.
Qed.

Lemma flatten_views_2d (t : tensor Z) B S :
  shape t = [B; S] → 0 < S →
  flatten_views t = Ok (Tensor [B; S] (data t)).
Proof.
  intros Hsh HS. unfold flatten_views, size, dim. rewrite Hsh.
  change (wrap_dim (length [B; S]) (-1)) with (@Ok nat 1).
  cbn [mbind result_bind]. change ([B; S] !!! 1) with S.
  unfold view. rewrite Hsh.
  replace (numel [B; S]) with (B * S) by (simpl; lia).
  by rewrite infer_size_rows.
Qed.

Lemma py_index_neg {A} (l : list A) (i : nat) x :
  0 < i ≤ length l → l !! (length l - i) = Some x →
  py_index l (- Z.of_nat i) = Ok x.
Proof.
  intros Hi Hx. unfold py_index.
  rewrite wrap_dim_neg by lia. simpl.
  replace (Z.to_nat (Z.of_nat (length l) + - Z.of_nat i))
    with (length l - i) by lia.
  by rewrite Hx.
Qed.

Lemma map2_same_shape {A B C} `{Inhabited A, Inhabited B}
    (f : A → B → C) (a : tensor A) (b : tensor B) sh :
  shape a = sh → shape b = sh →
  map2 f a b = Ok (tabulate sh (λ k, f (bget a sh k) (bget b sh k))).
Proof.
  intros Ha Hb. apply map2_eval. rewrite Ha, Hb. apply broadcast_shapes_refl.
Qed.

Lemma half_sum_masked_mean (f l : tensor R) (mask : tensor Z) N S W :
  shape f = [N; S; W] → shape l = [N; S; W] → shape mask = [N; S] →
  ∃ t, (s ← map2 Rplus f l; masked_mean (torch.map (λ v, v / 2)%R s) mask)
       = Ok t ∧ shape t = [N; W].
Proof.
  intros Hf Hl Hm.
  rewrite (map2_same_shape _ f l [N; S; W]) by done. cbn [mbind result_bind].
  destruct (masked_mean_spec
              (torch.map (λ v, v / 2)%R
                 (tabulate [N; S; W]
                    (λ k, (bget f [N; S; W] k + bget l [N; S; W] k)%R)))
              mask N S W) as (t & Ht & Hsh & _); [done|done|].
  by exists t.
Qed.

Lemma Pooler_forward_ok pt (mask : tensor Z) (o : EncoderOutput) N S W :
  pt ∈ valid_pooler_types →
  encoder_output_ok o N S W (needs_hidden_states pt) →
  shape mask = [N; S] → 0 < S →
  ∃ t, Pooler_forward {| pooler_pooler_type := pt |} mask o = Ok t
       ∧ shape t = [N; W].
Proof.
  intros Hpt [Hlast Hhs] Hm HS.
  unfold valid_pooler_types in Hpt.
  repeat (apply elem_of_cons in Hpt as [->|Hpt]); [..|by apply elem_of_nil in Hpt].
  - apply (select_3d_mid _ N S W 0 Hlast HS).
  - apply (select_3d_mid _ N S W 0 Hlast HS).
  - destruct (masked_mean_spec (last_hidden_state o) mask N S W)
      as (t & Ht & Hsh & _); [done|done|].
    by exists t.
  - destruct (Hhs eq_refl) as (hs & Hsome & Hlen & Hall).
    unfold Pooler_forward. cbn [pooler_pooler_type].
    rewrite Hsome. cbn -[py_index map2 masked_mean].
    destruct (lookup_lt_is_Some_2 hs (length hs - 2) ltac:(lia)) as [sl Hsl].
    destruct (lookup_lt_is_Some_2 hs (length hs - 1) ltac:(lia)) as [la Hla].
    replace (py_index hs (-2)) with (Ok sl)
      by (symmetry; apply (py_index_neg hs 2); [lia|done]).
    cbn -[py_index map2 masked_mean].
    replace (py_index hs (-1)) with (Ok la)
      by (symmetry; apply (py_index_neg hs 1); [lia|done]).
    cbn -[py_index map2 masked_mean].
    apply (half_sum_masked_mean la sl mask N S W); [| |done].
    + by apply (Forall_lookup_1 _ _ _ _ Hall Hla).
    + by apply (Forall_lookup_1 _ _ _ _ Hall Hsl).
  - destruct (Hhs eq_refl) as (hs & Hsome & Hlen & Hall).
    unfold Pooler_forward. cbn [pooler_pooler_type].
    rewrite Hsome. cbn -[py_index map2 masked_mean].
    destruct (lookup_lt_is_Some_2 hs 1 ltac:(lia)) as [fi Hfi].
    destruct (lookup_lt_is_Some_2 hs (length hs - 1) ltac:(lia)) as [la Hla].
    replace (py_index hs 1) with (Ok fi)
      by (symmetry; by apply (py_index_nonneg hs 1)).
    cbn -[py_index map2 masked_mean].
    replace (py_index hs (-1)) with (Ok la)
      by (symmetry; apply (py_index_neg hs 1); [lia|done]).
    cbn -[py_index map2 masked_mean].
    apply (half_sum_masked_mean fi la mask N S W); [| |done].
    + by apply (Forall_lookup_1 _ _ _ _ Hall Hfi).
    + by apply (Forall_lookup_1 _ _ _ _ Hall Hla).
Qed.

Lemma size_last_2d {A} (t : tensor A) N W :
  shape t = [N; W] → size t (-1) = Ok W.
Proof. intros Hsh. unfold size, dim. by rewrite Hsh. Qed.

Lemma view_views {A} (t : tensor A) B V W :
  shape t = [B * V; W] →
  view t [Z.of_nat B; Z.of_nat V; Z.of_nat W] = Ok (Tensor [B; V; W] (data t)).
Proof.
  intros Hsh. unfold view. rewrite Hsh.
  by rewrite (infer_size_exact [B; V; W]) by (simpl; lia).
Qed.

Lemma linear_ok (x weight bias : tensor R) pre W out :
  shape x = pre ++ [W] → shape weight = [out; W] → shape bias = [out] →
  ∃ t, linear x weight bias = Ok t ∧ shape t = pre ++ [out].
Proof.
  intros Hx Hw Hb. unfold linear. rewrite Hw, Hx, reverse_snoc.
  rewrite bool_decide_eq_true_2 by done.
  eexists. split; [done|]. cbn [shape tabulate]. f_equal.
  unfold dim. rewrite Hx, length_app. simpl.
  replace (length pre + 1 - 1) with (length pre) by lia.
  by rewrite take_app_length.
Qed.

Lemma MLPLayer_forward_ok (m : MLPLayer) (x : tensor R) pre W :
  mlp_ok m W → shape x = pre ++ [W] →
  ∃ t, MLPLayer_forward m x = Ok t ∧ shape t = pre ++ [W].
Proof.
  intros [Hw Hb] Hx. unfold MLPLayer_forward.
  destruct (linear_ok x _ _ pre W W Hx Hw Hb) as (t & -> & Hsh).
  eexists. split; [done|]. done.
Qed.

Lemma unsqueeze_eval {A} (t : tensor A) (d : Z) :
  (0 ≤ d ≤ Z.of_nat (dim t))%Z →
  unsqueeze t d
  = Ok (Tensor (take (Z.to_nat d) (shape t) ++ 1 :: drop (Z.to_nat d) (shape t))
               (data t)).
Proof.
  intros Hi. unfold unsqueeze. by rewrite wrap_dim_nonneg by lia.
Qed.

Lemma broadcast_pairwise n m D :
  broadcast_shapes [n; 1; D] [1; m; D] = Ok [n; m; D].
Proof.
  unfold broadcast_shapes. cbn [length Nat.max pad_shape Nat.sub replicate app].
  cbn [broadcast_aligned mbind result_bind]. rewrite (Nat.eqb_refl D).
  cbn [mbind result_bind].
  destruct (1 =? m) eqn:E1; cbn [mbind result_bind Nat.eqb].
  - apply Nat.eqb_eq in E1. subst m.
    destruct (n =? 1) eqn:E2; [|done].
    apply Nat.eqb_eq in E2. by subst n.
  - destruct (n =? 1) eqn:E2; [|done].
    apply Nat.eqb_eq in E2. by subst n.
Qed.

Lemma pairwise_sim_ok (s : Similarity) (a b : tensor R) n m D :
  shape a = [n; D] → shape b = [m; D] →
  ∃ c, pairwise_sim s a b = Ok c ∧ shape c = [n; m] ∧ wf c.
Proof.
  intros Ha Hb. unfold pairwise_sim.
  rewrite (unsqueeze_eval a 1) by (unfold dim; rewrite Ha; simpl; lia).
  cbn [mbind result_bind].
  rewrite (unsqueeze_eval b 0) by lia. cbn [mbind result_bind].
  rewrite Ha, Hb. change (Z.to_nat 1) with 1. change (Z.to_nat 0) with 0.
  cbn [take drop app].
  unfold Similarity_forward, cosine_similarity. cbn [shape].
  rewrite broadcast_pairwise. cbn [mbind result_bind reverse rev_append].
  cbn [length Nat.sub take]. cbn [mbind result_bind].
  eexists. split; [done|]. split; [done|].
  unfold wf. simpl. by rewrite !length_fmap, length_seq.
Qed.

Lemma cross_entropy_ok (c : tensor R) n :
  shape c = [n; n] →
  ∃ v, cross_entropy c (arange n) = Ok (Tensor [] [v]).
Proof.
  intros Hc. unfold cross_entropy. rewrite Hc. cbn [shape arange tabulate].
  rewrite Nat.eqb_refl. cbn [negb].
  rewrite bool_decide_eq_true_2; [by eexists|].
  unfold arange, tabulate. cbn [numel foldr data]. rewrite Nat.mul_1_r.
  apply Forall_forall. intros y Hy%elem_of_take.
  destruct Hy as (i & Hy & _). rewrite list_lookup_fmap in Hy.
  destruct (seq 0 n !! i) as [j|] eqn:Hj; [|done].
  apply lookup_seq in Hj as [-> Hj]. simpl in Hy. injection Hy as <-. lia.
Qed.

Lemma bind_call_encoder {B} (e : encoder_ref) ids mask tti ohs
    (f : EncoderOutput → M CLModel B) cls enc o :
  deref e cls = Some enc →
  encoder_forward enc (flags enc) ids mask tti ohs = Ok o →
  (call_encoder e ids mask tti ohs ≫= f) cls = f o cls.
Proof.
  intros He Ho. unfold mbind, M_bind, call_encoder. rewrite He. simpl.
  by rewrite Ho.
Qed.

Lemma option_flatten_views (tti : option (tensor Z)) B V S :
  (∀ t, tti = Some t → shape t = [B; V; S]) → 0 < S →
  ∃ tti', option_mapM flatten_views tti = Ok tti'.
Proof.
  intros Htti HS. destruct tti as [t|]; [|by eexists].
  simpl. rewrite (flatten_views_3d t B V S) by auto. by eexists.
Qed.

Lemma cl_encode_ok cls enc e B V S W ids mask tti :
  deref enc cls = Some e → encoder_total (encoder_forward e) W →
  model_consistent cls → projection_ok cls W →
  shape ids = [B; V; S] → shape mask = [B; V; S] →
  (∀ t, tti = Some t → shape t = [B; V; S]) →
  2 ≤ V → 0 < S →
  ∃ outputs mask' tti' z1 z2,
    cl_encode enc B ids mask tti cls
      = (Ok (outputs, mask', tti', V, z1, z2), cls)
    ∧ shape z1 = [B; W] ∧ shape z2 = [B; W].
Proof.
  intros He Henc (Hpool & Hargs & Hvalid) Hmlp Hids Hmask Htti HV HS.
  unfold cl_encode. rewrite bind_get_self.
  rewrite (bind_lift_Ok _ _ _ V) by (unfold size, dim; by rewrite Hids).
  rewrite (bind_lift_Ok _ _ _ _ (flatten_views_3d ids B V S Hids HS)).
  rewrite (bind_lift_Ok _ _ _ _ (flatten_views_3d mask B V S Hmask HS)).
  destruct (option_flatten_views tti B V S Htti HS) as [tti' Htti'].
  rewrite (bind_lift_Ok _ _ _ tti') by done.
  destruct (Henc (flags e) (Tensor [B * V; S] (data ids))
              (Tensor [B * V; S] (data mask)) tti'
              (needs_hidden_states (pooler_type (model_args cls)))
              (B * V) S eq_refl) as (o & Ho & Hok).
  rewrite (bind_call_encoder _ _ _ _ _ _ _ e o He Ho).
  rewrite Hargs in Hok. rewrite Hpool.
  destruct (Pooler_forward_ok _ (Tensor [B * V; S] (data mask)) o
              (B * V) S W Hvalid Hok eq_refl HS) as (p & Hp & Hpsh).
  rewrite (bind_lift_Ok _ _ _ p) by done.
  rewrite (bind_lift_Ok _ _ _ (Tensor [B; V; W] (data p))).
  2:{ rewrite (size_last_2d p (B * V) W Hpsh). cbn [mbind result_bind].
      by apply view_views. }
  assert (∃ q, (if bool_decide (cls_pooler_type cls = "cls")
                then lift (m ← getattr (mlp cls);
                           MLPLayer_forward m (Tensor [B; V; W] (data p)))
                else mret (Tensor [B; V; W] (data p)))
               = (mret q : M CLModel (tensor R))
               ∧ shape q = [B; V; W]) as (q & -> & Hq).
  { case_bool_decide as Hcls; [|by eexists].
    destruct (Hmlp Hcls) as (m & -> & Hm). cbn [getattr mbind result_bind].
    destruct (MLPLayer_forward_ok m (Tensor [B; V; W] (data p)) [B; V] W Hm
                eq_refl) as (q & -> & Hq).
    by exists q. }
  rewrite bind_mret.
  destruct (select_3d_mid q B V W 0 Hq ltac:(lia)) as (z1 & Hz1 & Hz1sh).
  destruct (select_3d_mid q B V W 1 Hq ltac:(lia)) as (z2 & Hz2 & Hz2sh).
  rewrite (bind_lift_Ok _ _ _ z1) by done.
  rewrite (bind_lift_Ok _ _ _ z2) by done.
  by eexists _, _, _, z1, z2.
Qed.

Lemma cl_stronger_off ids mask tti cls :
  do_stronger (model_args cls) = false →
  cl_stronger ids mask tti cls = (Ok (None, ids, mask, tti), cls).
Proof. intros Hoff. unfold cl_stronger. rewrite bind_get_self, Hoff. done. Qed.

Lemma cl_auxiliary_off enc B mask tti tok sp z1 cls :
  do_stronger (model_args cls) = false →
  cl_auxiliary enc B mask tti None tok sp z1 cls = (Ok None, cls).
Proof.
  intros Hoff. unfold cl_auxiliary. rewrite bind_get_self, bind_mret, Hoff.
  done.
Qed.

Lemma cl_loss_plain cls z1 z2 n D :
  do_stronger (model_args cls) = false → do_mlm (model_args cls) = false →
  shape z1 = [n; D] → shape z2 = [n; D] →
  ∃ loss cos_sim, cl_loss cls z1 z2 = Ok (loss, cos_sim).
Proof.
  intros Hs Hm Hz1 Hz2. unfold cl_loss.
  destruct (pairwise_sim_ok (sim cls) z1 z2 n n D Hz1 Hz2)
    as (c & -> & Hc & _).
  cbn [mbind result_bind]. rewrite Hs, Hm. cbn [orb mbind result_bind].
  unfold size, dim. rewrite Hc.
  change (wrap_dim (length [n; n]) 0) with (@Ok nat 0).
  cbn [mbind result_bind]. change ([n; n] !!! 0) with n.
  destruct (cross_entropy_ok c n Hc) as [v ->].
  cbn [mbind result_bind]. by eexists _, _.
Qed.

Lemma cl_forward_plain_ok cls enc e B S W ids mask tti rd :
  deref enc cls = Some e → encoder_total (encoder_forward e) W →
  model_consistent cls → projection_ok cls W →
  do_stronger (model_args cls) = false → do_mlm (model_args cls) = false →
  shape ids = [B; 2; S] → shape mask = [B; 2; S] →
  (∀ t, tti = Some t → shape t = [B; 2; S]) → 0 < S →
  ∃ out, cl_forward None enc ids mask tti rd None 101 cls = (Ok out, cls).
Proof.
  intros He Henc Hok Hproj Hs Hm Hids Hmask Htti HS.
  unfold cl_forward. rewrite bind_get_self.
  rewrite (bind_lift_Ok _ _ _ B) by (unfold size, dim; by rewrite Hids).
  unfold mbind at 1, M_bind at 1. rewrite (cl_stronger_off _ _ _ _ Hs).
  destruct (cl_encode_ok cls enc e B 2 S W ids mask tti He Henc Hok Hproj
              Hids Hmask Htti ltac:(lia) HS)
    as (o & mask' & tti' & z1 & z2 & Hrun & Hz1 & Hz2).
  unfold mbind at 1, M_bind at 1. rewrite Hrun.
  unfold mbind at 1, M_bind at 1. rewrite (cl_auxiliary_off _ _ _ _ _ _ _ _ Hs).
  rewrite bind_get_self.
  rewrite (bind_lift_Ok _ _ _ (z1, z2, None)) by done.
  destruct (cl_loss_plain cls z1 z2 B W Hs Hm Hz1 Hz2) as (l & c & Hl).
  rewrite (bind_lift_Ok _ _ _ (l, c)) by done.
  destruct (negb _); by eexists.
Qed.

(** ** Computations that raise or leave the model alone *)

Section monad_facts.
Context {St A B : Type}.
Implicit Types (m : M St A) (f : A → M St B) (s : St).

Lemma fails_bind m f s :
  (∀ a s', m s = (Ok a, s') → fails (f a) s') → fails (m ≫= f) s.
Proof.
  intros Hf. unfold fails, mbind, M_bind.
  destruct (m s) as [[a|e] s'] eqn:E; [by apply Hf|by eexists _, _].
Qed.

Lemma fails_bind_Ok m f s a s' :
  m s = (Ok a, s') → fails (f a) s' → fails (m ≫= f) s.
Proof. intros Hm Hf. apply fails_bind. by intros ?? [= <- <-]%(eq_trans (eq_sym Hm)). Qed.

Lemma fails_bind_Raise m f s :
  fails m s → fails (m ≫= f) s.
Proof.
  intros (e & s' & Hm). exists e, s'. unfold mbind, M_bind. by rewrite Hm.
Qed.

Lemma fails_bind_lift (r : result A) f s :
  (∀ a, r = Ok a → fails (f a) s) → fails (lift r ≫= f) s.
Proof.
  intros Hf. apply fails_bind. intros a s' [= -> <-]. by apply Hf.
Qed.

Lemma fails_bind_lift_Ok (r : result A) f s a :
  r = Ok a → fails (f a) s → fails (lift r ≫= f) s.
Proof. intros -> Hf. by apply fails_bind_lift; intros ? [= <-]. Qed.

Lemma fails_bind_lift_Raise (r : result A) f s e :
  r = Raise e → fails (lift r ≫= f) s.
Proof. intros ->. by exists e, s. Qed.

Lemma fails_bind_pure m f s :
  pure m → (∀ a, m s = (Ok a, s) → fails (f a) s) → fails (m ≫= f) s.
Proof.
  intros Hp Hf. apply fails_bind. intros a s' Hm.
  pose proof (Hp _ _ _ Hm) as ->. by apply Hf.
Qed.

Lemma pure_bind m f : pure m → (∀ a, pure (f a)) → pure (m ≫= f).
Proof.
  intros Hm Hf s r s'. unfold mbind, M_bind.
  destruct (m s) as [[a|e] s1] eqn:E.
  - intros Hr. apply Hf in Hr. apply Hm in E. congruence.
  - intros [= <- <-]. by apply Hm in E.
Qed.

Lemma pure_lift (r : result A) : pure (lift r : M St A).
Proof. by intros s r' s' [= _ <-]. Qed.

Lemma pure_mret (a : A) : pure (mret a : M St A).
Proof. by intros s r' s' [= _ <-]. Qed.
End monad_facts.

Lemma pure_get_self {St} : pure (get_self : M St St).
Proof. by intros s r' s' [= _ <-]. Qed.

Lemma fails_bind_get_self {St B} (f : St → M St B) s :
  fails (f s) s → fails (get_self ≫= f) s.
Proof. done. Qed.

Lemma pure_call_encoder e ids mask tti ohs :
  pure (call_encoder e ids mask tti ohs).
Proof. by intros s r' s' [= _ <-]. Qed.

Ltac pure_steps :=
  repeat first
    [ apply pure_lift | apply pure_mret | apply pure_get_self
    | apply pure_call_encoder
    | apply pure_bind; [|intros ?]
    | case_bool_decide ].

Lemma cl_encode_pure enc B ids mask tti : pure (cl_encode enc B ids mask tti).
Proof. unfold cl_encode. pure_steps. Qed.

Lemma dequeue_and_enqueue_no_ptr keys cls :
  queue_ptr cls = None → fails (dequeue_and_enqueue keys) cls.
Proof.
  intros Hnone. unfold dequeue_and_enqueue.
  apply fails_bind_lift. intros b _. apply fails_bind_get_self.
  rewrite Hnone. by eexists _, _.
Qed.

Lemma cl_mlm_encode_pure enc B mask tti mlm tok :
  pure (cl_mlm_encode enc B mask tti mlm tok).
Proof. unfold cl_mlm_encode. pure_steps. Qed.

Lemma cl_auxiliary_no_bank enc B mask tti mlm tok sp z1 cls :
  queue_ptr cls = None →
  do_stronger (model_args cls) = false →
  cl_auxiliary enc B mask tti mlm tok sp z1 cls = (Ok None, cls) ∧ mlm = None
  ∨ fails (cl_auxiliary enc B mask tti mlm tok sp z1) cls.
Proof.
  intros Hnone Hoff. destruct mlm as [mlm|].
  2:{ left. by rewrite cl_auxiliary_off. }
  right. unfold cl_auxiliary. apply fails_bind_get_self.
  apply fails_bind_Raise.
  apply fails_bind_pure; [apply cl_mlm_encode_pure|]. intros z3 _.
  apply fails_bind_Raise. by apply dequeue_and_enqueue_no_ptr.
Qed.

Lemma cl_loss_no_bank cls z1 z2 :
  queue cls = None →
  do_stronger (model_args cls) || do_mlm (model_args cls) = true →
  ∃ e, cl_loss cls z1 z2 = Raise e.
Proof.
  intros Hnone Haux. unfold cl_loss.
  destruct (pairwise_sim (sim cls) z1 z2) as [c|e]; [|by eexists].
  cbn [mbind result_bind]. rewrite Haux. unfold cl_ld_loss. rewrite Hnone.
  by eexists.
Qed.

Lemma cl_forward_no_bank cls enc :
  bert cls = None → queue cls = None → queue_ptr cls = None →
  do_stronger (model_args cls) || do_mlm (model_args cls) = true →
  forward_fails cls enc.
Proof.
  intros Hbert Hq Hp Haux dist ids mask tti rd mlm tok.
  unfold cl_forward. apply fails_bind_get_self.
  apply fails_bind_lift. intros B _.
  destruct (do_stronger (model_args cls)) eqn:Hs.
  - apply fails_bind_Raise. unfold cl_stronger.
    apply fails_bind_get_self. rewrite Hs. apply fails_bind_Raise.
    exists AttributeError, cls. unfold bert_set_flag. by rewrite Hbert.
  - eapply fails_bind_Ok; [by apply cl_stronger_off|].
    apply fails_bind_pure; [apply cl_encode_pure|].
    intros [[[[[o mask'] tti'] V] z1] z2] _.
    destruct (cl_auxiliary_no_bank enc B mask' tti' mlm tok None z1 cls Hp Hs)
      as [[Hrun _]|Hf]; [|by apply fails_bind_Raise].
    eapply fails_bind_Ok; [exact Hrun|].
    apply fails_bind_get_self. apply fails_bind_lift.
    intros [[z1' z2'] z3'] _.
    destruct (cl_loss_no_bank cls z1' z2' Hq) as [e He];
      [by rewrite Hs|].
    exists e, cls. by rewrite (bind_lift_Raise _ _ _ e).
Qed.

(** ** The two model classes *)

Lemma cl_init_inv args pre pt p m s g :
  cl_init args pre = Ok (pt, p, m, s, g) →
  pt = pooler_type args
  ∧ p = {| pooler_pooler_type := pooler_type args |}
  ∧ pooler_type args ∈ valid_pooler_types
  ∧ m = (if bool_decide (pooler_type args = "cls")
         then Some {| dense_weight := pretrained_dense_weight pre;
                      dense_bias := pretrained_dense_bias pre |}
         else None)
  ∧ s = {| sim_temp := temp args |}
  ∧ g = pretrained_generator pre.
Proof.
  unfold cl_init, Pooler_init, py_assert.
  destruct (bool_decide (pooler_type args ∈ _)) eqn:Hv; [|done].
  apply bool_decide_eq_true in Hv. cbn [mbind result_bind].
  intros [= <- <- <- <- <-]. done.
Qed.

Lemma RobertaForCL_init_inv args pre cls :
  RobertaForCL_init args pre = Ok cls →
  model_args cls = args
  ∧ bert cls = None ∧ queue cls = None ∧ queue_ptr cls = None
  ∧ roberta cls = Some {| flags := ∅;
                          encoder_forward := pretrained_encoder pre |}
  ∧ cls_pooler_type cls = pooler_type args
  ∧ pooler cls = {| pooler_pooler_type := pooler_type args |}
  ∧ pooler_type args ∈ valid_pooler_types
  ∧ mlp cls = (if bool_decide (pooler_type args = "cls")
               then Some {| dense_weight := pretrained_dense_weight pre;
                            dense_bias := pretrained_dense_bias pre |}
               else None).
Proof.
  unfold RobertaForCL_init.
  destruct (cl_init args pre) as [[[[[pt p] m] s] g]|] eqn:Hinit; [|done].
  apply cl_init_inv in Hinit as (-> & -> & Hv & -> & -> & ->).
  cbn [mbind result_bind]. by intros [= <-].
Qed.

Lemma BertForCL_init_inv args pre cls :
  BertForCL_init args pre = Ok cls →
  model_args cls = args
  ∧ (∃ rows, queue cls = Some (Tensor [Z.to_nat (bank_size args);
                                        Z.to_nat (hidden_len args)] rows)
             ∧ length rows
               = Z.to_nat (bank_size args) * Z.to_nat (hidden_len args))
  ∧ queue_ptr cls = Some (Tensor [1] [0%Z])
  ∧ bert cls = Some {| flags := ∅; encoder_forward := pretrained_encoder pre |}
  ∧ cls_pooler_type cls = pooler_type args
  ∧ pooler cls = {| pooler_pooler_type := pooler_type args |}
  ∧ pooler_type args ∈ valid_pooler_types
  ∧ mlp cls = (if bool_decide (pooler_type args = "cls")
               then Some {| dense_weight := pretrained_dense_weight pre;
                            dense_bias := pretrained_dense_bias pre |}
               else None).
Proof.
  unfold BertForCL_init, py_size.
  destruct (bank_size args <? 0)%Z; [done|].
  destruct (hidden_len args <? 0)%Z; [done|].
  cbn [mbind result_bind normalize_rows shape tabulate].
  destruct (cl_init args pre) as [[[[[pt p] m] s] g]|] eqn:Hinit; [|done].
  apply cl_init_inv in Hinit as (-> & -> & Hv & -> & -> & ->).
  cbn [mbind result_bind]. intros [= <-]. cbn.
  repeat split; try done.
  eexists. split; [done|].
  rewrite length_fmap, length_seq. simpl. lia.
Qed.

Lemma example_encoder_total W : encoder_total (example_encoder W) W.
Proof.
  intros fl ids mask tti ohs N S Hids. unfold example_encoder. rewrite Hids.
  eexists. split; [done|]. split; [done|].
  intros ->. eexists. split; [done|]. split; [simpl; lia|].
  by repeat constructor.
Qed.

Lemma example_encoder_shapes W : encoder_shapes (example_encoder W) W.
Proof.
  intros fl ids mask tti ohs N S o Hids Ho.
  destruct (example_encoder_total W fl ids mask tti ohs N S Hids)
    as (o' & Ho' & Hok).
  congruence.
Qed.

Lemma example_bert_consistent pt stronger mlm K D :
  pt ∈ valid_pooler_types →
  model_consistent (example_bert pt stronger mlm K D).
Proof. by intros Hpt. Qed.

(** C9: [BertForCL.__init__] registers [queue] and [queue_ptr]
    and [RobertaForCL.__init__] registers neither.  So on a RoBERTa model
    with [do_stronger] or [do_mlm] set, the enqueue call and the bank
    similarity raise [AttributeError] and the contrastive pass raises on
    every input, whereas with neither set the pass on a 2-view input returns
    and leaves the model unchanged. *)
Theorem roberta_without_memory_bank args pre cls :
  RobertaForCL_init args pre = Ok cls →
  (queue cls = None ∧ queue_ptr cls = None)
  ∧ (∀ cls_b, BertForCL_init args pre = Ok cls_b →
       is_Some (queue cls_b) ∧ is_Some (queue_ptr cls_b))
  ∧ (do_stronger args || do_mlm args = true →
       (∀ keys b rest, shape keys = b :: rest →
          dequeue_and_enqueue keys cls = (Raise AttributeError, cls))
       ∧ (∀ z2, cl_ld_loss cls z2 = Raise AttributeError)
       ∧ forward_fails cls self_roberta)
  ∧ (do_stronger args = false → do_mlm args = false →
     ∀ W, encoder_total (pretrained_encoder pre) W →
          shape (pretrained_dense_weight pre) = [W; W] →
          shape (pretrained_dense_bias pre) = [W] →
     ∀ B S ids mask tti rd,
       shape ids = [B; 2; S] → shape mask = [B; 2; S] →
       (∀ t, tti = Some t → shape t = [B; 2; S]) → 0 < S →
       ∃ out, cl_forward None self_roberta ids mask tti rd None 101 cls
              = (Ok out, cls)).
Proof.
  intros Hinit.
  apply RobertaForCL_init_inv in Hinit
    as (Hargs & Hbert & Hq & Hp & Hrob & Hpt & Hpool & Hvalid & Hmlp).
  split; [done|]. split; [|split].
  - intros cls_b Hb. apply BertForCL_init_inv in Hb
      as (_ & (rows & -> & _) & -> & _). by split.
  - intros Haux. split; [|split].
    + intros keys b rest Hk. unfold dequeue_and_enqueue.
      rewrite (bind_lift_Ok _ _ _ b) by (by rewrite Hk).
      rewrite bind_get_self, Hp. done.
    + intros z2. unfold cl_ld_loss. by rewrite Hq.
    + apply cl_forward_no_bank; try done. by rewrite Hargs.
  - intros Hs Hm W Henc Hw Hbias B S ids mask tti rd Hids Hmask Htti HS.
    apply (cl_forward_plain_ok cls self_roberta
             {| flags := ∅; encoder_forward := pretrained_encoder pre |}
             B S W ids mask tti rd Hrob Henc); try done.
    + unfold model_consistent. by rewrite Hpool, Hpt, Hargs.
    + intros Hcls. rewrite Hmlp, bool_decide_eq_true_2 by congruence.
      eexists. split; [done|]. done.
    + by rewrite Hargs.
    + by rewrite Hargs.
Qed.

Lemma roberta_without_memory_bank_witness :
  ∃ cls,
    RobertaForCL_init (example_args "avg" false true 4 2)
      (example_pretrained 2) = Ok cls
    ∧ queue cls = None ∧ queue_ptr cls = None
    ∧ forward_fails cls self_roberta.
Proof.
  eexists. split; [reflexivity|].
  pose proof (roberta_without_memory_bank
                (example_args "avg" false true 4 2) (example_pretrained 2) _
                eq_refl) as ([Hq Hp] & _ & Haux & _).
  split; [exact Hq|]. split; [exact Hp|].
  apply (Haux eq_refl).
Defined.

(** ** The stronger view *)

Lemma bind_bert_set_flag {B} name v (f : unit → M CLModel B) cls e :
  bert cls = Some e →
  (bert_set_flag name v ≫= f) cls
  = f tt (set_bert {| flags := <[name := v]> (flags e);
                      encoder_forward := encoder_forward e |} cls).
Proof.
  intros He. unfold mbind, M_bind, bert_set_flag. by rewrite He.
Qed.

(** After the stronger view the working batch is view 0 alone; only the
    flags of [cls.bert] have changed. *)
Lemma cl_stronger_inv ids mask tti cls e r cls' :
  do_stronger (model_args cls) = true → bert cls = Some e →
  cl_stronger ids mask tti cls = (r, cls') →
  (∃ fl, cls' = set_bert {| flags := fl;
                            encoder_forward := encoder_forward e |} cls)
  ∧ ∀ sp ids' mask' tti',
      r = Ok (sp, ids', mask', tti') →
      select ids 1 0 = Ok ids' ∧ select mask 1 0 = Ok mask'.
Proof.
  intros Hs He. unfold cl_stronger. rewrite bind_get_self, Hs.
  rewrite (bind_bert_set_flag _ _ _ cls e He).
  erewrite !bind_bert_set_flag by done.
  cbn [flags encoder_forward].
  match goal with
  | |- context [set_bert ?b (set_bert _ (set_bert _ (set_bert _ cls)))] =>
      change (set_bert b (set_bert _ (set_bert _ (set_bert _ cls))))
        with (set_bert b cls)
  end.
  set (cls4 := set_bert _ cls).
  intros Hrun.
  assert (Hp : pure (λ s : CLModel,
            (lift (select ids 1 2) ≫= λ stronger_input_ids,
             lift (select mask 1 2) ≫= λ stronger_attention_mask,
             lift (option_mapM (λ t, select t 1 2) tti) ≫= λ stti,
             lift (local stti) ≫= λ stti,
             call_encoder self_bert stronger_input_ids
               stronger_attention_mask (Some stti)
               (needs_hidden_states (pooler_type (model_args cls)))
             ≫= λ stronger_outputs,
             lift (Pooler_forward (pooler cls) mask stronger_outputs)
             ≫= λ sp,
             (if bool_decide (cls_pooler_type cls = "cls")
              then lift (m ← getattr (mlp cls); MLPLayer_forward m sp)
              else mret sp) ≫= λ sp,
             lift (select ids 1 0) ≫= λ ids',
             lift (select mask 1 0) ≫= λ mask',
             lift (option_mapM (λ t, select t 1 0) tti) ≫= λ tti',
             mret (Some sp, ids', mask', tti')) s)).
  { pure_steps. }
  split.
  - pose proof (Hp _ _ _ Hrun) as ->. by eexists.
  - intros sp ids' mask' tti' ->. revert Hrun.
    repeat match goal with
    | |- (lift ?r ≫= _) _ = _ → _ =>
        let E := fresh "E" in
        destruct r eqn:E;
        [erewrite bind_lift_Ok by done
        |erewrite bind_lift_Raise by done; intros [=]]
    | |- (call_encoder ?a ?b ?c ?d ?e ≫= _) ?s = _ → _ =>
        unfold mbind at 1, M_bind at 1;
        let E := fresh "E" in
        destruct (call_encoder a b c d e s) as [[?|?] ?] eqn:E;
        [|intros [=]]
    | |- ((if ?c then _ else _) ≫= _) _ = _ → _ => destruct c
    | |- (mret _ ≫= _) _ = _ → _ => rewrite bind_mret
    end.
    all: by intros [= <- <- <- <-].
Qed.

Lemma select_3d_shape {A} `{Inhabited A} (t : tensor A) B V S :
  shape t = [B; V; S] → ∀ t' i, select t 1 i = Ok t' → shape t' = [B; S].
Proof.
  intros Hsh t' i. unfold select, dim. rewrite Hsh.
  change (wrap_dim (length [B; V; S]) 1) with (@Ok nat 1).
  cbn [mbind result_bind].
  destruct (wrap_dim _ i); [|done]. cbn [mbind result_bind].
  by intros [= <-].
Qed.

Lemma select_singleton_fail {A} `{Inhabited A} (t : tensor A) B W :
  shape t = [B; 1; W] → select t 1 1 = Raise IndexError.
Proof. intros Hsh. unfold select, dim. by rewrite Hsh. Qed.

Lemma MLPLayer_forward_shape (m : MLPLayer) (x t : tensor R) B V W :
  shape x = [B; V; W] → MLPLayer_forward m x = Ok t →
  ∃ out, shape t = [B; V; out].
Proof.
  intros Hx. unfold MLPLayer_forward, linear. rewrite Hx.
  destruct (shape (dense_weight m)) as [|out [|inp [|]]]; try done.
  cbn [reverse rev_append]. case_bool_decide; [|done].
  cbn [mbind result_bind]. intros [= <-]. exists out.
  unfold dim. by rewrite Hx.
Qed.

Lemma flatten_views_2d_inv (t t' : tensor Z) B S :
  shape t = [B; S] → flatten_views t = Ok t' → shape t' = [B; S] ∧ 0 < S.
Proof.
  intros Hsh. destruct (decide (S = 0)) as [->|HS].
  - unfold flatten_views, size, dim, view. rewrite Hsh. done.
  - rewrite (flatten_views_2d t B S) by (done || lia).
    intros [= <-]. split; [done|lia].
Qed.

(** C1: with [do_stronger] set and a 3-view input the pass never reaches
    the two-view split with views 0 and 1: line 178 keeps view 0 only, so
    [num_sent] is the sequence length, and the reshape of the pooled output
    to [(batch, num_sent, hidden)] or the split into [z1] and [z2] raises. *)
Theorem cl_forward_stronger_never_returns cls e W B S dist ids mask tti rd
    mlm tok :
  do_stronger (model_args cls) = true →
  bert cls = Some e → encoder_shapes (encoder_forward e) W →
  model_consistent cls →
  shape ids = [B; 3; S] → shape mask = [B; 3; S] → 0 < B → 0 < W →
  fails (cl_forward dist self_bert ids mask tti rd mlm tok) cls.
Proof.
  intros Hs He Henc (Hpool & Hargs & Hvalid) Hids Hmask HB HW.
  unfold cl_forward. apply fails_bind_get_self.
  apply fails_bind_lift. intros B' HB'.
  assert (B' = B) as -> by (unfold size, dim in HB'; rewrite Hids in HB';
                            by injection HB').
  apply fails_bind. intros [[[sp ids'] mask'] tti'] cls' Hrun.
  destruct (cl_stronger_inv _ _ _ _ _ _ _ Hs He Hrun) as [[fl ->] Hsel].
  destruct (Hsel _ _ _ _ eq_refl) as [Hids' Hmask'].
  apply (select_3d_shape _ _ _ _ Hids) in Hids'.
  apply (select_3d_shape _ _ _ _ Hmask) in Hmask'.
  apply fails_bind_Raise. unfold cl_encode. apply fails_bind_get_self.
  cbn [set_bert model_args pooler cls_pooler_type mlp].
  apply fails_bind_lift. intros S' HS'.
  assert (S' = S) as -> by (unfold size, dim in HS'; rewrite Hids' in HS';
                            by injection HS').
  apply fails_bind_lift. intros fids Hfids.
  apply (flatten_views_2d_inv _ _ _ _ Hids') in Hfids as [Hfids HS].
  apply fails_bind_lift. intros fmask Hfmask.
  apply (flatten_views_2d_inv _ _ _ _ Hmask') in Hfmask as [Hfmask _].
  apply fails_bind_lift. intros ftti _.
  apply fails_bind_pure; [apply pure_call_encoder|].
  intros o Ho. unfold call_encoder in Ho. cbn [deref set_bert bert] in Ho.
  cbn [getattr mbind result_bind encoder_forward flags] in Ho.
  injection Ho as Ho.
  pose proof (Henc _ _ _ _ _ B S o Hfids Ho) as Hok.
  rewrite Hargs in Hok. rewrite Hpool.
  destruct (Pooler_forward_ok _ fmask o B S W Hvalid Hok Hfmask HS)
    as (p & Hp & Hpsh).
  apply (fails_bind_lift_Ok _ _ _ p Hp).
  rewrite (size_last_2d p B W Hpsh). cbn [mbind result_bind].
  destruct (decide (S = 1)) as [->|HS1].
  - apply (fails_bind_lift_Ok _ _ _ (Tensor [B; 1; W] (data p))).
    { unfold view. rewrite Hpsh.
      by rewrite (infer_size_exact [B; 1; W]) by (simpl; lia). }
    apply fails_bind. intros q s' Hq.
    assert (∃ out, shape q = [B; 1; out]) as [out Hqsh].
    { revert Hq. case_bool_decide.
      - destruct (getattr (mlp cls)) as [m|]; [|done].
        cbn [lift mbind result_bind].
        destruct (MLPLayer_forward m _) as [q'|] eqn:Hm; [|done].
        intros [= <- <-].
        by apply (MLPLayer_forward_shape m (Tensor [B; 1; W] (data p)) _
                    B 1 W eq_refl Hm).
      - intros [= <- <-]. by exists W. }
    apply fails_bind_lift. intros z1 _.
    apply (fails_bind_lift_Raise _ _ _ IndexError).
    apply (select_singleton_fail q B out Hqsh).
  - apply (fails_bind_lift_Raise _ _ _ RuntimeError).
    unfold view. rewrite Hpsh.
    rewrite (infer_size_mismatch [B; S; W]); [done|]. simpl. nia.
Qed.

Lemma cl_forward_stronger_never_returns_witness :
  fails (cl_forward None self_bert three_views three_views_mask
           (Some three_views_mask) None None 101)
    (example_bert "cls" true false 4 2).
Proof.
  apply (cl_forward_stronger_never_returns (example_bert "cls" true false 4 2)
           {| flags := ∅; encoder_forward := example_encoder 2 |} 2 2 2
           None three_views three_views_mask (Some three_views_mask) None None
           101 eq_refl eq_refl (example_encoder_shapes 2)
           (example_bert_consistent "cls" true false 4 2
              ltac:(unfold valid_pooler_types; set_solver))
           eq_refl eq_refl); lia.
Defined.

(** The exceptions on two inputs: the reshape raises when a view has two
    tokens, the split raises when it has one. *)
Lemma cl_forward_stronger_raises :
  (cl_forward None self_bert three_views three_views_mask
     (Some three_views_mask) None None 101
     (example_bert "cls" true false 4 2)).1 = Raise RuntimeError
  ∧ (cl_forward None self_bert three_short_views three_short_views_mask
       (Some three_short_views_mask) None None 101
       (example_bert "cls" true false 4 2)).1 = Raise IndexError.
Proof. split; vm_compute; reflexivity. Qed.

(** ** The auxiliary branches *)

(** After line 178 the batch is [(B, S)]: the encode step raises. *)
Lemma cl_encode_truncated_fails cls e fl W B S ids mask tti :
  encoder_shapes (encoder_forward e) W → model_consistent cls →
  shape ids = [B; S] → shape mask = [B; S] → 0 < B → 0 < W →
  fails (cl_encode self_bert B ids mask tti)
    (set_bert {| flags := fl; encoder_forward := encoder_forward e |} cls).
Proof.
  intros Henc (Hpool & Hargs & Hvalid) Hids' Hmask' HB HW.
  unfold cl_encode. apply fails_bind_get_self.
  cbn [set_bert model_args pooler cls_pooler_type mlp].
  apply fails_bind_lift. intros S' HS'.
  assert (S' = S) as -> by (unfold size, dim in HS'; rewrite Hids' in HS';
                            by injection HS').
  apply fails_bind_lift. intros fids Hfids.
  apply (flatten_views_2d_inv _ _ _ _ Hids') in Hfids as [Hfids HS].
  apply fails_bind_lift. intros fmask Hfmask.
  apply (flatten_views_2d_inv _ _ _ _ Hmask') in Hfmask as [Hfmask _].
  apply fails_bind_lift. intros ftti _.
  apply fails_bind_pure; [apply pure_call_encoder|].
  intros o Ho. unfold call_encoder in Ho. cbn [deref set_bert bert] in Ho.
  cbn [getattr mbind result_bind encoder_forward flags] in Ho.
  injection Ho as Ho.
  pose proof (Henc _ _ _ _ _ B S o Hfids Ho) as Hok.
  rewrite Hargs in Hok. rewrite Hpool.
  destruct (Pooler_forward_ok _ fmask o B S W Hvalid Hok Hfmask HS)
    as (p & Hp & Hpsh).
  apply (fails_bind_lift_Ok _ _ _ p Hp).
  rewrite (size_last_2d p B W Hpsh). cbn [mbind result_bind].
  destruct (decide (S = 1)) as [->|HS1].
  - apply (fails_bind_lift_Ok _ _ _ (Tensor [B; 1; W] (data p))).
    { unfold view. rewrite Hpsh.
      by rewrite (infer_size_exact [B; 1; W]) by (simpl; lia). }
    apply fails_bind. intros q s' Hq.
    assert (∃ out, shape q = [B; 1; out]) as [out Hqsh].
    { revert Hq. case_bool_decide.
      - destruct (getattr (mlp cls)) as [m|]; [|done].
        cbn [lift mbind result_bind].
        destruct (MLPLayer_forward m _) as [q'|] eqn:Hm; [|done].
        intros [= <- <-].
        by apply (MLPLayer_forward_shape m (Tensor [B; 1; W] (data p)) _
                    B 1 W eq_refl Hm).
      - intros [= <- <-]. by exists W. }
    apply fails_bind_lift. intros z1 _.
    apply (fails_bind_lift_Raise _ _ _ IndexError).
    apply (select_singleton_fail q B out Hqsh).
  - apply (fails_bind_lift_Raise _ _ _ RuntimeError).
    unfold view. rewrite Hpsh.
    rewrite (infer_size_mismatch [B; S; W]); [done|]. simpl. nia.
Qed.

(** With [do_stronger] set the pass raises before the auxiliary branches,
    with the bank and the pointer as they were. *)
Lemma cl_forward_stronger_stops cls e W B V S dist ids mask tti rd mlm tok
    r cls' :
  do_stronger (model_args cls) = true →
  bert cls = Some e → encoder_shapes (encoder_forward e) W →
  model_consistent cls →
  shape ids = [B; V; S] → shape mask = [B; V; S] → 0 < B → 0 < W →
  cl_forward dist self_bert ids mask tti rd mlm tok cls = (r, cls') →
  (∃ ex, r = Raise ex)
  ∧ queue cls' = queue cls ∧ queue_ptr cls' = queue_ptr cls.
Proof.
  intros Hs He Henc Hcons Hids Hmask HB HW.
  unfold cl_forward. rewrite bind_get_self.
  rewrite (bind_lift_Ok _ _ _ B) by (unfold size, dim; by rewrite Hids).
  unfold mbind at 1, M_bind at 1.
  destruct (cl_stronger ids mask tti cls) as [rs cls1] eqn:E1.
  destruct (cl_stronger_inv _ _ _ _ _ _ _ Hs He E1) as [[fl ->] Hsel].
  destruct rs as [[[[sp ids'] mask'] tti']|ex].
  2:{ intros [= <- <-]. split; [by eexists|done]. }
  destruct (Hsel _ _ _ _ eq_refl) as [Hids' Hmask'].
  apply (select_3d_shape _ _ _ _ Hids) in Hids'.
  apply (select_3d_shape _ _ _ _ Hmask) in Hmask'.
  destruct (cl_encode_truncated_fails cls e fl W B S ids' mask' tti'
              Henc Hcons Hids' Hmask' HB HW) as (ex & s' & Hfail).
  pose proof (cl_encode_pure _ _ _ _ _ _ _ _ Hfail) as ->.
  unfold mbind at 1, M_bind at 1. rewrite Hfail.
  intros [= <- <-]. split; [by eexists|done].
Qed.



(** ** The loss *)

Lemma Softmax_forward_rows (c : tensor R) n K :
  shape c = [n; K] →
  ∃ sm, Softmax_forward c = Ok sm ∧ shape sm = [n; K] ∧ wf sm
        ∧ ∀ i j, i < n → j < K → get sm (i * K + j) = softmax_entry c K i j.
Proof.
  intros Hc. unfold Softmax_forward, softmax, dim. rewrite Hc.
  cbn [length softmax_implicit_dim].
  change (wrap_dim 2 1) with (@Ok nat 1). cbn [mbind result_bind].
  eexists. split; [done|]. split; [done|]. split; [apply wf_tabulate|].
  intros i j Hi Hj.
  rewrite get_tabulate by (cbn [numel foldr]; nia).
  unfold softmax_entry, extent, inner. cbn [drop numel foldr].
  change ([n; K] !!! 1) with K. rewrite Nat.mul_1_r.
  destruct (div_mod_offset i K j Hj) as [-> _].
  do 2 f_equal. apply list_fmap_ext. intros _ e _.
  by rewrite Nat.mul_1_r, Nat.mod_1_r, Nat.add_0_r.
Qed.

Lemma t_2d {A} `{Inhabited A} (x : tensor A) m n :
  shape x = [m; n] →
  t_ x = Ok (tabulate [n; m] (λ k, get x (k mod m * n + k / m))).
Proof. intros Hx. unfold t_. by rewrite Hx. Qed.

Lemma mm_eval (a b : tensor R) n k m :
  shape a = [n; k] → shape b = [k; m] →
  mm a b = Ok (tabulate [n; m]
                 (λ o, Rsum ((λ l, get a (o / m * k + l)
                                   * get b (l * m + o mod m))%R
                             <$> seq 0 k))).
Proof. intros Ha Hb. unfold mm. by rewrite Ha, Hb, Nat.eqb_refl. Qed.

Lemma index_diag_square {A} `{Inhabited A} (t : tensor A) n :
  shape t = [n; n] →
  index_diag t = Ok (tabulate [n] (λ k, get t (k * n + k))).
Proof.
  intros Ht. unfold index_diag. rewrite Ht.
  rewrite bool_decide_eq_true_2 by lia. f_equal.
  unfold tabulate. f_equal. apply list_fmap_ext. intros _ k _.
  cbn [numel foldr]. by rewrite Nat.div_1_r, Nat.mod_1_r, Nat.mul_1_r, Nat.add_0_r.
Qed.

Lemma py_sum_vector (t : tensor R) n :
  shape t = [n] →
  py_sum t = Ok (Tensor [] [foldl Rplus 0%R (get t <$> seq 0 n)]).
Proof.
  intros Ht. unfold py_sum. rewrite Ht. f_equal.
  unfold tabulate. cbn [numel foldr seq fmap list_fmap]. do 3 f_equal.
  apply list_fmap_ext. intros _ i _. by rewrite Nat.mul_1_r, Nat.add_0_r.
Qed.

Lemma cl_ld_loss_value cls z2 q n K D :
  queue cls = Some q → shape q = [K; D] → shape z2 = [n; D] → 0 < n →
  ∃ c, pairwise_sim (sim cls) z2 q = Ok c ∧ shape c = [n; K]
       ∧ cl_ld_loss cls z2 = Ok (c, c, Tensor [] [ld_loss_value c n K]).
Proof.
  intros Hq Hqsh Hz2 Hn.
  destruct (pairwise_sim_ok (sim cls) z2 q n K D Hz2 Hqsh)
    as (c & Hc & Hcsh & _).
  exists c. split; [done|]. split; [done|].
  unfold cl_ld_loss. rewrite Hq. cbn [getattr mbind result_bind].
  rewrite Hc. cbn [mbind result_bind].
  destruct (Softmax_forward_rows c n K Hcsh) as (sm & -> & Hsm & Wsm & Hget).
  cbn [mbind result_bind].
  rewrite (t_2d (log sm) n K) by done. cbn [mbind result_bind].
  rewrite (mm_eval sm _ n K n) by done. cbn [mbind result_bind].
  change (py_index (shape (tabulate [n; n] ?f)) 0) with (@Ok nat n).
  cbn [mbind result_bind].
  rewrite (index_diag_square _ n) by done. cbn [mbind result_bind].
  rewrite (py_sum_vector _ n) by done. cbn [mbind result_bind].
  replace (n =? 0) with false by (symmetry; apply Nat.eqb_neq; lia).
  cbn [mbind result_bind]. do 3 f_equal.
  unfold abs, torch.map. cbn [shape data fmap list_fmap].
  do 2 f_equal. unfold ld_loss_value. do 3 f_equal.
  apply list_fmap_ext. intros i ? [-> Hi]%lookup_seq. cbn [Nat.add].
  rewrite get_tabulate by (cbn [numel foldr]; lia).
  rewrite get_tabulate by (cbn [numel foldr]; nia).
  unfold distill_diag. f_equal. apply list_fmap_ext.
  intros l ? [-> Hl]%lookup_seq. cbn [Nat.add].
  destruct (div_mod_offset i n i Hi) as [-> ->].
  rewrite Hget by done. f_equal.
  rewrite get_tabulate by (cbn [numel foldr]; nia).
  destruct (div_mod_offset l n i Hi) as [-> ->].
  unfold log. rewrite get_map; [by rewrite Hget|].
  unfold wf in Wsm. rewrite Wsm, Hsm. cbn [numel foldr]. nia.
Qed.

Lemma offset3_split b S s W h :
  s < S → h < W →
  let o := (b * S + s) * W + h in
  o / (S * W) = b ∧ o mod (S * W) = s * W + h
  ∧ (s * W + h) / W = s ∧ (s * W + h) mod W = h.
Proof.
  intros Hs Hh o.
  destruct (div_mod_offset s W h Hh) as [H1 H2].
  assert (Ho : o = b * (S * W) + (s * W + h)) by (unfold o; lia).
  destruct (div_mod_offset b (S * W) (s * W + h) ltac:(nia)) as [H3 H4].
  rewrite Ho. auto.
Qed.

Lemma bindex_rows_left n K D i j e :
  i < n → j < K → e < D →
  bindex [n; 1; D] [n; K; D] ((i * K + j) * D + e) = i * D + e.
Proof.
  intros Hi Hj He. cbn [bindex numel foldr]. rewrite !Nat.mul_1_r.
  destruct (offset3_split i K j D e Hj He) as (-> & -> & _ & H4).
  rewrite H4, Nat.div_1_r. cbn [Nat.eqb].
  destruct (n =? 1) eqn:E1; destruct (D =? 1) eqn:E2;
    try apply Nat.eqb_eq in E1; try apply Nat.eqb_eq in E2; lia.
Qed.

Lemma bindex_rows_right n K D i j e :
  i < n → j < K → e < D →
  bindex [1; K; D] [n; K; D] ((i * K + j) * D + e) = j * D + e.
Proof.
  intros Hi Hj He. cbn [bindex numel foldr]. rewrite !Nat.mul_1_r.
  destruct (offset3_split i K j D e Hj He) as (_ & -> & -> & ->).
  rewrite Nat.div_1_r. cbn [Nat.eqb].
  destruct (K =? 1) eqn:E1; destruct (D =? 1) eqn:E2;
    try apply Nat.eqb_eq in E1; try apply Nat.eqb_eq in E2; lia.
Qed.

Lemma pairwise_sim_entries (s : Similarity) (a b : tensor R) n m D :
  shape a = [n; D] → shape b = [m; D] →
  ∃ c, pairwise_sim s a b = Ok c ∧ shape c = [n; m] ∧ wf c
       ∧ ∀ i j, i < n → j < m → get c (i * m + j) = sim_entry s a b D i j.
Proof.
  intros Ha Hb. unfold pairwise_sim.
  rewrite (unsqueeze_eval a 1) by (unfold dim; rewrite Ha; simpl; lia).
  cbn [mbind result_bind].
  rewrite (unsqueeze_eval b 0) by lia. cbn [mbind result_bind].
  rewrite Ha, Hb. change (Z.to_nat 1) with 1. change (Z.to_nat 0) with 0.
  cbn [take drop app].
  unfold Similarity_forward, cosine_similarity. cbn [shape].
  rewrite broadcast_pairwise. cbn [mbind result_bind reverse rev_append].
  cbn [length Nat.sub take]. cbn [mbind result_bind].
  eexists. split; [done|]. split; [done|].
  split; [unfold wf; simpl; by rewrite !length_fmap, length_seq|].
  intros i j Hi Hj.
  rewrite get_map by (simpl; rewrite length_fmap, length_seq; nia).
  rewrite get_tabulate by (cbn [numel foldr]; nia).
  unfold sim_entry, cosine.
  assert (Hx : ∀ e, e < D →
            bget (Tensor [n; 1; D] (data a)) [n; m; D] ((i * m + j) * D + e)
            = get a (i * D + e)).
  { intros e He. unfold bget. cbn [shape length pad_shape Nat.sub replicate app].
    by rewrite bindex_rows_left. }
  assert (Hy : ∀ e, e < D →
            bget (Tensor [1; m; D] (data b)) [n; m; D] ((i * m + j) * D + e)
            = get b (j * D + e)).
  { intros e He. unfold bget. cbn [shape length pad_shape Nat.sub replicate app].
    by rewrite bindex_rows_right. }
  f_equal. f_equal; [|do 3 f_equal].
  all: f_equal; apply list_fmap_ext; intros e ? [-> He]%lookup_seq;
    cbn [Nat.add]; by rewrite ?Hx, ?Hy by done.
Qed.

(** C4: with [do_stronger] or [do_mlm] set, the two bank similarity
    matrices are the same matrix [c], whose entry [(i, j)] is the cosine
    similarity of row [i] of [z2] and row [j] of the bank divided by the
    temperature; [ld_loss] is the absolute value of the average over the
    examples of the diagonal of [softmax(c) @ log(softmax(c)).t()]; and the
    loss is the cross entropy of [cos_sim] plus [mlm_weight * ld_loss]. *)
Theorem auxiliary_loss cls z1 z2 q n K D :
  do_stronger (model_args cls) || do_mlm (model_args cls) = true →
  queue cls = Some q → shape q = [K; D] →
  shape z1 = [n; D] → shape z2 = [n; D] → 0 < n →
  ∃ c cos_sim ce,
    pairwise_sim (sim cls) z2 q = Ok c
    ∧ shape c = [n; K]
    ∧ (∀ i j, i < n → j < K →
         get c (i * K + j) = sim_entry (sim cls) z2 q D i j)
    ∧ cl_ld_loss cls z2 = Ok (c, c, Tensor [] [ld_loss_value c n K])
    ∧ pairwise_sim (sim cls) z1 z2 = Ok cos_sim
    ∧ cross_entropy cos_sim (arange n) = Ok (Tensor [] [ce])
    ∧ cl_loss cls z1 z2
      = Ok (Tensor []
              [(ce + mlm_weight (model_args cls) * ld_loss_value c n K)%R],
            cos_sim).
Proof.
  intros Haux Hq Hqsh Hz1 Hz2 Hn.
  destruct (cl_ld_loss_value cls z2 q n K D Hq Hqsh Hz2 Hn)
    as (c & Hc & Hcsh & Hld).
  destruct (pairwise_sim_entries (sim cls) z2 q n K D Hz2 Hqsh)
    as (c' & Hc' & _ & _ & Hent).
  assert (c' = c) as -> by congruence.
  destruct (pairwise_sim_ok (sim cls) z1 z2 n n D Hz1 Hz2)
    as (cos_sim & Hcos & Hcossh & _).
  destruct (cross_entropy_ok cos_sim n Hcossh) as [ce Hce].
  exists c, cos_sim, ce. repeat split; try done.
  unfold cl_loss. rewrite Hcos. cbn [mbind result_bind].
  rewrite Haux, Hld. cbn [mbind result_bind].
  unfold size, dim. rewrite Hcossh.
  change (wrap_dim (length [n; n]) 0) with (@Ok nat 0).
  cbn [mbind result_bind]. change ([n; n] !!! 0) with n.
  rewrite Hce. cbn [mbind result_bind local].
  by rewrite (map2_same_shape _ _ _ []) by done.
Qed.

Lemma auxiliary_loss_witness :
  let cls := example_bert "avg" false true 4 2 in
  let z1 := Tensor [2; 2] [1; 0; 0; 1]%R in
  let z2 := Tensor [2; 2] [1; 1; 0; 2]%R in
  ∃ c cos_sim ce,
    cl_ld_loss cls z2 = Ok (c, c, Tensor [] [ld_loss_value c 2 4])
    ∧ cl_loss cls z1 z2
      = Ok (Tensor [] [(ce + 1 * ld_loss_value c 2 4)%R], cos_sim).
Proof.
  intros cls z1 z2.
  destruct (auxiliary_loss cls z1 z2 (tabulate [4; 2] (λ _, 0%R)) 2 4 2
              eq_refl eq_refl eq_refl eq_refl eq_refl ltac:(lia))
    as (c & cos_sim & ce & _ & _ & _ & Hld & _ & _ & Hloss).
  by exists c, cos_sim, ce.
Defined.

(** ** Sentence embeddings *)

(** [sentemb_forward] returns the pooled encoder output, projected when the
    mode is [cls] and the head is not for training only. *)
Lemma sentemb_forward_pooled cls enc e ids mask tti rd o p p' :
  deref enc cls = Some e →
  encoder_forward e (flags e) ids mask tti
    (needs_hidden_states (cls_pooler_type cls)) = Ok o →
  Pooler_forward (pooler cls) mask o = Ok p →
  sentemb_projection cls p = Ok p' →
  ∃ out, sentemb_forward enc ids mask tti rd cls = (Ok out, cls)
         ∧ sentemb_pooled out = Some p'
         ∧ (cls_pooler_type cls ≠ "cls" → p' = p).
Proof.
  intros He Ho Hp Hproj. unfold sentemb_forward.
  rewrite bind_get_self.
  rewrite (bind_call_encoder _ _ _ _ _ _ _ e o He Ho).
  rewrite (bind_lift_Ok _ _ _ p Hp).
  assert ((if bool_decide (cls_pooler_type cls = "cls")
              && negb (mlp_only_train (model_args cls))
           then lift (m ← getattr (mlp cls); MLPLayer_forward m p)
           else mret p) = (mret p' : M CLModel (tensor R))) as ->.
  { unfold sentemb_projection in Hproj.
    destruct (_ && _); [by rewrite Hproj|by injection Hproj as ->]. }
  rewrite bind_mret.
  assert (Hnc : cls_pooler_type cls ≠ "cls" → p' = p).
  { intros Hne. unfold sentemb_projection in Hproj.
    rewrite bool_decide_eq_false_2 in Hproj by done. by injection Hproj. }
  destruct (negb (default (use_return_dict cls) rd)).
  - rewrite (bind_lift_Ok _ _ _ (VTensor (last_hidden_state o))) by done.
    by eexists.
  - by eexists.
Qed.

(** Steps through a run that returned, one bind at a time. *)
Ltac returned_steps :=
  repeat match goal with
  | |- (get_self ≫= _) _ = _ → _ => rewrite bind_get_self
  | |- (lift ?r ≫= _) _ = _ → _ =>
      let E := fresh "E" in
      destruct r eqn:E;
      [erewrite bind_lift_Ok by done
      |erewrite bind_lift_Raise by done; intros [=]]
  | |- (call_encoder ?a ?b ?c ?d ?e ≫= _) ?s = _ → _ =>
      unfold mbind at 1, M_bind at 1;
      let E := fresh "E" in
      destruct (call_encoder a b c d e s) as [[?|?] ?] eqn:E;
      [apply pure_call_encoder in E as ?; subst|intros [=]]
  | |- (mret _ ≫= _) _ = _ → _ => rewrite bind_mret
  end.

Lemma cl_encode_pooling enc B ids mask tti cls o mask' tti' V z1 z2 cls' :
  cl_encode enc B ids mask tti cls = (Ok (o, mask', tti', V, z1, z2), cls') →
  ∃ p h pv q,
    Pooler_forward (pooler cls) mask' o = Ok p
    ∧ size p (-1) = Ok h
    ∧ view p [Z.of_nat B; Z.of_nat V; Z.of_nat h] = Ok pv
    ∧ cl_projection cls pv = Ok q
    ∧ select q 1 0 = Ok z1 ∧ select q 1 1 = Ok z2.
Proof.
  unfold cl_encode. returned_steps.
  destruct (size _ (-1)) as [h|] eqn:Hh; [|done].
  cbn [mbind result_bind] in *.
  unfold cl_projection.
  destruct (bool_decide (cls_pooler_type cls = "cls")).
  - returned_steps. intros [= <- <- <- <- <- <- <-].
    by eexists _, _, _, _.
  - returned_steps. intros [= <- <- <- <- <- <- <-].
    by eexists _, _, _, _.
Qed.

Lemma view_3d_inv {A} (t : tensor A) a b c tv :
  view t [Z.of_nat a; Z.of_nat b; Z.of_nat c] = Ok tv →
  tv = Tensor [a; b; c] (data t).
Proof.
  unfold view. change [Z.of_nat a; Z.of_nat b; Z.of_nat c]
    with (Z.of_nat <$> [a; b; c]).
  destruct (decide (numel [a; b; c] = numel (shape t))) as [Hn|Hn].
  - rewrite (infer_size_exact _ _ Hn). cbn [mbind result_bind].
    by intros [= <-].
  - by rewrite (infer_size_mismatch _ _ Hn).
Qed.

(** The projection head reads its input row by row: on a batch of shape
    [(B * V, W)] and on its view of shape [(B, V, W)] it computes the same
    entries. *)
Lemma MLPLayer_forward_view m (x : tensor R) B V W q :
  shape x = [B * V; W] →
  MLPLayer_forward m (Tensor [B; V; W] (data x)) = Ok q →
  ∃ out p', MLPLayer_forward m x = Ok p' ∧ shape p' = [B * V; out]
            ∧ shape q = [B; V; out] ∧ data p' = data q.
Proof.
  intros Hx. unfold MLPLayer_forward, linear, dim. rewrite Hx. cbn [shape].
  destruct (shape (dense_weight m)) as [|out [|inp [|]]]; try done.
  change (reverse [B; V; W]) with [W; V; B].
  change (reverse [B * V; W]) with [W; B * V].
  cbv beta iota.
  destruct (bool_decide (W = inp ∧ shape (dense_bias m) = [out])); [|done].
  cbn [mbind result_bind].
  intros [= <-]. exists out. eexists. split; [done|].
  split; [done|]. split; [done|].
  unfold torch.map, tabulate. cbn [data shape length Nat.sub take app].
  replace (numel [B * V; out]) with (numel [B; V; out])
    by (cbn [numel foldr]; lia).
  done.
Qed.

Lemma tanh_0 : tanh 0 = 0%R.
Proof. unfold tanh. rewrite sinh_0. unfold Rdiv. apply Rmult_0_l. Qed.





(** * Further properties of the module *)

(** ** Sums of reals *)

Lemma Rsum_ext (f g : nat → R) (l : list nat) :
  (∀ e, e ∈ l → f e = g e) → Rsum (f <$> l) = Rsum (g <$> l).
Proof.
  intros Hfg. f_equal. apply list_fmap_ext. intros i e He.
  apply Hfg. by eapply list_elem_of_lookup_2.
Qed.

Lemma Rsum_scal (c : R) (f : nat → R) (l : list nat) :
  Rsum ((λ e, c * f e)%R <$> l) = (c * Rsum (f <$> l))%R.
Proof.
  unfold Rsum. induction l as [|x l IH]; csimpl; [lra|].
  rewrite IH. lra.
Qed.

Lemma Rsum_opp (f : nat → R) (l : list nat) :
  Rsum ((λ e, - f e)%R <$> l) = (- Rsum (f <$> l))%R.
Proof.
  unfold Rsum. induction l as [|x l IH]; csimpl; [lra|]. rewrite IH. lra.
Qed.

Lemma Rsum_nonneg_on (f : nat → R) (l : list nat) :
  (∀ e, e ∈ l → (0 <= f e)%R) → (0 <= Rsum (f <$> l))%R.
Proof.
  unfold Rsum. induction l as [|x l IH]; csimpl; intros Hf; [lra|].
  pose proof (Hf x ltac:(left)).
  assert (0 <= foldr Rplus 0 (f <$> l))%R
    by (apply IH; intros; apply Hf; by right).
  lra.
Qed.

Lemma Rsum_squares_nonneg (f : nat → R) (l : list nat) :
  (0 <= Rsum ((λ e, f e * f e)%R <$> l))%R.
Proof. apply Rsum_nonneg_on. intros e _. nra. Qed.

Lemma Rsum_ge_term (f : nat → R) (l : list nat) k :
  (∀ e, (0 <= f e)%R) → k ∈ l → (f k <= Rsum (f <$> l))%R.
Proof.
  intros Hf. unfold Rsum. induction l as [|x l IH]; [by intros ?%elem_of_nil|].
  csimpl. intros [->|Hk]%elem_of_cons.
  - pose proof (Rsum_nonneg_on f l (λ e _, Hf e)). unfold Rsum in *. lra.
  - specialize (IH Hk). specialize (Hf x). lra.
Qed.

Lemma foldl_Rplus (a : R) (l : list R) :
  foldl Rplus a l = (a + Rsum l)%R.
Proof.
  unfold Rsum. revert a. induction l as [|x l IH]; intros a; simpl; [lra|].
  rewrite IH. lra.
Qed.

Lemma cauchy_schwarz (f g : nat → R) (l : list nat) :
  (Rsum ((λ e, f e * g e) <$> l) * Rsum ((λ e, f e * g e) <$> l)
   <= Rsum ((λ e, f e * f e) <$> l) * Rsum ((λ e, g e * g e) <$> l))%R.
Proof.
  induction l as [|x l IH]; [unfold Rsum; csimpl; lra|].
  pose proof (Rsum_squares_nonneg f l) as HA.
  pose proof (Rsum_squares_nonneg g l) as HB.
  unfold Rsum in *. csimpl.
  set (A := foldr Rplus 0%R ((λ e, f e * f e)%R <$> l)) in *.
  set (B := foldr Rplus 0%R ((λ e, g e * g e)%R <$> l)) in *.
  set (C := foldr Rplus 0%R ((λ e, f e * g e)%R <$> l)) in *.
  set (a := f x). set (b := g x).
  assert (HaB : (0 <= a * a * B)%R) by (apply Rmult_le_pos; [nra|done]).
  assert (HbA : (0 <= b * b * A)%R) by (apply Rmult_le_pos; [nra|done]).
  assert (H2 : (2 * a * b * C <= a * a * B + b * b * A)%R).
  { destruct (Rle_dec (2 * a * b * C) 0) as [Hneg|Hpos%Rnot_le_lt].
    - lra.
    - apply Rsqr_incr_0_var; [|lra]. unfold Rsqr.
      pose proof (Rle_0_sqr (a * a * B - b * b * A)) as Hsq.
      unfold Rsqr in Hsq.
      assert ((a * b * C) * (a * b * C) <= (a * a * B) * (b * b * A))%R.
      { replace ((a * b * C) * (a * b * C))%R
          with ((a * a) * (b * b) * (C * C))%R by ring.
        replace ((a * a * B) * (b * b * A))%R
          with ((a * a) * (b * b) * (A * B))%R by ring.
        apply Rmult_le_compat_l; [nra|done]. }
      nra. }
  nra.
Qed.

(** ** Outcomes of a computation *)

Lemma bind_Raise_inv {A B} (m : result A) (f : A → result B) e :
  m ≫= f = Raise e → m = Raise e ∨ ∃ a, m = Ok a ∧ f a = Raise e.
Proof.
  destruct m as [a|e']; cbn [mbind result_bind]; intros Hr.
  - right. by exists a.
  - left. by injection Hr as ->.
Qed.

Lemma bind_result_inv {A B} (m : result A) (f : A → result B) b :
  m ≫= f = Ok b → ∃ a, m = Ok a ∧ f a = Ok b.
Proof. destruct m as [a|e]; [|done]. intros Hf. by exists a. Qed.

Lemma pure_pure_at {St A} (m : M St A) s : pure m → pure_at m s.
Proof. intros Hp r s'. apply Hp. Qed.

Lemma pure_at_bind {St A B} (m : M St A) (f : A → M St B) s :
  pure_at m s → (∀ a, m s = (Ok a, s) → pure_at (f a) s) →
  pure_at (m ≫= f) s.
Proof.
  intros Hm Hf r s'. unfold mbind, M_bind.
  destruct (m s) as [[a|e] s1] eqn:E.
  - pose proof (Hm _ _ E) as ->. by apply Hf.
  - intros [= <- <-]. by apply (Hm _ _ E).
Qed.

Lemma keeps_bind {St A B X} (proj : St → X) (m : M St A) (f : A → M St B) :
  keeps proj m → (∀ a, keeps proj (f a)) → keeps proj (m ≫= f).
Proof.
  intros Hm Hf s r s'. unfold mbind, M_bind.
  destruct (m s) as [[a|e] s1] eqn:E.
  - intros Hr. apply Hf in Hr. apply Hm in E. congruence.
  - intros [= <- <-]. by apply Hm in E.
Qed.

Lemma keeps_pure {St A X} (proj : St → X) (m : M St A) :
  pure m → keeps proj m.
Proof. intros Hp s r s' Hm. by rewrite (Hp _ _ _ Hm). Qed.

Lemma keeps_weaken {St A X Y} (p : St → X) (q : St → Y) (m : M St A) :
  (∀ s s', p s' = p s → q s' = q s) → keeps p m → keeps q m.
Proof. intros Hpq Hm s r s' Hrun. eapply Hpq, Hm, Hrun. Qed.

Lemma call_encoder_inv e ids mask tti ohs cls o cls' :
  call_encoder e ids mask tti ohs cls = (Ok o, cls') →
  cls' = cls
  ∧ ∃ enc, deref e cls = Some enc
           ∧ encoder_forward enc (flags enc) ids mask tti ohs = Ok o.
Proof.
  unfold call_encoder. destruct (deref e cls) as [enc|]; [|done].
  cbn [getattr mbind result_bind]. intros [= Ho <-]. split; [done|].
  by exists enc.
Qed.

(** ** [MLPLayer] and [Similarity] *)

Lemma tanh_bounds (x : R) : (-1 < tanh x < 1)%R.
Proof.
  unfold tanh, sinh, cosh.
  pose proof (exp_pos x) as Hp. pose proof (exp_pos (- x)) as Hn.
  assert (Hc : (0 < (exp x + exp (- x)) / 2)%R) by lra.
  split.
  - apply (Rmult_lt_reg_r ((exp x + exp (- x)) / 2)); [done|].
    unfold Rdiv at 2. rewrite Rmult_assoc, Rinv_l by lra. lra.
  - apply (Rmult_lt_reg_r ((exp x + exp (- x)) / 2)); [done|].
    unfold Rdiv at 1. rewrite Rmult_assoc, Rinv_l by lra. lra.
Qed.

(** X1: [MLPLayer.forward] keeps the leading dimensions and maps the last
    one through the dense layer; entry [k] of the result is
    [tanh (w[k mod out] . x[k / out] + bias[k mod out])], so every entry lies
    between -1 and 1, the two bounds included (in floating point [tanh]
    reaches them). *)
Theorem MLPLayer_forward_entries (m : MLPLayer) (x : tensor R) pre W out :
  shape (dense_weight m) = [out; W] → shape (dense_bias m) = [out] →
  shape x = pre ++ [W] →
  ∃ t, MLPLayer_forward m x = Ok t ∧ shape t = pre ++ [out]
       ∧ ∀ k, k < numel (pre ++ [out]) →
           get t k
           = tanh (Rsum ((λ i, get x (k / out * W + i)
                               * get (dense_weight m) (k mod out * W + i))%R
                         <$> seq 0 W)
                   + get (dense_bias m) (k mod out))
           ∧ (-1 <= get t k <= 1)%R.
Proof.
  intros Hw Hb Hx. unfold MLPLayer_forward, linear.
  rewrite Hw, Hx, reverse_snoc.
  rewrite bool_decide_eq_true_2 by done. cbn [mbind result_bind].
  assert (Hsh : take (dim x - 1) (pre ++ [W]) ++ [out] = pre ++ [out]).
  { unfold dim. rewrite Hx, length_app. simpl.
    replace (length pre + 1 - 1) with (length pre) by lia.
    by rewrite take_app_length. }
  rewrite Hsh.
  eexists. split; [done|]. split; [done|].
  intros k Hk.
  rewrite get_map by (cbn [tabulate data]; by rewrite length_fmap, length_seq).
  rewrite get_tabulate by done.
  split; [done|].
  match goal with |- (_ <= tanh ?a <= _)%R => pose proof (tanh_bounds a) end.
  lra.
Qed.

Lemma MLPLayer_forward_entries_witness :
  ∃ t, MLPLayer_forward
         {| dense_weight := Tensor [1; 2] [1; 1]%R;
            dense_bias := Tensor [1] [0%R] |}
         (Tensor [1; 2] [3; 4]%R) = Ok t
       ∧ shape t = [1; 1] ∧ (-1 <= get t 0 <= 1)%R.
Proof.
  destruct (MLPLayer_forward_entries
              {| dense_weight := Tensor [1; 2] [1; 1]%R;
                 dense_bias := Tensor [1] [0%R] |}
              (Tensor [1; 2] [3; 4]%R) [1] 2 1 eq_refl eq_refl eq_refl)
    as (t & Ht & Hsh & Hget).
  exists t. split; [done|]. split; [done|].
  apply (Hget 0). simpl. lia.
Defined.

Lemma cosine_bounded (x y : nat → R) D : (Rabs (cosine x y D) <= 1)%R.
Proof.
  unfold cosine.
  set (C := Rsum ((λ e, x e * y e)%R <$> seq 0 D)).
  set (A := Rsum ((λ e, x e * x e)%R <$> seq 0 D)).
  set (B := Rsum ((λ e, y e * y e)%R <$> seq 0 D)).
  pose proof (cauchy_schwarz x y (seq 0 D)) as HCS. fold A B C in HCS.
  assert (Heps : (0 < cos_eps * cos_eps)%R) by (unfold cos_eps; nra).
  set (M := Rmax (A * B) (cos_eps * cos_eps)).
  assert (HM : (0 < M)%R) by (unfold M; pose proof (Rmax_r (A * B) (cos_eps * cos_eps)); lra).
  assert (HMC : (C * C <= M)%R) by (unfold M; pose proof (Rmax_l (A * B) (cos_eps * cos_eps)); lra).
  assert (Hs : (0 < sqrt M)%R) by (by apply sqrt_lt_R0).
  assert (HabsC : (Rabs C <= sqrt M)%R).
  { rewrite <- (sqrt_Rsqr (Rabs C)) by apply Rabs_pos.
    apply sqrt_le_1_alt. rewrite <- Rsqr_abs. by unfold Rsqr. }
  unfold Rdiv. rewrite Rabs_mult, Rabs_inv.
  rewrite (Rabs_pos_eq (sqrt M)) by lra.
  apply (Rmult_le_reg_r (sqrt M)); [done|].
  rewrite Rmult_assoc, Rinv_l by lra. lra.
Qed.



(** X3: the similarity matrix of a batch with itself is symmetric, and its
    diagonal entry is exactly [1 / temp] for every row whose squared norm is
    at least [eps]. *)
Theorem pairwise_sim_self (s : Similarity) (a : tensor R) n D :
  shape a = [n; D] →
  ∃ c, pairwise_sim s a a = Ok c ∧ shape c = [n; n]
       ∧ (∀ i j, i < n → j < n → get c (i * n + j) = get c (j * n + i))
       ∧ ∀ i, i < n →
           (cos_eps
            <= Rsum ((λ e, get a (i * D + e) * get a (i * D + e)) <$> seq 0 D))%R →
           get c (i * n + i) = (/ sim_temp s)%R.
Proof.
  intros Ha.
  destruct (pairwise_sim_entries s a a n n D Ha Ha)
    as (c & Hc & Hcsh & _ & Hent).
  exists c. split; [done|]. split; [done|]. split.
  - intros i j Hi Hj. rewrite !Hent by done. unfold sim_entry, cosine.
    f_equal. f_equal.
    + f_equal. apply list_fmap_ext. intros ???. lra.
    + f_equal. f_equal. lra.
  - intros i Hi Hnorm. rewrite Hent by done. unfold sim_entry, cosine.
    set (A := Rsum _) in *.
    assert (Heps : (0 < cos_eps)%R) by (unfold cos_eps; lra).
    rewrite Rmax_left by nra.
    rewrite sqrt_square by lra.
    replace (A / A)%R with 1%R by (field; lra).
    lra.
Qed.

Lemma pairwise_sim_self_witness :
  ∃ c, pairwise_sim {| sim_temp := 2 |} (Tensor [1; 2] [3; 4]%R)
         (Tensor [1; 2] [3; 4]%R) = Ok c
       ∧ get c 0 = (/ 2)%R.
Proof.
  destruct (pairwise_sim_self {| sim_temp := 2 |} (Tensor [1; 2] [3; 4]%R)
              1 2 eq_refl) as (c & Hc & _ & _ & Hdiag).
  exists c. split; [exact Hc|].
  apply (Hdiag 0); [lia|]. unfold cos_eps. vm_compute. lra.
Defined.

(** ** [Pooler] *)

Lemma avg_valid : "avg" ∈ valid_pooler_types.
Proof. unfold valid_pooler_types. rewrite !elem_of_cons. auto. Qed.

(** X4: in the modes [cls] and [cls_before_pooler] the pooled output is
    the last hidden state at position 0, whatever the attention mask; an
    input without positions raises [IndexError]. *)
Theorem cls_pooling pt (outputs : EncoderOutput) (mask : tensor Z) B S W :
  pt = "cls" ∨ pt = "cls_before_pooler" →
  shape (last_hidden_state outputs) = [B; S; W] →
  (S = 0 →
   Pooler_forward {| pooler_pooler_type := pt |} mask outputs
   = Raise IndexError)
  ∧ (0 < S →
     ∃ t, Pooler_forward {| pooler_pooler_type := pt |} mask outputs = Ok t
       ∧ shape t = [B; W]
       ∧ ∀ b h, b < B → h < W →
           get t (b * W + h) = get (last_hidden_state outputs) (b * S * W + h)).
Proof.
  intros Hpt Hsh.
  assert (Hfw : Pooler_forward {| pooler_pooler_type := pt |} mask outputs
                = select (last_hidden_state outputs) 1 0).
  { unfold Pooler_forward. cbn [pooler_pooler_type].
    rewrite bool_decide_eq_true_2; [done|].
    rewrite !elem_of_cons. destruct Hpt as [-> | ->]; auto. }
  rewrite Hfw. unfold select, dim. rewrite Hsh.
  change (wrap_dim (length [B; S; W]) 1) with (@Ok nat 1).
  cbn [mbind result_bind]. change (extent [B; S; W] 1) with S.
  split.
  - intros ->. done.
  - intros HS. rewrite (wrap_dim_nonneg S 0) by lia.
    cbn [mbind result_bind]. eexists. split; [done|]. split; [done|].
    intros b h Hb Hh.
    change (remove_dim [B; S; W] 1) with [B; W].
    rewrite get_tabulate by (cbn [numel foldr]; nia).
    rewrite offset_at_mid by done. f_equal. simpl. lia.
Qed.

Lemma cls_pooling_witness :
  ∃ t, Pooler_forward {| pooler_pooler_type := "cls" |} example_mask
         example_outputs = Ok t
       ∧ get t 0 = 5%R.
Proof.
  destruct (cls_pooling "cls" example_outputs example_mask 1 1 1
              (or_introl eq_refl) eq_refl) as [_ Hok].
  destruct (Hok ltac:(lia)) as (t & Ht & _ & Hget).
  exists t. split; [exact Ht|]. apply (Hget 0 0); lia.
Defined.

(** X5: in mode [avg_top2] the pooled output is the mask-weighted mean
    over the positions of [(last + second_last) / 2], the last two entries
    of the hidden-state stack. *)
Theorem avg_top2_pooling (outputs : EncoderOutput) (mask : tensor Z)
    hs second_last_hidden last_hidden B S W :
  hidden_states outputs = Some hs → 2 ≤ length hs →
  hs !! (length hs - 2) = Some second_last_hidden →
  last hs = Some last_hidden →
  shape second_last_hidden = [B; S; W] → wf second_last_hidden →
  shape last_hidden = [B; S; W] → wf last_hidden →
  shape mask = [B; S] → wf mask →
  binary_mask mask → (Z.of_nat S < 2 ^ 63)%Z →
  ∃ t, Pooler_forward avg_top2_pooler mask outputs = Ok t
    ∧ shape t = [B; W]
    ∧ ∀ b h, b < B → h < W →
        get t (b * W + h)
        = weighted_mean
            (λ o, (get last_hidden o + get second_last_hidden o) / 2)%R
            mask S W b h.
Proof.
  intros Hhs Hlen Hf Hl Sf Wf Sl Wl Hm Wm Hbin HS.
  set (s := tabulate [B; S; W]
              (λ k, (bget last_hidden [B; S; W] k
                     + bget second_last_hidden [B; S; W] k)%R)).
  destruct (masked_mean_weighted (torch.map (λ v, v / 2)%R s) mask B S W)
    as (t & Ht & Hsh & Wt & Hget); try done.
  { unfold wf. simpl. by rewrite !length_fmap, length_seq. }
  exists t. split; [|split; [done|]].
  - unfold Pooler_forward, avg_top2_pooler. cbn [pooler_pooler_type].
    rewrite Hhs. cbn -[py_index map2 masked_mean].
    replace (py_index hs (-2)) with (Ok second_last_hidden)
      by (symmetry; apply (py_index_neg hs 2); [lia|done]).
    cbn -[py_index map2 masked_mean].
    rewrite (py_index_last hs last_hidden Hl).
    cbn -[py_index map2 masked_mean].
    erewrite map2_eval by (rewrite Sf, Sl; apply broadcast_shapes_refl).
    exact Ht.
  - intros b h Hb Hh. rewrite Hget by done.
    apply (weighted_mean_ext _ _ mask B); [done|done|].
    intros o Ho. rewrite get_map
      by (simpl; by rewrite length_fmap, length_seq).
    unfold s. rewrite get_tabulate by done.
    by rewrite !bget_same by done.
Qed.

Lemma avg_top2_pooling_witness :
  ∃ t, Pooler_forward avg_top2_pooler example_mask example_outputs = Ok t
    ∧ get t 0
      = weighted_mean (λ o, (get (layer 5) o + get (layer 3) o) / 2)%R
          example_mask 1 1 0 0.
Proof.
  destruct (avg_top2_pooling example_outputs example_mask
              [layer 1; layer 3; layer 5] (layer 3) (layer 5) 1 1 1
              eq_refl ltac:(simpl; lia) eq_refl eq_refl eq_refl eq_refl
              eq_refl eq_refl eq_refl eq_refl example_mask_binary eq_refl)
    as (t & Ht & _ & Hget).
  exists t. split; [exact Ht|]. apply (Hget 0 0); lia.
Defined.

(** X6: the modes [avg_first_last] and [avg_top2] need the hidden-state
    stack: without it [Pooler.forward] raises [TypeError], and with a stack
    of fewer than two layers it raises [IndexError]. *)
Theorem pooling_without_hidden_states pt (outputs : EncoderOutput)
    (mask : tensor Z) :
  pt = "avg_first_last" ∨ pt = "avg_top2" →
  (hidden_states outputs = None →
   Pooler_forward {| pooler_pooler_type := pt |} mask outputs
   = Raise TypeError)
  ∧ (∀ hs, hidden_states outputs = Some hs → length hs < 2 →
     Pooler_forward {| pooler_pooler_type := pt |} mask outputs
     = Raise IndexError).
Proof.
  intros Hpt. split.
  - intros Hhs. unfold Pooler_forward. cbn [pooler_pooler_type].
    rewrite Hhs. by destruct Hpt as [-> | ->].
  - intros hs Hhs Hlen. unfold Pooler_forward. cbn [pooler_pooler_type].
    rewrite Hhs.
    destruct Hpt as [-> | ->]; cbn -[py_index map2 masked_mean].
    + destruct hs as [|l [|]]; [done|done|simpl in Hlen; lia].
    + destruct hs as [|l [|]]; [done|done|simpl in Hlen; lia].
Qed.

Lemma pooling_without_hidden_states_witness :
  Pooler_forward avg_first_last_pooler example_mask
    {| last_hidden_state := layer 5; pooler_output := None;
       hidden_states := None; attentions := None |}
  = Raise TypeError.
Proof.
  apply (pooling_without_hidden_states "avg_first_last" _ example_mask
           (or_introl eq_refl)).
  reflexivity.
Defined.

Lemma wrap_dim_raises n d e : wrap_dim n d = Raise e → e = IndexError.
Proof. unfold wrap_dim. repeat case_match; congruence. Qed.

Lemma select_raises {A} `{Inhabited A} (t : tensor A) d i e :
  select t d i = Raise e → shape_error e.
Proof.
  unfold select. intros [Hr|(a & _ & [Hr|(b & _ & Hr)]%bind_Raise_inv)]%bind_Raise_inv.
  - left. by eapply wrap_dim_raises.
  - left. by eapply wrap_dim_raises.
  - done.
Qed.

Lemma unsqueeze_raises {A} (t : tensor A) d e :
  unsqueeze t d = Raise e → shape_error e.
Proof.
  unfold unsqueeze. intros [Hr|(a & _ & Hr)]%bind_Raise_inv; [|done].
  left. by eapply wrap_dim_raises.
Qed.

Lemma broadcast_aligned_raises s1 s2 e :
  broadcast_aligned s1 s2 = Raise e → e = RuntimeError.
Proof.
  revert s2. induction s1 as [|a s1 IH]; intros [|b s2]; cbn; try congruence.
  destruct (broadcast_aligned s1 s2) eqn:E; cbn.
  - repeat case_match; congruence.
  - intros [= <-]. by eapply IH.
Qed.

Lemma map2_raises {A B C} `{Inhabited A, Inhabited B}
    (f : A → B → C) (a : tensor A) (b : tensor B) e :
  map2 f a b = Raise e → shape_error e.
Proof.
  unfold map2. intros [Hr|(sh & _ & Hr)]%bind_Raise_inv; [|done].
  right. left. by eapply broadcast_aligned_raises.
Qed.

Lemma reduce_dim_raises {A B} `{Inhabited A} (f : list A → B) t d e :
  reduce_dim f t d = Raise e → shape_error e.
Proof.
  unfold reduce_dim. intros [Hr|(a & _ & Hr)]%bind_Raise_inv; [|done].
  left. by eapply wrap_dim_raises.
Qed.

Lemma py_index_raises {A} (l : list A) i e :
  py_index l i = Raise e → shape_error e.
Proof.
  unfold py_index. intros [Hr|(a & _ & Hr)]%bind_Raise_inv.
  - left. by eapply wrap_dim_raises.
  - left. destruct (l !! a); congruence.
Qed.

Lemma masked_mean_raises x mask e :
  masked_mean x mask = Raise e → shape_error e.
Proof.
  unfold masked_mean.
  intros [Hr|(m & _ & Hr)]%bind_Raise_inv; [by eapply unsqueeze_raises|].
  apply bind_Raise_inv in Hr as [Hr|(xm & _ & Hr)]; [by eapply map2_raises|].
  apply bind_Raise_inv in Hr as [Hr|(num & _ & Hr)];
    [by eapply reduce_dim_raises|].
  apply bind_Raise_inv in Hr as [Hr|(cnt & _ & Hr)];
    [by eapply reduce_dim_raises|].
  apply bind_Raise_inv in Hr as [Hr|(den & _ & Hr)];
    [by eapply unsqueeze_raises|].
  by eapply map2_raises.
Qed.

Lemma half_sum_raises (hs : list (tensor R)) mask e (ia ib : Z) :
  (x ← py_index hs ia; y ← py_index hs ib; s ← map2 Rplus x y;
   masked_mean (torch.map (λ v, v / 2)%R s) mask) = Raise e →
  shape_error e.
Proof.
  intros [Hr|(x & _ & Hr)]%bind_Raise_inv; [by eapply py_index_raises|].
  apply bind_Raise_inv in Hr as [Hr|(y & _ & Hr)];
    [by eapply py_index_raises|].
  apply bind_Raise_inv in Hr as [Hr|(s & _ & Hr)]; [by eapply map2_raises|].
  by eapply masked_mean_raises.
Qed.

(** X7: [Pooler.__init__] raises [AssertionError] exactly for a mode
    outside the five it lists.  A pooler it returns never reaches the
    [NotImplementedError] branch of [forward]: whatever it raises is an
    [IndexError], a [RuntimeError] or a [TypeError].  A pooler with any other
    mode raises [NotImplementedError] on every input. *)
Theorem Pooler_init_forward pt :
  (pt ∉ valid_pooler_types →
   Pooler_init pt = Raise AssertionError
   ∧ ∀ mask outputs,
       Pooler_forward {| pooler_pooler_type := pt |} mask outputs
       = Raise NotImplementedError)
  ∧ (pt ∈ valid_pooler_types →
     Pooler_init pt = Ok {| pooler_pooler_type := pt |}
     ∧ ∀ mask outputs e,
         Pooler_forward {| pooler_pooler_type := pt |} mask outputs = Raise e →
         shape_error e).
Proof.
  split.
  - intros Hpt. split.
    + unfold Pooler_init. destruct (bool_decide _) eqn:Hv; [|done].
      by apply bool_decide_eq_true in Hv.
    + intros mask outputs. unfold Pooler_forward. cbn [pooler_pooler_type].
      unfold valid_pooler_types in Hpt.
      rewrite !elem_of_cons, elem_of_nil in Hpt.
      case_bool_decide as H1.
      { rewrite !elem_of_cons, elem_of_nil in H1. tauto. }
      case_bool_decide as H2; [tauto|].
      case_bool_decide as H3; [tauto|].
      case_bool_decide as H4; [tauto|]. done.
  - intros Hpt. split.
    + unfold Pooler_init. destruct (bool_decide _) eqn:Hv; [done|].
      by apply bool_decide_eq_false in Hv.
    + intros mask outputs e. unfold Pooler_forward. cbn [pooler_pooler_type].
      case_bool_decide as H1; [by eapply select_raises|].
      case_bool_decide as H2; [by eapply masked_mean_raises|].
      case_bool_decide as H3.
      { intros [Hr|(hs & _ & Hr)]%bind_Raise_inv.
        - destruct (hidden_states outputs); [done|].
          injection Hr as <-. by right; right.
        - exact (half_sum_raises hs mask e 1 (-1) Hr). }
      case_bool_decide as H4.
      { intros [Hr|(hs & _ & Hr)]%bind_Raise_inv.
        - destruct (hidden_states outputs); [done|].
          injection Hr as <-. by right; right.
        - apply bind_Raise_inv in Hr as [Hr|(x & _ & Hr)];
            [by eapply py_index_raises|].
          apply bind_Raise_inv in Hr as [Hr|(y & _ & Hr)];
            [by eapply py_index_raises|].
          apply bind_Raise_inv in Hr as [Hr|(s & _ & Hr)];
            [by eapply map2_raises|].
          by eapply masked_mean_raises. }
      unfold valid_pooler_types in Hpt.
      rewrite !elem_of_cons, elem_of_nil in Hpt.
      rewrite !elem_of_cons, elem_of_nil in H1. tauto.
Qed.

Lemma Pooler_init_forward_witness :
  Pooler_init "avg" = Ok avg_pooler
  ∧ Pooler_init "max" = Raise AssertionError.
Proof.
  destruct (Pooler_init_forward "avg") as [_ Hok].
  destruct (Pooler_init_forward "max") as [Hbad _].
  split.
  - apply Hok. apply avg_valid.
  - apply Hbad. unfold valid_pooler_types.
    rewrite !elem_of_cons, elem_of_nil. by intros [?|[?|[?|[?|[?|?]]]]].
Defined.

(** ** The memory bank, continued *)

Lemma example_bert_at_bank K D p :
  0 < K → (Z.of_nat K < 2 ^ 63)%Z →
  bank_inv (example_bert_at K D p) K D ((λ _, 0%R) <$> seq 0 (K * (D * 1))) p.
Proof.
  intros HK HK63. repeat split; try done.
  rewrite length_fmap, length_seq. lia.
Qed.

(** X8: with the pointer at a row [p] that is a multiple of the batch size
    [b], and [b] dividing [bank_size], an enqueue call returns, writes the
    keys to rows [p, p + b), keeps the bank well formed and leaves the
    pointer at [(p + b) mod bank_size], again a multiple of [b] below
    [bank_size]. *)
Theorem enqueue_keeps_alignment cls K D rows p b kd :
  bank_inv cls K D rows p → p < K →
  0 < b → (Z.of_nat b | Z.of_nat K)%Z → (Z.of_nat b | Z.of_nat p)%Z →
  length kd = b * D →
  ∃ cls' rows',
    dequeue_and_enqueue (Tensor [b; D] kd) cls = (Ok tt, cls')
    ∧ bank_inv cls' K D rows' ((p + b) mod K)
    ∧ (p + b) mod K < K
    ∧ (Z.of_nat b | Z.of_nat ((p + b) mod K))%Z
    ∧ ∀ i, i < b → row D rows' (p + i) = row D kd i.
Proof.
  intros Hinv HpK Hb [k Hk] [j Hj] Hkd.
  pose proof Hinv as (Hq & Hlen & Hp & HK & HK0 & HK63).
  assert (Hpb : p + b ≤ K).
  { assert (j < k)%Z by (apply (Z.mul_lt_mono_pos_r (Z.of_nat b)); lia).
    assert ((j + 1) * Z.of_nat b ≤ k * Z.of_nat b)%Z
      by (apply Z.mul_le_mono_nonneg_r; lia).
    lia. }
  assert (Hmod : (Z.of_nat K mod Z.of_nat b = 0)%Z).
  { rewrite Hk. apply Z.mod_mul. lia. }
  eexists _, _. split; [by apply (dequeue_and_enqueue_ok cls K D rows p b kd)|].
  split; [by apply bank_inv_enqueued|].
  split; [apply Nat.mod_upper_bound; lia|].
  split.
  - destruct (decide (p + b = K)) as [->|Hne].
    + rewrite Nat.Div0.mod_same. apply Z.divide_0_r.
    + rewrite Nat.mod_small by lia. exists (j + 1)%Z. lia.
  - intros i Hi. unfold row.
    rewrite drop_app_ge by (rewrite length_take; nia).
    rewrite length_take, Nat.min_l by nia.
    replace ((p + i) * D - p * D) with (i * D) by nia.
    rewrite drop_app_le by nia.
    rewrite take_app_le; [done|]. rewrite length_drop. nia.
Qed.

Lemma enqueue_keeps_alignment_witness :
  ∃ cls' rows',
    dequeue_and_enqueue (Tensor [4; 2] (constant_keys 4 2 1))
      (example_bert_at 8 2 4) = (Ok tt, cls')
    ∧ bank_inv cls' 8 2 rows' 0.
Proof.
  assert (H1 : (Z.of_nat 4 | Z.of_nat 8)%Z) by (by exists 2%Z).
  assert (H2 : (Z.of_nat 4 | Z.of_nat 4)%Z) by (by exists 1%Z).
  destruct (enqueue_keeps_alignment (example_bert_at 8 2 4) 8 2 _ 4 4
              (constant_keys 4 2 1)
              (example_bert_at_bank 8 2 4 ltac:(lia) eq_refl)
              ltac:(lia) ltac:(lia) H1 H2 eq_refl)
    as (cls' & rows' & Hrun & Hinv & _).
  by exists cls', rows'.
Defined.

(** X9: when the window [p, p + b) runs past the last row of the bank (the
    pointer is not a multiple of this batch size), the slice is clamped, the
    assignment raises [RuntimeError] and the model is unchanged. *)
Theorem enqueue_past_end cls K D rows p b kd :
  bank_inv cls K D rows p → p < K → K < p + b →
  (Z.of_nat b | Z.of_nat K)%Z →
  dequeue_and_enqueue (Tensor [b; D] kd) cls = (Raise RuntimeError, cls).
Proof.
  intros (Hq & Hlen & Hp & HK & HK0 & HK63) HpK Hpb [k Hk].
  assert (Hb : 2 ≤ b) by lia.
  unfold dequeue_and_enqueue.
  rewrite (bind_lift_Ok _ _ _ b) by done.
  rewrite bind_get_self.
  rewrite (bind_lift_Ok _ _ _ (Z.of_nat p)) by (by rewrite Hp).
  rewrite (bind_lift_Ok _ _ _ tt).
  2:{ rewrite HK. unfold py_mod.
      replace (Z.of_nat b =? 0)%Z with false
        by (symmetry; apply Z.eqb_neq; lia).
      simpl. rewrite Hk, Z.mod_mul by lia. done. }
  rewrite (bind_lift_Ok _ _ _ (Tensor [K; D] rows)) by (by rewrite Hq).
  apply bind_lift_Raise.
  unfold setitem_rows. cbn [shape].
  unfold slice_bounds.
  rewrite <- Nat2Z.inj_add, !clamp_index_nat.
  rewrite (Nat.min_l p K), (Nat.min_r (p + b) K), (Nat.max_r p K) by lia.
  unfold expand. cbn [shape].
  destruct b as [|[|b]]; [lia|lia|]. cbn [strip_ones length].
  rewrite bool_decide_eq_true_2 by lia.
  unfold broadcast_shapes. cbn [length Nat.max pad_shape Nat.sub replicate app].
  cbn [broadcast_aligned].
  rewrite Nat.eqb_refl. cbn [mbind result_bind].
  destruct (S (S b) =? K - p) eqn:E1; [apply Nat.eqb_eq in E1; lia|].
  cbn [Nat.eqb].
  destruct (K - p =? 1) eqn:E2; [|done].
  cbn [mbind result_bind]. apply Nat.eqb_eq in E2.
  rewrite bool_decide_eq_false_2; [done|]. intros [=]. lia.
Qed.

Lemma enqueue_past_end_witness :
  dequeue_and_enqueue (Tensor [4; 2] (constant_keys 4 2 1))
    (example_bert_at 12 2 10)
  = (Raise RuntimeError, example_bert_at 12 2 10).
Proof.
  assert (H1 : (Z.of_nat 4 | Z.of_nat 12)%Z) by (by exists 3%Z).
  apply (enqueue_past_end (example_bert_at 12 2 10) 12 2 _ 10 4
           (constant_keys 4 2 1)
           (example_bert_at_bank 12 2 10 ltac:(lia) eq_refl)
           ltac:(lia) ltac:(lia) H1).
Defined.

(** X10: [BertForCL.__init__] raises [RuntimeError] for a negative
    [bank_size] or [hidden_len], before the pooling mode is checked, and
    [AssertionError] for an unknown pooling mode; otherwise, for
    [0 < bank_size < 2^63], it returns a model whose bank has [bank_size]
    rows of [hidden_len] numbers and whose pointer is at row 0. *)
Theorem BertForCL_init_bank args pre :
  (bank_size args < 0 ∨ hidden_len args < 0 →
   BertForCL_init args pre = Raise RuntimeError)%Z
  ∧ (0 ≤ bank_size args → 0 ≤ hidden_len args →
     pooler_type args ∉ valid_pooler_types →
     BertForCL_init args pre = Raise AssertionError)%Z
  ∧ (0 < bank_size args < 2 ^ 63 → 0 ≤ hidden_len args →
     pooler_type args ∈ valid_pooler_types →
     ∃ cls rows,
       BertForCL_init args pre = Ok cls
       ∧ bank_inv cls (Z.to_nat (bank_size args)) (Z.to_nat (hidden_len args))
           rows 0)%Z.
Proof.
  unfold BertForCL_init, py_size. split; [|split].
  - intros [Hn|Hn].
    + by replace (bank_size args <? 0)%Z with true
        by (symmetry; apply Z.ltb_lt; lia).
    + destruct (bank_size args <? 0)%Z; [done|].
      by replace (hidden_len args <? 0)%Z with true
        by (symmetry; apply Z.ltb_lt; lia).
  - intros HK HD Hpt.
    replace (bank_size args <? 0)%Z with false
      by (symmetry; apply Z.ltb_ge; lia).
    replace (hidden_len args <? 0)%Z with false
      by (symmetry; apply Z.ltb_ge; lia).
    cbn [mbind result_bind normalize_rows shape tabulate].
    unfold cl_init, Pooler_init.
    destruct (bool_decide (pooler_type args ∈ _)) eqn:Hv; [|done].
    by apply bool_decide_eq_true in Hv.
  - intros HK HD Hpt.
    replace (bank_size args <? 0)%Z with false
      by (symmetry; apply Z.ltb_ge; lia).
    replace (hidden_len args <? 0)%Z with false
      by (symmetry; apply Z.ltb_ge; lia).
    cbn [mbind result_bind normalize_rows shape tabulate].
    unfold cl_init, Pooler_init.
    destruct (bool_decide (pooler_type args ∈ _)) eqn:Hv.
    2:{ by apply bool_decide_eq_false in Hv. }
    cbn [mbind result_bind py_assert].
    eexists _, _. split; [done|].
    repeat split; cbn; try done; try lia.
    rewrite length_fmap, length_seq. lia.
Qed.

Lemma BertForCL_init_bank_witness :
  ∃ cls rows,
    BertForCL_init (example_args "avg" false true 4 2) (example_pretrained 2)
    = Ok cls
    ∧ bank_inv cls 4 2 rows 0.
Proof.
  destruct (BertForCL_init_bank (example_args "avg" false true 4 2)
              (example_pretrained 2)) as (_ & _ & Hok).
  destruct Hok as (cls & rows & Hinit & Hinv).
  - simpl. lia.
  - simpl. lia.
  - unfold valid_pooler_types. simpl. set_solver.
  - by exists cls, rows.
Defined.



(** ** What a forward pass changes *)

Ltac frame_steps :=
  repeat match goal with
  | |- (get_self ≫= _) _ = _ → _ => rewrite bind_get_self
  | |- (put_self _ ≫= _) _ = _ → _ => rewrite bind_put_self
  | |- (mret _ ≫= _) _ = _ → _ => rewrite bind_mret
  | |- (lift ?r ≫= _) _ = _ → _ =>
      let E := fresh "E" in
      destruct r eqn:E;
      [erewrite bind_lift_Ok by done
      |erewrite bind_lift_Raise by done; intros [= <- <-]; try done]
  end.

Lemma dequeue_and_enqueue_other_attributes keys cls r cls' :
  dequeue_and_enqueue keys cls = (r, cls') →
  other_attributes cls' = other_attributes cls.
Proof.
  unfold dequeue_and_enqueue. frame_steps. cbv zeta. frame_steps.
  by intros [= <- <-].
Qed.

Lemma dequeue_and_enqueue_keeps keys :
  keeps other_attributes (dequeue_and_enqueue keys).
Proof. intros s r s'. apply dequeue_and_enqueue_other_attributes. Qed.

Lemma cl_auxiliary_keeps enc B mask tti mlm tok sp z1 :
  keeps other_attributes (cl_auxiliary enc B mask tti mlm tok sp z1).
Proof.
  unfold cl_auxiliary.
  apply keeps_bind; [apply keeps_pure, pure_get_self|intros cls].
  apply keeps_bind.
  - destruct mlm as [m|]; [|apply keeps_pure, pure_mret].
    apply keeps_bind; [apply keeps_pure, cl_mlm_encode_pure|intros z3].
    apply keeps_bind; [apply dequeue_and_enqueue_keeps|intros _].
    apply keeps_pure, pure_mret.
  - intros z3. destruct (do_stronger _); [|apply keeps_pure, pure_mret].
    apply keeps_bind; [apply keeps_pure, pure_lift|intros z3'].
    apply keeps_bind; [apply dequeue_and_enqueue_keeps|intros _].
    apply keeps_pure, pure_mret.
Qed.

Lemma fixed_of_other cls cls' :
  other_attributes cls' = other_attributes cls →
  fixed_attributes cls' = fixed_attributes cls.
Proof. unfold other_attributes, fixed_attributes. congruence. Qed.

Lemma bert_set_flag_keeps name v : keeps fixed_attributes (bert_set_flag name v).
Proof.
  intros s r s'. unfold bert_set_flag.
  destruct (bert s); by intros [= _ <-].
Qed.

Ltac keeps_steps :=
  repeat first
    [ apply keeps_pure, pure_lift | apply keeps_pure, pure_mret
    | apply keeps_pure, pure_get_self | apply keeps_pure, pure_call_encoder
    | apply bert_set_flag_keeps
    | apply keeps_bind; [|intros ?]
    | case_bool_decide ].

Lemma cl_stronger_keeps ids mask tti :
  keeps fixed_attributes (cl_stronger ids mask tti).
Proof.
  unfold cl_stronger.
  apply keeps_bind; [apply keeps_pure, pure_get_self|intros cls].
  destruct (do_stronger _); keeps_steps.
Qed.

Lemma sentemb_forward_pure enc ids mask tti rd :
  pure (sentemb_forward enc ids mask tti rd).
Proof.
  unfold sentemb_forward. apply pure_bind; [apply pure_get_self|intros cls].
  apply pure_bind; [apply pure_call_encoder|intros o].
  apply pure_bind; [apply pure_lift|intros p].
  apply pure_bind.
  { destruct (_ && _); [apply pure_lift|apply pure_mret]. }
  intros p'. destruct (negb _); [|apply pure_mret].
  apply pure_bind; [apply pure_lift|intros ?; apply pure_mret].
Qed.

Lemma cl_forward_plain_pure_at dist enc ids mask tti rd tok cls :
  do_stronger (model_args cls) = false →
  pure_at (cl_forward dist enc ids mask tti rd None tok) cls.
Proof.
  intros Hs. unfold cl_forward.
  apply pure_at_bind; [apply pure_pure_at, pure_get_self|].
  intros ? [= <-].
  apply pure_at_bind; [apply pure_pure_at, pure_lift|]. intros B _.
  apply pure_at_bind.
  { intros r s'. rewrite (cl_stronger_off _ _ _ _ Hs). by intros [= _ <-]. }
  intros [[[sp ids'] mask'] tti'] _.
  apply pure_at_bind; [apply pure_pure_at, cl_encode_pure|].
  intros [[[[[o mask''] tti''] V] z1] z2] _.
  apply pure_at_bind.
  { intros r s'. rewrite (cl_auxiliary_off _ _ _ _ _ _ _ _ Hs).
    by intros [= _ <-]. }
  intros z3 _.
  apply pure_at_bind; [apply pure_pure_at, pure_get_self|].
  intros ? _.
  apply pure_at_bind; [apply pure_pure_at, pure_lift|].
  intros [[z1' z2'] z3'] _.
  apply pure_at_bind; [apply pure_pure_at, pure_lift|].
  intros [loss cos_sim] _.
  destruct (negb _); apply pure_pure_at, pure_mret.
Qed.

(** X12: [forward] leaves the model unchanged, whatever its outcome, when
    it is called with [sent_emb=True], and also when [do_stronger] is off
    and no auxiliary ids are given. *)
Theorem forward_leaves_model_unchanged enc dist ids mask tti rd sent_emb mlm
    cls r cls' :
  sent_emb = true ∨ (do_stronger (model_args cls) = false ∧ mlm = None) →
  forward_with enc dist ids mask tti rd sent_emb mlm cls = (r, cls') →
  cls' = cls.
Proof.
  intros Hcase. unfold forward_with.
  destruct sent_emb.
  - apply pure_bind; [apply sentemb_forward_pure|intros ?; apply pure_mret].
  - destruct Hcase as [|[Hs ->]]; [done|].
    apply pure_at_bind; [by apply cl_forward_plain_pure_at|].
    intros ? _. apply pure_pure_at, pure_mret.
Qed.

Lemma forward_leaves_model_unchanged_witness :
  (BertForCL_forward None three_views three_views_mask None None true None
     (example_bert "avg" true true 4 2)).2
  = example_bert "avg" true true 4 2.
Proof.
  apply (forward_leaves_model_unchanged self_bert None three_views
           three_views_mask None None true None
           (example_bert "avg" true true 4 2)
           (BertForCL_forward None three_views three_views_mask None None true
              None (example_bert "avg" true true 4 2)).1
           _ (or_introl eq_refl)).
  unfold BertForCL_forward.
  by destruct (forward_with _ _ _ _ _ _ _ _ _).
Defined.

(** X13: a contrastive pass, whatever its outcome, changes no attribute of
    the model other than [bert], [queue] and [queue_ptr], and leaves [bert]
    alone when [do_stronger] is off. *)
Theorem cl_forward_frame dist enc ids mask tti rd mlm tok cls r cls' :
  cl_forward dist enc ids mask tti rd mlm tok cls = (r, cls') →
  fixed_attributes cls' = fixed_attributes cls
  ∧ (do_stronger (model_args cls) = false → bert cls' = bert cls).
Proof.
  intros Hrun. split.
  - revert Hrun. generalize cls r cls'.
    change (keeps fixed_attributes
              (cl_forward dist enc ids mask tti rd mlm tok)).
    unfold cl_forward.
    apply keeps_bind; [apply keeps_pure, pure_get_self|intros s].
    apply keeps_bind; [apply keeps_pure, pure_lift|intros B].
    apply keeps_bind; [apply cl_stronger_keeps|].
    intros [[[sp ids'] mask'] tti'].
    apply keeps_bind; [apply keeps_pure, cl_encode_pure|].
    intros [[[[[o mask''] tti''] V] z1] z2].
    apply keeps_bind.
    { eapply keeps_weaken; [|apply cl_auxiliary_keeps].
      intros ??. apply fixed_of_other. }
    intros z3.
    apply keeps_bind; [apply keeps_pure, pure_get_self|intros s'].
    apply keeps_bind; [apply keeps_pure, pure_lift|].
    intros [[z1' z2'] z3'].
    apply keeps_bind; [apply keeps_pure, pure_lift|].
    intros [loss cos_sim].
    destruct (negb _); apply keeps_pure, pure_mret.
  - intros Hs. revert Hrun. unfold cl_forward. rewrite bind_get_self.
    destruct (size ids 0) as [B|] eqn:EB;
      [erewrite bind_lift_Ok by done
      |erewrite bind_lift_Raise by done; by intros [= _ <-]].
    unfold mbind at 1, M_bind at 1. rewrite (cl_stronger_off _ _ _ _ Hs).
    unfold mbind at 1, M_bind at 1.
    destruct (cl_encode enc B ids mask tti cls) as [re cls2] eqn:E2.
    apply cl_encode_pure in E2 as ->.
    destruct re as [[[[[[o mask''] tti''] V] z1] z2]|ex];
      [|by intros [= _ <-]].
    unfold mbind at 1, M_bind at 1.
    destruct (cl_auxiliary enc B mask'' tti'' mlm tok None z1 cls)
      as [ra cls3] eqn:E3.
    apply cl_auxiliary_keeps in E3.
    assert (Hb3 : bert cls3 = bert cls)
      by (unfold other_attributes in E3; congruence).
    destruct ra as [z3|ex]; [|by intros [= _ <-]].
    rewrite bind_get_self.
    destruct (cl_gather dist (training cls3) V z1 z2 z3)
      as [[[z1' z2'] z3']|ex] eqn:E4.
    2:{ erewrite bind_lift_Raise by done. by intros [= _ <-]. }
    erewrite bind_lift_Ok by done.
    destruct (cl_loss cls3 z1' z2') as [[loss cos_sim]|ex] eqn:E5.
    2:{ erewrite bind_lift_Raise by done. by intros [= _ <-]. }
    erewrite bind_lift_Ok by done.
    destruct (negb _); by intros [= _ <-].
Qed.

Lemma cl_forward_frame_witness :
  let cls := example_bert "cls" true false 4 2 in
  fixed_attributes
    (cl_forward None self_bert three_views three_views_mask
       (Some three_views_mask) None None 101 cls).2
  = fixed_attributes cls.
Proof.
  intros cls.
  apply (cl_forward_frame None self_bert three_views three_views_mask
           (Some three_views_mask) None None 101 cls
           (cl_forward None self_bert three_views three_views_mask
              (Some three_views_mask) None None 101 cls).1).
  by destruct (cl_forward _ _ _ _ _ _ _ _ _).
Defined.

(** ** Outcomes of the two passes *)

Lemma example_bert_projection pt stronger mlm K D :
  projection_ok (example_bert pt stronger mlm K D) D.
Proof.
  intros Hcls. simpl in Hcls. subst pt. eexists. split; [done|]. done.
Qed.

(** X15: for every pooling mode, [sentemb_forward] on a batch of [N]
    sequences of positive length returns a pooled output of shape
    [(N, hidden)] and leaves the model unchanged. *)
Theorem sentemb_forward_ok cls enc e N S W ids mask tti rd :
  deref enc cls = Some e → encoder_total (encoder_forward e) W →
  model_consistent cls → projection_ok cls W →
  shape ids = [N; S] → shape mask = [N; S] → 0 < S →
  ∃ out p, sentemb_forward enc ids mask tti rd cls = (Ok out, cls)
           ∧ sentemb_pooled out = Some p ∧ shape p = [N; W].
Proof.
  intros He Henc (Hpool & Hargs & Hvalid) Hmlp Hids Hmask HS.
  unfold sentemb_forward. rewrite bind_get_self.
  destruct (Henc (flags e) ids mask tti
              (needs_hidden_states (cls_pooler_type cls)) N S Hids)
    as (o & Ho & Hok).
  rewrite (bind_call_encoder _ _ _ _ _ _ _ e o He Ho).
  rewrite Hpool.
  destruct (Pooler_forward_ok _ mask o N S W Hvalid Hok Hmask HS)
    as (p & Hp & Hpsh).
  rewrite (bind_lift_Ok _ _ _ p) by done.
  assert (∃ q, (if bool_decide (cls_pooler_type cls = "cls")
                   && negb (mlp_only_train (model_args cls))
                then lift (m ← getattr (mlp cls); MLPLayer_forward m p)
                else mret p)
               = (mret q : M CLModel (tensor R))
               ∧ shape q = [N; W]) as (q & -> & Hq).
  { case_bool_decide as Hcls; [|by eexists].
    destruct (negb _); [|by eexists]. cbn [andb].
    destruct (Hmlp Hcls) as (m & -> & Hm). cbn [getattr mbind result_bind].
    destruct (MLPLayer_forward_ok m p [N] W Hm Hpsh) as (q & -> & Hq).
    by exists q. }
  rewrite bind_mret.
  destruct (negb _).
  - rewrite (bind_lift_Ok _ _ _ (VTensor (last_hidden_state o))) by done.
    by eexists _, _.
  - by eexists _, _.
Qed.

Lemma sentemb_forward_ok_witness :
  ∃ out p,
    sentemb_forward self_bert (tabulate [2; 3] Z.of_nat)
      (tabulate [2; 3] (λ _, 1%Z)) None None
      (example_bert "avg" false false 4 2)
    = (Ok out, example_bert "avg" false false 4 2)
    ∧ sentemb_pooled out = Some p ∧ shape p = [2; 2].
Proof.
  apply (sentemb_forward_ok (example_bert "avg" false false 4 2) self_bert
           {| flags := ∅; encoder_forward := example_encoder 2 |} 2 3 2
           (tabulate [2; 3] Z.of_nat) (tabulate [2; 3] (λ _, 1%Z)) None None
           eq_refl (example_encoder_total 2)
           (example_bert_consistent "avg" false false 4 2 avg_valid)
           (example_bert_projection "avg" false false 4 2)
           eq_refl eq_refl).
  lia.
Defined.

(** X16: in tuple mode [sentemb_forward] returns
    [(outputs[0], pooler_output) + outputs[2:]].  The encoder is built
    without a pooling layer, so the hidden-state stack sits at index 1 of
    [outputs] and is not in the returned tuple, whereas the dictionary mode
    returns it. *)
Theorem sentemb_tuple_drops_hidden_states cls enc e ids mask tti o hs p p' :
  deref enc cls = Some e →
  encoder_forward e (flags e) ids mask tti
    (needs_hidden_states (cls_pooler_type cls)) = Ok o →
  pooler_output o = None → hidden_states o = Some hs →
  Pooler_forward (pooler cls) mask o = Ok p →
  sentemb_projection cls p = Ok p' →
  sentemb_forward enc ids mask tti (Some false) cls
  = (Ok (SentEmbTuple ([VTensor (last_hidden_state o); VTensor p']
                       ++ option_list (VTensors <$> attentions o))), cls)
  ∧ sentemb_forward enc ids mask tti (Some true) cls
    = (Ok (BaseModelOutputWithPoolingAndCrossAttentions p'
             (last_hidden_state o) (Some hs)), cls).
Proof.
  intros He Ho Hpo Hhs Hp Hproj.
  assert (Hmlp : (if bool_decide (cls_pooler_type cls = "cls")
                     && negb (mlp_only_train (model_args cls))
                  then lift (m ← getattr (mlp cls); MLPLayer_forward m p)
                  else mret p) = (mret p' : M CLModel (tensor R))).
  { unfold sentemb_projection in Hproj.
    destruct (_ && _); [by rewrite Hproj|by injection Hproj as ->]. }
  split.
  - unfold sentemb_forward. rewrite bind_get_self.
    rewrite (bind_call_encoder _ _ _ _ _ _ _ e o He Ho).
    rewrite (bind_lift_Ok _ _ _ p Hp). rewrite Hmlp, bind_mret.
    cbn [from_option Datatypes.id negb].
    rewrite (bind_lift_Ok _ _ _ (VTensor (last_hidden_state o))) by done.
    unfold to_tuple. rewrite Hpo, Hhs. done.
  - unfold sentemb_forward. rewrite bind_get_self.
    rewrite (bind_call_encoder _ _ _ _ _ _ _ e o He Ho).
    rewrite (bind_lift_Ok _ _ _ p Hp). rewrite Hmlp, bind_mret.
    cbn [from_option Datatypes.id negb]. by rewrite Hhs.
Qed.

Lemma sentemb_tuple_drops_hidden_states_witness :
  let cls := example_bert "avg_first_last" false false 4 2 in
  let ids := tabulate [1; 1] Z.of_nat in
  ∃ l p,
    sentemb_forward self_bert ids example_mask None (Some false) cls
    = (Ok (SentEmbTuple [VTensor l; VTensor p]), cls).
Proof.
  intros cls ids.
  pose (o := {| last_hidden_state := tabulate [1; 1; 2] (λ k, INR k);
                pooler_output := None;
                hidden_states :=
                  Some [tabulate [1; 1; 2] (λ k, INR k);
                        tabulate [1; 1; 2] (λ k, INR k);
                        tabulate [1; 1; 2] (λ k, INR k)];
                attentions := None |}).
  assert (Hp : ∃ p, Pooler_forward (pooler cls) example_mask o = Ok p)
    by (eexists; vm_compute; reflexivity).
  destruct Hp as [p Hp].
  destruct (sentemb_tuple_drops_hidden_states cls self_bert
              {| flags := ∅; encoder_forward := example_encoder 2 |}
              ids example_mask None o _ p p eq_refl eq_refl eq_refl eq_refl
              Hp eq_refl) as [Htuple _].
  exists (last_hidden_state o), p. exact Htuple.
Defined.

(** X17: without auxiliary branch and in a single process, the contrastive
    pass on a batch of [B] examples of two or more views returns a scalar
    loss and [(B, B)] logits and leaves the model unchanged. *)
Theorem cl_forward_plain_views cls enc e B V S W ids mask tti rd tok :
  deref enc cls = Some e → encoder_total (encoder_forward e) W →
  model_consistent cls → projection_ok cls W →
  do_stronger (model_args cls) = false → do_mlm (model_args cls) = false →
  shape ids = [B; V; S] → shape mask = [B; V; S] →
  (∀ t, tti = Some t → shape t = [B; V; S]) → 2 ≤ V → 0 < S →
  ∃ out loss logits,
    cl_forward None enc ids mask tti rd None tok cls = (Ok out, cls)
    ∧ cl_output_loss out = Some loss ∧ shape loss = []
    ∧ cl_output_logits out = Some logits ∧ shape logits = [B; B].
Proof.
  intros He Henc Hok Hproj Hs Hm Hids Hmask Htti HV HS.
  unfold cl_forward. rewrite bind_get_self.
  rewrite (bind_lift_Ok _ _ _ B) by (unfold size, dim; by rewrite Hids).
  unfold mbind at 1, M_bind at 1. rewrite (cl_stronger_off _ _ _ _ Hs).
  destruct (cl_encode_ok cls enc e B V S W ids mask tti He Henc Hok Hproj
              Hids Hmask Htti HV HS)
    as (o & mask' & tti' & z1 & z2 & Hrun & Hz1 & Hz2).
  unfold mbind at 1, M_bind at 1. rewrite Hrun.
  unfold mbind at 1, M_bind at 1. rewrite (cl_auxiliary_off _ _ _ _ _ _ _ _ Hs).
  rewrite bind_get_self.
  rewrite (bind_lift_Ok _ _ _ (z1, z2, None)) by done.
  destruct (pairwise_sim_ok (sim cls) z1 z2 B B W Hz1 Hz2)
    as (c & Hc & Hcsh & _).
  destruct (cross_entropy_ok c B Hcsh) as [v Hv].
  rewrite (bind_lift_Ok _ _ _ (Tensor [] [v], c)).
  2:{ unfold cl_loss. rewrite Hc. cbn [mbind result_bind].
      rewrite Hs, Hm. cbn [orb mbind result_bind].
      unfold size, dim. rewrite Hcsh.
      change (wrap_dim (length [B; B]) 0) with (@Ok nat 0).
      cbn [mbind result_bind]. change ([B; B] !!! 0) with B.
      by rewrite Hv. }
  destruct (negb _); by eexists _, _, _.
Qed.

Lemma cl_forward_plain_views_witness :
  ∃ out loss logits,
    cl_forward None self_bert four_views four_views None None None 101
      (example_bert "avg" false false 4 2)
    = (Ok out, example_bert "avg" false false 4 2)
    ∧ cl_output_loss out = Some loss ∧ shape loss = []
    ∧ cl_output_logits out = Some logits ∧ shape logits = [2; 2].
Proof.
  apply (cl_forward_plain_views (example_bert "avg" false false 4 2) self_bert
           {| flags := ∅; encoder_forward := example_encoder 2 |} 2 4 3 2
           four_views four_views None None 101 eq_refl
           (example_encoder_total 2)
           (example_bert_consistent "avg" false false 4 2 avg_valid)
           (example_bert_projection "avg" false false 4 2)
           eq_refl eq_refl eq_refl eq_refl); [done|lia|lia].
Defined.

(** X18: in distributed training, a batch of three or more views without
    auxiliary ids and with [do_stronger] off raises [NameError]: the
    comprehension of line 314 reads [z3], which no branch has assigned.  The
    model is unchanged. *)
Theorem cl_forward_distributed_three_views cls enc e pg B V S W ids mask tti
    rd tok :
  deref enc cls = Some e → encoder_total (encoder_forward e) W →
  model_consistent cls → projection_ok cls W →
  do_stronger (model_args cls) = false → training cls = true →
  shape ids = [B; V; S] → shape mask = [B; V; S] →
  (∀ t, tti = Some t → shape t = [B; V; S]) → 3 ≤ V → 0 < S →
  0 < world_size pg →
  cl_forward (Some pg) enc ids mask tti rd None tok cls
  = (Raise NameError, cls).
Proof.
  intros He Henc Hok Hproj Hs Htr Hids Hmask Htti HV HS Hws.
  unfold cl_forward. rewrite bind_get_self.
  rewrite (bind_lift_Ok _ _ _ B) by (unfold size, dim; by rewrite Hids).
  unfold mbind at 1, M_bind at 1. rewrite (cl_stronger_off _ _ _ _ Hs).
  destruct (cl_encode_ok cls enc e B V S W ids mask tti He Henc Hok Hproj
              Hids Hmask Htti ltac:(lia) HS)
    as (o & mask' & tti' & z1 & z2 & Hrun & Hz1 & Hz2).
  unfold mbind at 1, M_bind at 1. rewrite Hrun.
  unfold mbind at 1, M_bind at 1. rewrite (cl_auxiliary_off _ _ _ _ _ _ _ _ Hs).
  rewrite bind_get_self.
  apply bind_lift_Raise. unfold cl_gather. rewrite Htr.
  replace (3 <=? V) with true by (symmetry; apply Nat.leb_le; lia).
  replace (world_size pg =? 0) with false
    by (symmetry; apply Nat.eqb_neq; lia).
  done.
Qed.

Lemma cl_forward_distributed_three_views_witness :
  cl_forward
    (Some {| world_size := 2; rank := 0; all_gather := λ z, [z; z] |})
    self_bert four_views four_views None None None 101
    (example_bert "avg" false false 4 2)
  = (Raise NameError, example_bert "avg" false false 4 2).
Proof.
  apply (cl_forward_distributed_three_views
           (example_bert "avg" false false 4 2) self_bert
           {| flags := ∅; encoder_forward := example_encoder 2 |} _ 2 4 3 2
           four_views four_views None None 101 eq_refl
           (example_encoder_total 2)
           (example_bert_consistent "avg" false false 4 2 avg_valid)
           (example_bert_projection "avg" false false 4 2)
           eq_refl eq_refl eq_refl eq_refl); [done|lia|lia|simpl; lia].
Defined.

(** X19: a batch with a single view raises [IndexError] at the split into
    [z1] and [z2], and the model is unchanged. *)
Theorem cl_forward_single_view cls enc e dist B S W ids mask tti rd mlm tok :
  deref enc cls = Some e → encoder_total (encoder_forward e) W →
  model_consistent cls → projection_ok cls W →
  do_stronger (model_args cls) = false →
  shape ids = [B; 1; S] → shape mask = [B; 1; S] →
  (∀ t, tti = Some t → shape t = [B; 1; S]) → 0 < S →
  cl_forward dist enc ids mask tti rd mlm tok cls = (Raise IndexError, cls).
Proof.
  intros He Henc (Hpool & Hargs & Hvalid) Hmlp Hs Hids Hmask Htti HS.
  unfold cl_forward. rewrite bind_get_self.
  rewrite (bind_lift_Ok _ _ _ B) by (unfold size, dim; by rewrite Hids).
  unfold mbind at 1, M_bind at 1. rewrite (cl_stronger_off _ _ _ _ Hs).
  assert (Henc1 : cl_encode enc B ids mask tti cls = (Raise IndexError, cls)).
  { unfold cl_encode. rewrite bind_get_self.
    rewrite (bind_lift_Ok _ _ _ 1) by (unfold size, dim; by rewrite Hids).
    rewrite (bind_lift_Ok _ _ _ _ (flatten_views_3d ids B 1 S Hids HS)).
    rewrite (bind_lift_Ok _ _ _ _ (flatten_views_3d mask B 1 S Hmask HS)).
    destruct (option_flatten_views tti B 1 S Htti HS) as [tti' Htti'].
    rewrite (bind_lift_Ok _ _ _ tti') by done.
    destruct (Henc (flags e) (Tensor [B * 1; S] (data ids))
                (Tensor [B * 1; S] (data mask)) tti'
                (needs_hidden_states (pooler_type (model_args cls)))
                (B * 1) S eq_refl) as (o & Ho & Hok).
    rewrite (bind_call_encoder _ _ _ _ _ _ _ e o He Ho).
    rewrite Hargs in Hok. rewrite Hpool.
    destruct (Pooler_forward_ok _ (Tensor [B * 1; S] (data mask)) o
                (B * 1) S W Hvalid Hok eq_refl HS) as (p & Hp & Hpsh).
    rewrite (bind_lift_Ok _ _ _ p) by done.
    rewrite (bind_lift_Ok _ _ _ (Tensor [B; 1; W] (data p))).
    2:{ rewrite (size_last_2d p (B * 1) W Hpsh). cbn [mbind result_bind].
        by apply view_views. }
    assert (∃ q, (if bool_decide (cls_pooler_type cls = "cls")
                  then lift (m ← getattr (mlp cls);
                             MLPLayer_forward m (Tensor [B; 1; W] (data p)))
                  else mret (Tensor [B; 1; W] (data p)))
                 = (mret q : M CLModel (tensor R))
                 ∧ shape q = [B; 1; W]) as (q & -> & Hq).
    { case_bool_decide as Hcls; [|by eexists].
      destruct (Hmlp Hcls) as (m & -> & Hm). cbn [getattr mbind result_bind].
      destruct (MLPLayer_forward_ok m (Tensor [B; 1; W] (data p)) [B; 1] W Hm
                  eq_refl) as (q & -> & Hq).
      by exists q. }
    rewrite bind_mret.
    destruct (select_3d_mid q B 1 W 0 Hq ltac:(lia)) as (z1 & Hz1 & Hz1sh).
    rewrite (bind_lift_Ok _ _ _ z1) by done.
    apply bind_lift_Raise. by apply (select_singleton_fail q B W). }
  unfold mbind at 1, M_bind at 1. by rewrite Henc1.
Qed.

Lemma cl_forward_single_view_witness :
  cl_forward None self_bert one_view one_view None None None 101
    (example_bert "avg" false false 4 2)
  = (Raise IndexError, example_bert "avg" false false 4 2).
Proof.
  apply (cl_forward_single_view
           (example_bert "avg" false false 4 2) self_bert
           {| flags := ∅; encoder_forward := example_encoder 2 |} None 2 3 2
           one_view one_view None None None 101 eq_refl
           (example_encoder_total 2)
           (example_bert_consistent "avg" false false 4 2 avg_valid)
           (example_bert_projection "avg" false false 4 2)
           eq_refl eq_refl eq_refl); [done|lia].
Defined.

(** ** Gathering across workers *)

Lemma block_mjoin {A} (n : nat) (ls : list (list A)) k x :
  Forall (λ y, length y = n) ls → ls !! k = Some x →
  block n (mjoin ls) k = x.
Proof.
  unfold block. intros Hall. revert k.
  induction Hall as [|y ls Hy Hall IH]; intros k Hk; [done|].
  destruct k as [|k]; simpl in Hk.
  - injection Hk as ->. change (mjoin (x :: ls)) with (x ++ mjoin ls).
    rewrite Nat.mul_0_l, drop_0. by apply take_app_length'.
  - change (mjoin (y :: ls)) with (y ++ mjoin ls).
    rewrite drop_app_ge by lia.
    replace (S k * n - length y) with (k * n) by lia. by apply IH.
Qed.

Lemma sum_list_const (n : nat) (l : list nat) :
  Forall (λ x, x = n) l → sum_list l = length l * n.
Proof. induction 1 as [|x l -> _ IH]; simpl; [done|]. by rewrite IH. Qed.

(** X20: when every worker contributes a [(B, D)] tensor, the gathered
    tensor has [world * B] rows; the block of this worker's rank is its own
    tensor, not the copy the collective returned, and every other block is
    what the collective returned. *)
Theorem gather_with_grad_blocks (pg : ProcessGroup) (z : tensor R) B D :
  shape z = [B; D] → wf z → rank pg < length (all_gather pg z) →
  Forall (λ t, shape t = [B; D] ∧ wf t) (all_gather pg z) →
  ∃ t, gather_with_grad pg z = Ok t
       ∧ shape t = [length (all_gather pg z) * B; D]
       ∧ block (B * D) (data t) (rank pg) = data z
       ∧ ∀ r x, r ≠ rank pg → all_gather pg z !! r = Some x →
                block (B * D) (data t) r = data x.
Proof.
  intros Hz Wz Hr Hall. unfold gather_with_grad.
  rewrite bool_decide_eq_true_2 by done.
  set (l := all_gather pg z) in *.
  assert (Hall' : Forall (λ t, shape t = [B; D] ∧ wf t) (<[rank pg := z]> l)).
  { apply Forall_insert; [done|by split]. }
  unfold cat0.
  destruct (<[rank pg := z]> l) as [|t0 ts] eqn:El.
  { apply (f_equal length) in El. rewrite length_insert in El.
    simpl in El. lia. }
  assert (Ht0 : shape t0 = [B; D]).
  { by apply Forall_cons in Hall' as [[? _] _]. }
  rewrite Ht0. rewrite bool_decide_eq_true_2.
  2:{ eapply Forall_impl; [exact Hall'|]. by intros t [-> _]. }
  rewrite <- El in *. clear El Ht0 t0 ts.
  eexists. split; [done|]. cbn [shape data].
  assert (Hlens : Forall (λ y : list R, length y = B * D)
                    (data <$> <[rank pg := z]> l)).
  { apply Forall_fmap. eapply Forall_impl; [exact Hall'|].
    intros t [Hsh Hwf]. unfold wf in Hwf. rewrite Hsh in Hwf.
    simpl in *. lia. }
  split; [|split].
  - f_equal. rewrite (sum_list_const B).
    + by rewrite length_fmap, length_insert.
    + apply Forall_fmap. eapply Forall_impl; [exact Hall'|].
      intros t [Hsh _]. simpl. by rewrite Hsh.
  - apply block_mjoin; [done|].
    by rewrite list_lookup_fmap, list_lookup_insert_eq by done.
  - intros r x Hne Hx. apply block_mjoin; [done|].
    by rewrite list_lookup_fmap, list_lookup_insert_ne, Hx by done.
Qed.

Lemma gather_with_grad_blocks_witness :
  let z := Tensor [1; 2] [1; 2]%R in
  ∃ t, gather_with_grad example_group z = Ok t ∧ shape t = [2; 2]
       ∧ block 2 (data t) 1 = [1; 2]%R.
Proof.
  intros z.
  destruct (gather_with_grad_blocks example_group z 1 2 eq_refl eq_refl)
    as (t & Ht & Hsh & Hown & _).
  - simpl. lia.
  - constructor; [done|]. constructor; [done|constructor].
  - by exists t.
Defined.

(** ** The loss, continued *)

Lemma softmax_entry_bounds (c : tensor R) K i k :
  k < K → (0 < softmax_entry c K i k <= 1)%R.
Proof.
  intros Hk. unfold softmax_entry.
  set (f := λ e, exp (get c (i * K + e))).
  assert (Hpos : ∀ e, (0 <= f e)%R) by (intros e; left; apply exp_pos).
  assert (Hin : k ∈ seq 0 K) by (apply elem_of_seq; lia).
  pose proof (Rsum_ge_term f (seq 0 K) k Hpos Hin) as Hge.
  pose proof (exp_pos (get c (i * K + k))) as Hek.
  fold (f k) in Hek |- *.
  assert (HS : (0 < Rsum (f <$> seq 0 K))%R) by lra.
  split.
  - by apply Rdiv_lt_0_compat.
  - apply (Rmult_le_reg_r (Rsum (f <$> seq 0 K))); [done|].
    unfold Rdiv. rewrite Rmult_assoc, Rinv_l by lra. lra.
Qed.

Lemma ln_softmax_entry (c : tensor R) K i k :
  k < K →
  (- ln (softmax_entry c K i k)
   = ln (Rsum ((λ e, exp (get c (i * K + e))) <$> seq 0 K))
     - get c (i * K + k))%R.
Proof.
  intros Hk. pose proof (softmax_entry_bounds c K i k Hk) as [Hp _].
  unfold softmax_entry in *.
  set (S := Rsum _) in *.
  assert (HS : (0 < S)%R).
  { pose proof (exp_pos (get c (i * K + k))).
    destruct (Rlt_dec 0 S) as [|Hn]; [done|].
    exfalso. apply Rnot_lt_le in Hn.
    unfold Rdiv in Hp.
    destruct (Req_dec S 0) as [Hz|Hz].
    - rewrite Hz, Rinv_0 in Hp. lra.
    - assert (/ S < 0)%R by (apply Rinv_lt_0_compat; lra). nra. }
  unfold Rdiv. rewrite ln_mult by (try apply exp_pos; by apply Rinv_0_lt_compat).
  rewrite ln_exp, ln_Rinv by done. lra.
Qed.

(** X21: without auxiliary branch the loss is the mean over the examples
    [i] of [-log (exp s[i][i] / sum_j exp s[i][j])], where [s[i][j]] is the
    cosine similarity of [z1[i]] and [z2[j]] divided by the temperature. *)
Theorem contrastive_loss_formula cls z1 z2 n D :
  do_stronger (model_args cls) = false → do_mlm (model_args cls) = false →
  shape z1 = [n; D] → shape z2 = [n; D] →
  ∃ c, pairwise_sim (sim cls) z1 z2 = Ok c
       ∧ shape c = [n; n]
       ∧ (∀ i j, i < n → j < n →
            get c (i * n + j) = sim_entry (sim cls) z1 z2 D i j)
       ∧ cl_loss cls z1 z2 = Ok (Tensor [] [info_nce c n], c).
Proof.
  intros Hs Hm Hz1 Hz2.
  destruct (pairwise_sim_entries (sim cls) z1 z2 n n D Hz1 Hz2)
    as (c & Hc & Hcsh & _ & Hent).
  exists c. split; [done|]. split; [done|]. split; [done|].
  unfold cl_loss. rewrite Hc. cbn [mbind result_bind].
  rewrite Hs, Hm. cbn [orb mbind result_bind].
  unfold size, dim. rewrite Hcsh.
  change (wrap_dim (length [n; n]) 0) with (@Ok nat 0).
  cbn [mbind result_bind]. change ([n; n] !!! 0) with n.
  assert (Hce : cross_entropy c (arange n) = Ok (Tensor [] [info_nce c n])).
  { unfold cross_entropy. rewrite Hcsh. cbn [shape arange tabulate].
    rewrite Nat.eqb_refl. cbn [negb].
    rewrite bool_decide_eq_true_2.
    2:{ unfold arange, tabulate. cbn [numel foldr data]. rewrite Nat.mul_1_r.
        apply Forall_forall. intros y Hy%elem_of_take.
        destruct Hy as (i & Hy & _). rewrite list_lookup_fmap in Hy.
        destruct (seq 0 n !! i) as [j|] eqn:Hj; [|done].
        apply lookup_seq in Hj as [-> Hj]. simpl in Hy.
        injection Hy as <-. lia. }
    do 3 f_equal. unfold info_nce. f_equal.
    apply Rsum_ext. intros i Hi%elem_of_seq.
    rewrite ln_softmax_entry by lia. do 2 f_equal.
    fold (arange n). unfold arange. rewrite get_tabulate
      by (cbn [numel foldr]; lia).
    by rewrite Nat2Z.id. }
  by rewrite Hce.
Qed.

Lemma contrastive_loss_formula_witness :
  let cls := example_bert "avg" false false 4 2 in
  let z1 := Tensor [2; 2] [1; 0; 0; 1]%R in
  let z2 := Tensor [2; 2] [1; 1; 0; 2]%R in
  ∃ c, cl_loss cls z1 z2 = Ok (Tensor [] [info_nce c 2], c).
Proof.
  intros cls z1 z2.
  destruct (contrastive_loss_formula cls z1 z2 2 2 eq_refl eq_refl eq_refl
              eq_refl) as (c & _ & _ & _ & Hl).
  by exists c.
Defined.

Lemma row_entropy_nonneg (c : tensor R) K i : (0 <= row_entropy c K i)%R.
Proof.
  unfold row_entropy. apply Rsum_nonneg_on. intros k Hk%elem_of_seq.
  destruct (softmax_entry_bounds c K i k ltac:(lia)) as [Hp H1].
  assert (ln (softmax_entry c K i k) <= 0)%R.
  { rewrite <- ln_1. destruct H1 as [Hlt|Heq]; [|rewrite Heq; lra].
    left. by apply ln_increasing. }
  nra.
Qed.



(** ** The masked-prediction view *)

Lemma cl_encode_mask enc B ids mask tti cls o mask' tti' V z1 z2 cls' :
  cl_encode enc B ids mask tti cls = (Ok (o, mask', tti', V, z1, z2), cls') →
  flatten_views mask = Ok mask'.
Proof.
  unfold cl_encode. returned_steps.
  destruct (size _ (-1)) as [h|] eqn:Hh; [|done].
  cbn [mbind result_bind] in *.
  destruct (bool_decide (cls_pooler_type cls = "cls")).
  - returned_steps. by intros [= <- <- <- <- <- <- <-].
  - returned_steps. by intros [= <- <- <- <- <- <- <-].
Qed.

(** X23: the auxiliary branch takes view 0 of example [i] of the auxiliary
    ids, and masks it with row [i] of the flattened attention mask, which is
    the mask of view [i mod V] of example [i / V] of the batch. *)
Theorem aux_mask_rows enc B V S ids (mask : tensor Z) tti cls o mask' tti' V'
    z1 z2 cls' (mlm : tensor Z) Vm :
  shape mask = [B; V; S] → wf mask → 0 < V →
  shape mlm = [B; Vm; S] → 0 < Vm →
  cl_encode enc B ids mask tti cls = (Ok (o, mask', tti', V', z1, z2), cls') →
  ∃ mlm0 m,
    select mlm 1 0 = Ok mlm0 ∧ shape mlm0 = [B; S]
    ∧ slice0 mask' 0 (Z.of_nat B) = Ok m ∧ shape m = [B; S]
    ∧ ∀ i s, i < B → s < S →
        get mlm0 (i * S + s) = get mlm ((i * Vm + 0) * S + s)
        ∧ get m (i * S + s) = get mask ((i / V * V + i mod V) * S + s).
Proof.
  intros Hsh Hwf HV Hmlm HVm Hrun. apply cl_encode_mask in Hrun.
  destruct (decide (S = 0)) as [->|HS].
  { unfold flatten_views, size, dim, view in Hrun. by rewrite Hsh in Hrun. }
  rewrite (flatten_views_3d mask B V S) in Hrun by (done || lia).
  injection Hrun as <-.
  unfold select, dim. rewrite Hmlm.
  change (wrap_dim (length [B; Vm; S]) 1) with (@Ok nat 1).
  cbn [mbind result_bind]. change (extent [B; Vm; S] 1) with Vm.
  rewrite (wrap_dim_nonneg Vm 0) by lia. cbn [mbind result_bind].
  change (remove_dim [B; Vm; S] 1) with [B; S].
  unfold slice0. cbn [shape data].
  assert (HBV : B ≤ B * V) by (destruct V; [lia|nia]).
  change 0%Z with (Z.of_nat 0) at 2. rewrite slice_bounds_in by lia.
  eexists _, _. split; [done|]. split; [done|]. split; [done|].
  rewrite Nat.sub_0_r. split; [done|].
  intros i s Hi Hs. split.
  - rewrite get_tabulate by (cbn [numel foldr]; nia).
    by rewrite offset_at_mid by done.
  - unfold get. cbn [data numel foldr].
    rewrite Nat.mul_0_l, drop_0, Nat.mul_1_r.
    replace (i / V * V + i mod V) with i
      by (rewrite (Nat.mul_comm (i / V) V); apply Nat.div_mod_eq).
    apply list_lookup_total_correct.
    rewrite lookup_take_lt by nia.
    apply list_lookup_lookup_total_lt.
    unfold wf in Hwf. rewrite Hwf, Hsh. cbn [numel foldr]. nia.
Qed.

(** Two examples of two views: the auxiliary ids of example 1 are its
    view 0, and the mask applied to them is the mask of view 1 of
    example 0. *)
Lemma aux_mask_rows_witness :
  let cls := example_bert "avg" false true 4 2 in
  let mask := tabulate [2; 2; 2] Z.of_nat in
  let mlm := tabulate [2; 2; 2] Z.of_nat in
  ∃ mlm0 m,
    select mlm 1 0 = Ok mlm0 ∧ get mlm0 (1 * 2 + 0) = get mlm 4
    ∧ slice0 (Tensor [4; 2] (data mask)) 0 2 = Ok m
    ∧ get m (1 * 2 + 0) = get mask 2.
Proof.
  intros cls mask mlm.
  pose (o := {| last_hidden_state := tabulate [4; 2; 2] (λ k, INR k);
                pooler_output := None; hidden_states := None;
                attentions := None |}).
  assert (Hcl : ∃ z1 z2,
            cl_encode self_bert 2 (tabulate [2; 2; 2] Z.of_nat) mask None cls
            = (Ok (o, Tensor [4; 2] (data mask), None, 2, z1, z2), cls))
    by (eexists _, _; vm_compute; reflexivity).
  destruct Hcl as (z1 & z2 & Hcl).
  destruct (aux_mask_rows self_bert 2 2 2 _ mask None cls o _ None 2 z1 z2 cls
              mlm 2 eq_refl eq_refl ltac:(lia) eq_refl ltac:(lia) Hcl)
    as (mlm0 & m & Hsel & _ & Hsl & _ & Hget).
  destruct (Hget 1 0 ltac:(lia) ltac:(lia)) as [H1 H2].
  exists mlm0, m. split; [done|]. split; [exact H1|]. split; [exact Hsl|].
  exact H2.
Defined.

Lemma argmax_from_spec (pre l : list R) best bi :
  pre !! bi = Some best → Forall (λ x, x <= best)%R pre →
  ∃ v, (pre ++ l) !! argmax_from best bi (length pre) l = Some v
       ∧ Forall (λ x, x <= v)%R (pre ++ l).
Proof.
  revert pre best bi. induction l as [|x l IH]; intros pre best bi Hbi Hall.
  - exists best. rewrite app_nil_r. by split.
  - cbn [argmax_from]. destruct (Rlt_dec best x) as [Hlt|Hge].
    + destruct (IH (pre ++ [x]) x (length pre)) as (v & Hv & Hmax).
      * by rewrite lookup_app_r, Nat.sub_diag by lia.
      * apply Forall_app. split; [|apply Forall_singleton; lra].
        eapply Forall_impl; [exact Hall|]. intros y Hy. cbv beta in *. lra.
      * rewrite length_app in Hv. simpl in Hv.
        rewrite <- app_assoc in Hv, Hmax. simpl in Hv, Hmax.
        replace (S (length pre)) with (length pre + 1) by lia.
        by exists v.
    + destruct (IH (pre ++ [x]) best bi) as (v & Hv & Hmax).
      * by apply lookup_app_l_Some.
      * apply Forall_app. split; [done|]. apply Forall_singleton.
        by apply Rnot_lt_le.
      * rewrite length_app in Hv. simpl in Hv.
        rewrite <- app_assoc in Hv, Hmax. simpl in Hv, Hmax.
        replace (S (length pre)) with (length pre + 1) by lia.
        by exists v.
Qed.

Lemma argmax_list_spec (l : list R) :
  l ≠ [] →
  ∃ v, l !! Z.to_nat (argmax_list l) = Some v
       ∧ (0 ≤ argmax_list l < Z.of_nat (length l))%Z
       ∧ Forall (λ x, x <= v)%R l.
Proof.
  destruct l as [|x l]; [done|]. intros _. unfold argmax_list.
  destruct (argmax_from_spec [x] l x 0 eq_refl) as (v & Hv & Hmax).
  { apply Forall_singleton. lra. }
  simpl in Hv, Hmax. exists v. rewrite Nat2Z.id. split; [done|].
  split; [|done]. apply lookup_lt_Some in Hv. lia.
Qed.

Lemma offset_at_last3 B S W e k : offset_at [B; S; W] 2 e k = k * W + e.
Proof.
  unfold offset_at, inner, extent. cbn [drop numel foldr].
  change ([B; S; W] !!! 2) with W.
  rewrite Nat.div_1_r, Nat.mod_1_r. lia.
Qed.

(** [z3] of the auxiliary branch is the pooled encoding of the
    reconstructed ids; the model is unchanged. *)
Lemma cl_mlm_encode_reconstruct enc B mask tti mlm tok cls z3 cls' :
  cl_mlm_encode enc B mask tti mlm tok cls = (Ok z3, cls') →
  cls' = cls
  ∧ ∃ mlm0 m tti0 logits ids e o,
      select mlm 1 0 = Ok mlm0
      ∧ slice0 mask 0 (Z.of_nat B) = Ok m
      ∧ option_mapM (λ t, slice0 t 0 (Z.of_nat B)) tti = Ok tti0
      ∧ generator cls mlm0 m = Ok logits
      ∧ reconstruct_ids logits m tok = Ok ids
      ∧ deref enc cls = Some e
      ∧ encoder_forward e (flags e) ids m tti0
          (needs_hidden_states (pooler_type (model_args cls))) = Ok o
      ∧ Pooler_forward (pooler cls) m o = Ok z3.
Proof.
  unfold cl_mlm_encode. rewrite bind_get_self.
  destruct (select mlm 1 0) as [mlm0|] eqn:E1;
    [erewrite bind_lift_Ok by done|by erewrite bind_lift_Raise by done].
  destruct (slice0 mask 0 (Z.of_nat B)) as [m|] eqn:E2;
    [erewrite bind_lift_Ok by done|by erewrite bind_lift_Raise by done].
  destruct (option_mapM _ tti) as [tti0|] eqn:E3;
    [erewrite bind_lift_Ok by done|by erewrite bind_lift_Raise by done].
  destruct (generator cls mlm0 m) as [logits|] eqn:E4.
  2:{ by erewrite bind_lift_Raise by done. }
  cbn [mbind result_bind].
  destruct (argmax logits (-1)) as [g|] eqn:E5.
  2:{ by erewrite bind_lift_Raise by done. }
  erewrite bind_lift_Ok by done.
  destruct (fill_select g 1 0 tok) as [g'|] eqn:E6;
    [erewrite bind_lift_Ok by done|by erewrite bind_lift_Raise by done].
  destruct (map2 _ g' m) as [ids|] eqn:E7;
    [erewrite bind_lift_Ok by done|by erewrite bind_lift_Raise by done].
  unfold mbind at 1, M_bind at 1.
  destruct (call_encoder _ _ _ _ _ cls) as [[o|] s] eqn:E8; [|done].
  apply call_encoder_inv in E8 as (-> & e & He & Ho).
  destruct (Pooler_forward (pooler cls) m o) as [p|] eqn:E9;
    [erewrite bind_lift_Ok by done|by erewrite bind_lift_Raise by done].
  intros [= <- <-]. split; [done|].
  exists mlm0, m, tti0, logits, ids, e, o.
  repeat split; try done.
  unfold reconstruct_ids. rewrite E5. cbn [mbind result_bind].
  rewrite E6. done.
Qed.


